(** * File-to-text extraction pipeline: [TextExtractor] and [FileHandler]

    A shallow embedding of
      - src/chrome-extension/utils/textExtractor.ts
      - src/chrome-extension/utils/fileHandler.ts
      - src/pages/side-panel/src/components/ChatInput.tsx (the form, and
        the class [MessageInterpreter] at the end of the file)
    together with the part of the JavaScript run time the two classes rely
    on: strings as sequences of UTF-16 code units, completions (normal
    return or thrown value), settled promises, [Promise.all],
    [JSON.parse] and [JSON.stringify], which throws a RangeError when
    the nesting of the value exhausts the call stack.

    Layout: the definitions (the run time in the modules [JSNumber],
    [Char], [JSON] and [PromiseAll], then the two classes and the notions
    the properties use), the facts about the run time, and the
    properties of the pipeline. *)

From Stdlib Require Import String Ascii ZArith NArith QArith Qreduction Qpower.
From Stdlib Require Import Lia Bool Permutation Sorted List.
Import ListNotations.

Local Open Scope Z_scope.

(* ================================================================== *)
(** * JavaScript values used by the pipeline *)
(* ================================================================== *)

(** A JavaScript string is a finite sequence of UTF-16 code units; a code
    unit is a number below 65536.  String literals of the source are
    ASCII and are written [js "..."]. *)
Definition jsstring : Type := list N.

Definition js (s : string) : jsstring :=
  map N_of_ascii (list_ascii_of_string s).

Fixpoint jsstring_eqb (a b : jsstring) : bool :=
  match a, b with
  | [], [] => true
  | x :: a', y :: b' => N.eqb x y && jsstring_eqb a' b'
  | _, _ => false
  end.

(** What a [throw] carries: an instance of [Error] with its [message], or
    any other value ([error instanceof Error] is false for it). *)
Inductive thrown : Type :=
| ErrorObject (message : jsstring)
| NonError.

(** Outcome of evaluating a statement list or of awaiting a promise:
    the value, or the thrown value (rejection reason). *)
Inductive completion (A : Type) : Type :=
| Normal (a : A)
| Throw (e : thrown).
Arguments Normal {A} a.
Arguments Throw {A} e.

(** Calls that [extractText] makes on its collaborators, in program
    order. *)
Inductive event : Type :=
| Call_extractPlainText
| Call_extractOfficeDocument
| Call_file_text
| Call_file_arrayBuffer
| Call_Buffer_from
| Call_officeExtractor_extractText.

(** A computation yields the calls it made and its completion. *)
Definition M (A : Type) : Type := (list event * completion A)%type.

Definition ret {A} (a : A) : M A := ([], Normal a).
Definition throw {A} (e : thrown) : M A := ([], Throw e).
Definition perform {A} (ev : event) (outcome : completion A) : M A := ([ev], outcome).

Definition bind {A B} (m : M A) (k : A -> M B) : M B :=
  match m with
  | (tr, Normal a) => let '(tr', r) := k a in (tr ++ tr', r)
  | (tr, Throw e) => (tr, Throw e)
  end.

(** [try { body } catch (error) { handler error }] *)
Definition try_catch {A} (body : M A) (handler : thrown -> M A) : M A :=
  match body with
  | (tr, Normal a) => (tr, Normal a)
  | (tr, Throw e) => let '(tr', r) := handler e in (tr ++ tr', r)
  end.

Declare Scope js_scope.
Delimit Scope js_scope with js.
Notation "x <- m ;; k" := (bind m (fun x => k))
  (at level 61, m at next level, right associativity) : js_scope.

Definition trace {A} (m : M A) : list event := fst m.
Definition outcome {A} (m : M A) : completion A := snd m.

(** [error instanceof Error ? error.message : fallback] *)
Definition message_or (fallback : jsstring) (e : thrown) : jsstring :=
  match e with
  | ErrorObject message => message
  | NonError => fallback
  end.

(* ================================================================== *)
(** * The Number type: IEEE 754 binary64 *)
(* ================================================================== *)

Module JSNumber.

(** A Number that [JSON.parse] can produce: a signed zero, a finite
    non-zero value [(-1)^neg * m * 2^e], or a signed infinity (a literal
    beyond the binary64 range).  [JSON.parse] never produces NaN. *)
Inductive number : Type :=
| Zero (neg : bool)
| Finite (neg : bool) (m : positive) (e : Z)
| Infinity (neg : bool).

(** Canonical binary64 significand and exponent: 53 bits, exponent of the
    last bit between -1074 and 971, normalised unless subnormal. *)
Definition canonical (m : positive) (e : Z) : Prop :=
  Zpos m < 2 ^ 53 /\ -1074 <= e <= 971 /\ (2 ^ 52 <= Zpos m \/ e = -1074).

Definition number_eqb (x y : number) : bool :=
  match x, y with
  | Zero a, Zero b => Bool.eqb a b
  | Finite a m e, Finite b m' e' => Bool.eqb a b && Pos.eqb m m' && Z.eqb e e'
  | Infinity a, Infinity b => Bool.eqb a b
  | _, _ => false
  end.

Definition is_finite (x : number) : bool :=
  match x with
  | Infinity _ => false
  | _ => true
  end.


(** ** Rounding a positive rational [n / d] to binary64 (ties to even) *)

(** [n / d] rounded to the nearest integer, ties to the even one. *)
Definition round_half_even (n d : Z) : Z :=
  let q := n / d in
  match 2 * (n mod d) ?= d with
  | Lt => q
  | Gt => q + 1
  | Eq => if Z.even q then q else q + 1
  end.

(** The value is scaled by [2^1074], so that the last bit of the smallest
    subnormal has weight 1: [e] below is the binary exponent plus 1074.
    The exponent is chosen so that the significand has 53 bits (less in
    the subnormal range); a significand that rounds up to [2^53] is
    renormalised; an exponent above 971 overflows to infinity. *)
Definition round_pos (neg : bool) (n d : positive) : number :=
  let n' := Zpos n * 2 ^ 1074 in
  let e := Z.max (Z.log2 (n' / Zpos d) - 52) 0 in
  let m := round_half_even n' (Zpos d * 2 ^ e) in
  let '(m, e) := if m =? 2 ^ 53 then (2 ^ 52, e + 1) else (m, e) in
  match m with
  | Zpos p => if 971 <? e - 1074 then Infinity neg else Finite neg p (e - 1074)
  | _ => Zero neg
  end.

(** The mathematical value [M * 10^E] of a decimal literal, as a reduced
    fraction. *)
Definition decimal_to_Q (M E : Z) : Q := Qred (inject_Z M * Qpower (10 # 1) E).

(** The Number denoted by the decimal literal with sign [neg], digits [M]
    and decimal exponent [E] (the rounding of StringToNumber). *)
Definition StringToNumber (neg : bool) (M E : Z) : number :=
  match Qnum (decimal_to_Q M E) with
  | Zpos n => round_pos neg n (Qden (decimal_to_Q M E))
  | _ => Zero neg
  end.

(** ** Number::toString (radix 10) *)

(** Decimal digits of a non-negative integer, most significant first. *)
Fixpoint to_digits_aux (fuel : nat) (z : Z) (acc : list Z) : list Z :=
  match fuel with
  | O => acc
  | S fuel' => if z <? 10 then z :: acc else to_digits_aux fuel' (z / 10) (z mod 10 :: acc)
  end.

Definition to_digits (z : Z) : list Z :=
  to_digits_aux (S (Z.to_nat (Z.log2 z))) z [].

Definition digit_char (d : Z) : N := Z.to_N (48 + d).

Definition decimal_string (z : Z) : jsstring := map digit_char (to_digits z).

(** Removes the trailing zeros of [c], keeping [c * 10^p]. *)
Fixpoint strip_zeros (fuel : nat) (c p : Z) : Z * Z :=
  match fuel with
  | O => (c, p)
  | S fuel' =>
      if (c mod 10 =? 0) && (0 <? c) then strip_zeros fuel' (c / 10) (p + 1) else (c, p)
  end.

(** [m * 2^e] written exactly as [Mx * 10^p]. *)
Definition exact_decimal (m : positive) (e : Z) : Z * Z :=
  if 0 <=? e then (Zpos m * 2 ^ e, 0) else (Zpos m * 5 ^ (- e), e).

(** The two decimals with [k] significant digits next to [Mx * 10^p]
    ([Mx] has [L] digits), the closer one first (the even one on a tie). *)
Definition candidates (Mx p : Z) (L k : nat) : list (Z * Z) :=
  let drop := Z.of_nat (L - k) in
  let lo := Mx / 10 ^ drop in
  let hi := lo + 1 in
  match 2 * (Mx mod 10 ^ drop) ?= 10 ^ drop with
  | Lt => [(lo, p + drop); (hi, p + drop)]
  | Gt => [(hi, p + drop); (lo, p + drop)]
  | Eq =>
      if Z.even lo then [(lo, p + drop); (hi, p + drop)]
      else [(hi, p + drop); (lo, p + drop)]
  end.

(** First decimal, by increasing number of digits [k], that denotes the
    Number. *)
Fixpoint search_shortest (pass : Z * Z -> bool) (Mx p : Z) (L fuel k : nat)
  : option (Z * Z) :=
  match fuel with
  | O => None
  | S fuel' =>
      match find pass (candidates Mx p L k) with
      | Some c => Some c
      | None => search_shortest pass Mx p L fuel' (S k)
      end
  end.

Definition denotes (m : positive) (e : Z) (c : Z * Z) : bool :=
  number_eqb (StringToNumber false (fst c) (snd c)) (Finite false m e).

(** Integers [s], [p] with [s * 10^p] denoting [m * 2^e], [s] with as few
    digits as possible. *)
Definition shortest_decimal (m : positive) (e : Z) : Z * Z :=
  let '(Mx, p) := exact_decimal m e in
  let L := length (to_digits Mx) in
  match search_shortest (denotes m e) Mx p L L 1 with
  | Some c => c
  | None => (Mx, p)
  end.

(** The digits [ds] ([k] of them) and the position [n] of the decimal
    point, laid out as Number::toString does. *)
Definition layout (ds : list N) (n : Z) : jsstring :=
  let k := Z.of_nat (length ds) in
  let exponent :=
    (if 0 <? n - 1 then js "e+" else js "e-") ++ decimal_string (Z.abs (n - 1)) in
  if (k <=? n) && (n <=? 21) then ds ++ repeat 48%N (Z.to_nat (n - k))
  else if (0 <? n) && (n <=? 21) then
    firstn (Z.to_nat n) ds ++ js "." ++ skipn (Z.to_nat n) ds
  else if (-6 <? n) && (n <=? 0) then js "0." ++ repeat 48%N (Z.to_nat (- n)) ++ ds
  else match ds with
       | [] => []
       | [d] => [d] ++ exponent
       | d :: rest => [d] ++ js "." ++ rest ++ exponent
       end.

Definition NumberToString_pos (m : positive) (e : Z) : jsstring :=
  let '(c, p) := shortest_decimal m e in
  let '(s, p) := strip_zeros (Z.to_nat (Z.log2 c)) c p in
  let ds := decimal_string s in
  layout ds (Z.of_nat (length ds) + p).

Definition NumberToString (x : number) : jsstring :=
  match x with
  | Zero _ => js "0"
  | Finite neg m e => (if neg then js "-" else []) ++ NumberToString_pos m e
  | Infinity neg => (if neg then js "-" else []) ++ js "Infinity"
  end.

(** ** Numbers as [JSON.parse] and [JSON.stringify] see them *)

(** The sign of a zero is not printed: both zeros are written [0]. *)
Definition unsigned_zero (x : number) : number :=
  match x with
  | Zero _ => Zero false
  | _ => x
  end.

(** A finite non-zero Number is a canonical binary64 number. *)
Definition wf_number (x : number) : Prop :=
  match x with
  | Finite _ m e => canonical m e
  | _ => True
  end.

End JSNumber.

(* ================================================================== *)
(** * JSON.parse and JSON.stringify *)
(* ================================================================== *)

(** Code units that the JSON grammar names. *)
Module Char.
Definition tab : N := 9.
Definition line_feed : N := 10.
Definition carriage_return : N := 13.
Definition space : N := 32.
Definition quote : N := 34.
Definition plus : N := 43.
Definition comma : N := 44.
Definition minus : N := 45.
Definition dot : N := 46.
Definition slash : N := 47.
Definition zero : N := 48.
Definition colon : N := 58.
Definition lbracket : N := 91.
Definition backslash : N := 92.
Definition rbracket : N := 93.
Definition lbrace : N := 123.
Definition rbrace : N := 125.
End Char.

(** [JSON.parse (text)] without reviver and [JSON.stringify (value, null,
    2)] as ECMAScript defines them, on the values [JSON.parse] produces.
    The limits of an engine (stack depth, string length) are not part of
    the model. *)
Module JSON.
Import JSNumber.

(** The values [JSON.parse] returns.  The properties of an object are
    listed in the order [Object.keys] and [JSON.stringify] enumerate
    them. *)
Unset Elimination Schemes.
Inductive json : Type :=
| JNull
| JBool (b : bool)
| JNumber (x : number)
| JString (s : jsstring)
| JArray (elements : list json)
| JObject (properties : list (jsstring * json)).
Set Elimination Schemes.

Inductive token : Type :=
| TLBrace | TRBrace | TLBracket | TRBracket | TComma | TColon
| TNull | TTrue | TFalse
| TString (s : jsstring)
| TNumber (x : number).

(** ** Lexical grammar *)

Definition is_ws (c : N) : bool :=
  (c =? Char.tab)%N || (c =? Char.line_feed)%N
  || (c =? Char.carriage_return)%N || (c =? Char.space)%N.

Definition is_digit (c : N) : bool := (48 <=? c)%N && (c <=? 57)%N.

Definition digit_value (c : N) : Z := Z.of_N c - 48.

(** The longest prefix of decimal digits, as digit values. *)
Fixpoint span_digits (s : jsstring) : list Z * jsstring :=
  match s with
  | [] => ([], [])
  | c :: rest =>
      if is_digit c then
        let '(ds, r) := span_digits rest in (digit_value c :: ds, r)
      else ([], s)
  end.

Definition digits_value (ds : list Z) : Z :=
  fold_left (fun acc d => 10 * acc + d) ds 0.

(** JSONNumber: an optional minus sign, an integer part without leading
    zero, an optional fraction and an optional exponent. *)
Definition lex_int (s : jsstring) : option (list Z * jsstring) :=
  match s with
  | [] => None
  | c :: rest =>
      if (c =? Char.zero)%N then Some ([0], rest)
      else if is_digit c then Some (span_digits s)
      else None
  end.

Definition lex_fraction (s : jsstring) : option (list Z * jsstring) :=
  match s with
  | c :: rest =>
      if (c =? Char.dot)%N then
        match span_digits rest with
        | ([], _) => None
        | (ds, r) => Some (ds, r)
        end
      else Some ([], s)
  | [] => Some ([], [])
  end.

Definition lex_sign (s : jsstring) : bool * jsstring :=
  match s with
  | c :: rest =>
      if (c =? Char.minus)%N then (true, rest)
      else if (c =? Char.plus)%N then (false, rest)
      else (false, s)
  | [] => (false, [])
  end.

Definition lex_exponent (s : jsstring) : option (Z * jsstring) :=
  match s with
  | c :: rest =>
      if (c =? 101)%N || (c =? 69)%N then
        let '(neg, rest') := lex_sign rest in
        match span_digits rest' with
        | ([], _) => None
        | (ds, r) => Some (if neg then - digits_value ds else digits_value ds, r)
        end
      else Some (0, s)
  | [] => Some (0, [])
  end.

(** The unsigned part of a number: its digits as an integer [M] and its
    decimal exponent [E], for the value [M * 10^E]. *)
Definition lex_decimal (s : jsstring) : option (Z * Z * jsstring) :=
  match lex_int s with
  | None => None
  | Some (ip, s2) =>
      match lex_fraction s2 with
      | None => None
      | Some (fp, s3) =>
          match lex_exponent s3 with
          | None => None
          | Some (ex, s4) =>
              Some (digits_value (ip ++ fp), ex - Z.of_nat (length fp), s4)
          end
      end
  end.

Definition lex_number (s : jsstring) : option (number * jsstring) :=
  let '(neg, s1) :=
    match s with
    | c :: rest => if (c =? Char.minus)%N then (true, rest) else (false, s)
    | [] => (false, [])
    end in
  match lex_decimal s1 with
  | Some (M, E, rest) => Some (StringToNumber neg M E, rest)
  | None => None
  end.

(** JSONString, after the opening quote. *)
Definition hex_value (c : N) : option N :=
  if is_digit c then Some (c - 48)%N
  else if (97 <=? c)%N && (c <=? 102)%N then Some (c - 87)%N
  else if (65 <=? c)%N && (c <=? 70)%N then Some (c - 55)%N
  else None.

Definition hex4 (h1 h2 h3 h4 : N) : option N :=
  match hex_value h1, hex_value h2, hex_value h3, hex_value h4 with
  | Some a, Some b, Some c, Some d => Some (((a * 16 + b) * 16 + c) * 16 + d)%N
  | _, _, _, _ => None
  end.

(** JSONEscapeCharacter: after a backslash, a quote, a slash, a backslash
    or one of the letters b, f, n, r, t. *)
Definition simple_escape (c : N) : option N :=
  if (c =? Char.quote)%N then Some Char.quote
  else if (c =? Char.slash)%N then Some Char.slash
  else if (c =? Char.backslash)%N then Some Char.backslash
  else if (c =? 98)%N then Some 8%N
  else if (c =? 102)%N then Some 12%N
  else if (c =? 110)%N then Some 10%N
  else if (c =? 114)%N then Some 13%N
  else if (c =? 116)%N then Some 9%N
  else None.

Fixpoint lex_string (s : jsstring) : option (jsstring * jsstring) :=
  match s with
  | [] => None
  | c :: rest =>
      if (c =? Char.quote)%N then Some ([], rest)
      else if (c =? Char.backslash)%N then
        match rest with
        | [] => None
        | e :: rest1 =>
            if (e =? 117)%N then
              match rest1 with
              | h1 :: h2 :: h3 :: h4 :: rest2 =>
                  match hex4 h1 h2 h3 h4, lex_string rest2 with
                  | Some u, Some (str, r) => Some (u :: str, r)
                  | _, _ => None
                  end
              | _ => None
              end
            else
              match simple_escape e, lex_string rest1 with
              | Some u, Some (str, r) => Some (u :: str, r)
              | _, _ => None
              end
        end
      else if (c <? 32)%N then None
      else
        match lex_string rest with
        | Some (str, r) => Some (c :: str, r)
        | None => None
        end
  end.

Fixpoint strip_prefix (p s : jsstring) : option jsstring :=
  match p, s with
  | [], _ => Some s
  | a :: p', b :: s' => if (a =? b)%N then strip_prefix p' s' else None
  | _ :: _, [] => None
  end.

Definition cons_token (t : token) (ts : option (list token)) : option (list token) :=
  option_map (cons t) ts.

Fixpoint tokenize (fuel : nat) (s : jsstring) {struct fuel} : option (list token) :=
  match s with
  | [] => Some []
  | c :: rest =>
      match fuel with
      | O => None
      | S fuel' =>
          if is_ws c then tokenize fuel' rest
          else if (c =? Char.lbrace)%N then cons_token TLBrace (tokenize fuel' rest)
          else if (c =? Char.rbrace)%N then cons_token TRBrace (tokenize fuel' rest)
          else if (c =? Char.lbracket)%N then cons_token TLBracket (tokenize fuel' rest)
          else if (c =? Char.rbracket)%N then cons_token TRBracket (tokenize fuel' rest)
          else if (c =? Char.comma)%N then cons_token TComma (tokenize fuel' rest)
          else if (c =? Char.colon)%N then cons_token TColon (tokenize fuel' rest)
          else if (c =? Char.quote)%N then
            match lex_string rest with
            | Some (str, rest') => cons_token (TString str) (tokenize fuel' rest')
            | None => None
            end
          else if (c =? Char.minus)%N || is_digit c then
            match lex_number s with
            | Some (x, rest') => cons_token (TNumber x) (tokenize fuel' rest')
            | None => None
            end
          else
            match strip_prefix (js "null") s, strip_prefix (js "true") s,
                  strip_prefix (js "false") s with
            | Some rest', _, _ => cons_token TNull (tokenize fuel' rest')
            | _, Some rest', _ => cons_token TTrue (tokenize fuel' rest')
            | _, _, Some rest' => cons_token TFalse (tokenize fuel' rest')
            | _, _, _ => None
            end
      end
  end.

(** ** Objects: property order and CreateDataProperty *)

(** The array index a property key denotes, if any: a canonical decimal
    string of an integer below 2^32 - 1. *)
Definition array_index (k : jsstring) : option Z :=
  match k with
  | [] => None
  | c :: rest =>
      if forallb is_digit k
         && (negb (c =? Char.zero)%N || match rest with [] => true | _ => false end)
      then
        let v := digits_value (map digit_value k) in
        if v <=? 4294967294 then Some v else None
      else None
  end.

(** OrdinaryOwnPropertyKeys: array indices in ascending order first, then
    the other keys in the order they were created.  [comes_before k k']
    holds when a new key [k] is enumerated before the existing key [k']. *)
Definition comes_before (k k' : jsstring) : bool :=
  match array_index k, array_index k' with
  | Some i, Some j => i <? j
  | Some _, None => true
  | None, _ => false
  end.

(** CreateDataProperty (object, k, v) on an ordinary object: an existing
    property keeps its place and gets the new value. *)
Fixpoint define_property (k : jsstring) (v : json) (props : list (jsstring * json))
  : list (jsstring * json) :=
  match props with
  | [] => [(k, v)]
  | (k', v') :: tl =>
      if jsstring_eqb k k' then (k, v) :: tl
      else if comes_before k k' then (k, v) :: props
      else (k', v') :: define_property k v tl
  end.

Definition object_of_members (members : list (jsstring * json)) : list (jsstring * json) :=
  fold_left (fun props kv => define_property (fst kv) (snd kv) props) members [].

(** ** Syntactic grammar *)

Fixpoint parse_value (fuel : nat) (ts : list token) {struct fuel}
  : option (json * list token) :=
  match fuel with
  | O => None
  | S fuel' =>
      match ts with
      | TNull :: r => Some (JNull, r)
      | TTrue :: r => Some (JBool true, r)
      | TFalse :: r => Some (JBool false, r)
      | TString s :: r => Some (JString s, r)
      | TNumber x :: r => Some (JNumber x, r)
      | TLBracket :: TRBracket :: r => Some (JArray [], r)
      | TLBracket :: r =>
          match parse_elements fuel' r with
          | Some (l, r') => Some (JArray l, r')
          | None => None
          end
      | TLBrace :: TRBrace :: r => Some (JObject [], r)
      | TLBrace :: r =>
          match parse_members fuel' r with
          | Some (ms, r') => Some (JObject (object_of_members ms), r')
          | None => None
          end
      | _ => None
      end
  end
(** JSONElementList followed by the closing bracket. *)
with parse_elements (fuel : nat) (ts : list token) {struct fuel}
  : option (list json * list token) :=
  match fuel with
  | O => None
  | S fuel' =>
      match parse_value fuel' ts with
      | Some (v, TComma :: r) =>
          match parse_elements fuel' r with
          | Some (l, r') => Some (v :: l, r')
          | None => None
          end
      | Some (v, TRBracket :: r) => Some ([v], r)
      | _ => None
      end
  end
(** JSONMemberList followed by the closing brace. *)
with parse_members (fuel : nat) (ts : list token) {struct fuel}
  : option (list (jsstring * json) * list token) :=
  match fuel with
  | O => None
  | S fuel' =>
      match ts with
      | TString k :: TColon :: r =>
          match parse_value fuel' r with
          | Some (v, TComma :: r') =>
              match parse_members fuel' r' with
              | Some (ms, r'') => Some ((k, v) :: ms, r'')
              | None => None
              end
          | Some (v, TRBrace :: r') => Some ([(k, v)], r')
          | _ => None
          end
      | _ => None
      end
  end.

(** [JSON.parse (text)]: [None] stands for the SyntaxError it throws. *)
Definition parse (text : jsstring) : option json :=
  match tokenize (length text) text with
  | None => None
  | Some ts =>
      match parse_value (2 * length ts + 1) ts with
      | Some (v, []) => Some v
      | _ => None
      end
  end.

(** ** JSON.stringify (value, null, 2) *)

Definition hex_digit (n : N) : N := if (n <? 10)%N then (48 + n)%N else (87 + n)%N.

(** UnicodeEscape: backslash, u and four lower-case hexadecimal digits. *)
Definition unicode_escape (c : N) : jsstring :=
  [Char.backslash; 117%N;
   hex_digit ((c / 4096) mod 16); hex_digit ((c / 256) mod 16);
   hex_digit ((c / 16) mod 16); hex_digit (c mod 16)]%N.

Definition is_high_surrogate (c : N) : bool := (55296 <=? c)%N && (c <=? 56319)%N.
Definition is_low_surrogate (c : N) : bool := (56320 <=? c)%N && (c <=? 57343)%N.

(** A code unit that is not part of a surrogate pair. *)
Definition quote_unit (c : N) : jsstring :=
  if (c =? 8)%N then [Char.backslash; 98%N]
  else if (c =? 9)%N then [Char.backslash; 116%N]
  else if (c =? 10)%N then [Char.backslash; 110%N]
  else if (c =? 12)%N then [Char.backslash; 102%N]
  else if (c =? 13)%N then [Char.backslash; 114%N]
  else if (c =? Char.quote)%N then [Char.backslash; Char.quote]
  else if (c =? Char.backslash)%N then [Char.backslash; Char.backslash]
  else if (c <? 32)%N || is_high_surrogate c || is_low_surrogate c then unicode_escape c
  else [c].

Fixpoint quote_units (s : jsstring) : jsstring :=
  match s with
  | [] => []
  | c :: rest =>
      if is_high_surrogate c then
        match rest with
        | c2 :: rest2 =>
            if is_low_surrogate c2 then c :: c2 :: quote_units rest2
            else quote_unit c ++ quote_units rest
        | [] => quote_unit c
        end
      else quote_unit c ++ quote_units rest
  end.

Definition QuoteJSONString (s : jsstring) : jsstring :=
  Char.quote :: quote_units s ++ [Char.quote].

Fixpoint join {A : Type} (sep : list A) (parts : list (list A)) : list A :=
  match parts with
  | [] => []
  | [p] => p
  | p :: tl => p ++ sep ++ join sep tl
  end.

(** The gap of [JSON.stringify (value, null, 2)]: two spaces. *)
Definition gap : jsstring := [Char.space; Char.space].

(** SerializeJSONProperty with SerializeJSONObject and SerializeJSONArray,
    for a non-empty gap; [indent] is the current indentation. *)
Fixpoint serialize (indent : jsstring) (v : json) {struct v} : jsstring :=
  match v with
  | JNull => js "null"
  | JBool true => js "true"
  | JBool false => js "false"
  | JString s => QuoteJSONString s
  | JNumber x => if is_finite x then NumberToString x else js "null"
  | JArray [] => js "[]"
  | JArray elements =>
      let stepback := indent in
      let indent := indent ++ gap in
      let separator := Char.comma :: Char.line_feed :: indent in
      Char.lbracket :: Char.line_feed :: indent
        ++ join separator (map (serialize indent) elements)
        ++ Char.line_feed :: stepback ++ [Char.rbracket]
  | JObject [] => js "{}"
  | JObject properties =>
      let stepback := indent in
      let indent := indent ++ gap in
      let separator := Char.comma :: Char.line_feed :: indent in
      Char.lbrace :: Char.line_feed :: indent
        ++ join separator
             (map (fun kv => let '(k, p) := kv in
                             QuoteJSONString k ++ Char.colon :: Char.space :: serialize indent p)
                  properties)
        ++ Char.line_feed :: stepback ++ [Char.rbrace]
  end.

(** The text [JSON.stringify (value, null, 2)] writes when it returns;
    whether it returns depends on the call stack of the host, see
    [JSON_stringify]. *)
Definition stringify (v : json) : jsstring := serialize [] v.

(** ** Properties of values *)

(** No Number in the value is an infinity. *)
Fixpoint all_finite (v : json) : bool :=
  match v with
  | JNumber x => is_finite x
  | JArray elements => forallb all_finite elements
  | JObject properties => forallb (fun kv => let '(_, p) := kv in all_finite p) properties
  | _ => true
  end.

(** How deeply arrays and objects are nested in the value: the depth of
    the recursion of the serializer on it. *)
Fixpoint depth (v : json) : nat :=
  match v with
  | JArray elements => S (list_max (map depth elements))
  | JObject properties =>
      S (list_max (map (fun kv => let '(_, p) := kv in depth p) properties))
  | _ => O
  end.

(** The value with every negative zero replaced by the positive zero. *)
Fixpoint unsigned_zeros (v : json) : json :=
  match v with
  | JNumber x => JNumber (unsigned_zero x)
  | JArray elements => JArray (map unsigned_zeros elements)
  | JObject properties =>
      JObject (map (fun kv => let '(k, p) := kv in (k, unsigned_zeros p)) properties)
  | _ => v
  end.


(** The keys of an object as [JSON.parse] builds it: no key twice, and no
    key that the enumeration order puts before an earlier one. *)
Definition key_order (a b : jsstring * json) : Prop :=
  fst a <> fst b /\ comes_before (fst b) (fst a) = false.

Definition ordered (properties : list (jsstring * json)) : Prop :=
  StronglySorted key_order properties.

(** What holds of every value [JSON.parse] returns. *)
Unset Elimination Schemes.
Inductive wf : json -> Prop :=
| wf_null : wf JNull
| wf_bool b : wf (JBool b)
| wf_number_ x : wf_number x -> wf (JNumber x)
| wf_string s : wf (JString s)
| wf_array l : Forall wf l -> wf (JArray l)
| wf_object ps : ordered ps -> Forall (fun kv => wf (snd kv)) ps -> wf (JObject ps).
Set Elimination Schemes.

End JSON.

(* ================================================================== *)
(** * Promise.all *)
(* ================================================================== *)

Module PromiseAll.

Section PerformPromiseAll.
Context {A : Type}.

(** The record PerformPromiseAll shares with its resolve element
    functions: [values] (a hole is [None]), [remainingElementsCount], and
    the state of the result promise ([None] while it is pending). *)
Record state : Type := {
  values : list (option A);
  remainingElementsCount : nat;
  result : option (completion (list A))
}.

Fixpoint set_nth (l : list (option A)) (index : nat) (x : A) : list (option A) :=
  match l, index with
  | [], _ => []
  | _ :: tl, O => Some x :: tl
  | hd :: tl, S i => hd :: set_nth tl i x
  end.

(** CreateArrayFromList (values), once no hole is left. *)
Fixpoint from_values (l : list (option A)) : option (list A) :=
  match l with
  | [] => Some []
  | None :: _ => None
  | Some x :: tl => option_map (cons x) (from_values tl)
  end.

(** Settling a promise that is already settled has no effect. *)
Definition settle (st : state) (c : option (completion (list A))) : state :=
  match result st with
  | Some _ => st
  | None =>
      {| values := values st;
         remainingElementsCount := remainingElementsCount st;
         result := c |}
  end.

(** After the loop over the [n] input promises: every slot is a hole, the
    count is [n] (1 + n - 1), and the result promise is resolved with the
    empty array at once when [n] is 0. *)
Definition start (n : nat) : state :=
  {| values := repeat None n;
     remainingElementsCount := n;
     result := match n with O => Some (Normal []) | S _ => None end |}.

(** The reaction to the input promise number [index] settling with
    [c]: the resolve element function with that [[Index]] on fulfilment,
    the reject function of the result promise on rejection. *)
Definition react (st : state) (index : nat) (c : completion A) : state :=
  match c with
  | Throw reason => settle st (Some (Throw reason))
  | Normal x =>
      match nth_error (values st) index with
      | Some None =>
          let st' :=
            {| values := set_nth (values st) index x;
               remainingElementsCount := pred (remainingElementsCount st);
               result := result st |} in
          match remainingElementsCount st' with
          | O => settle st' (option_map Normal (from_values (values st')))
          | S _ => st'
          end
      | _ => st
      end
  end.

(** [Promise.all (promises)] where the promise number [i] settles with
    [nth i outcomes] and the promises settle in the order [schedule]
    lists their indices.  The result is the state of the promise
    [Promise.all] returned, after these reactions ran. *)
Definition all (outcomes : list (completion A)) (schedule : list nat)
  : option (completion (list A)) :=
  result
    (fold_left
       (fun st index =>
          match nth_error outcomes index with
          | Some c => react st index c
          | None => st
          end)
       schedule (start (length outcomes))).

End PerformPromiseAll.
Arguments state A : clear implicits.

End PromiseAll.

(* ================================================================== *)
(** * The input boundary and the external capability *)
(* ================================================================== *)

(** A [File]: its name, its declared media type, and what reading it
    gives: the promise [file.text()] settles with [text], the promise
    [file.arrayBuffer()] with [arrayBuffer]. *)
Module File.
Record t : Type := {
  name : jsstring;
  type : jsstring;
  text : completion jsstring;
  arrayBuffer : completion (list Byte.byte)
}.
End File.
Abbreviation File := File.t.

(** What the classes take from their host: the global [Buffer.from], the
    extractor that [getTextExtractor ()] of office-text-extractor returns
    (called with [{input: buffer, type: 'buffer'}]), the SyntaxError
    that [JSON.parse] throws for a text, and the call stack of the
    engine: [JSON.stringify] recurses on arrays and objects; with the
    room that is left on the stack when it is called it serializes a
    value nested at most [stack_depth] deep, and it throws [RangeError]
    for a deeper one. *)
Record Host : Type := {
  Buffer_from : list Byte.byte -> completion (list Byte.byte);
  officeExtractor_extractText : list Byte.byte -> completion jsstring;
  SyntaxError : jsstring -> thrown;
  stack_depth : nat;
  RangeError : thrown
}.

(** [JSON.parse (text)] as a completion. *)
Definition JSON_parse (host : Host) (text : jsstring) : M JSON.json :=
  match JSON.parse text with
  | Some v => ret v
  | None => throw (SyntaxError host text)
  end.

(** [JSON.stringify (value, null, 2)] as a completion: the text, or the
    RangeError of a call stack that the nesting of the value exhausts. *)
Definition JSON_stringify (host : Host) (value : JSON.json) : M jsstring :=
  if (JSON.depth value <=? stack_depth host)%nat then ret (JSON.stringify value)
  else throw (RangeError host).

(* ================================================================== *)
(** * textExtractor.ts *)
(* ================================================================== *)

Record TextExtractionResult : Type := {
  text : jsstring;
  error : option jsstring
}.

Module TextExtractor.
Local Open Scope js_scope.

Definition supportedTypes : list jsstring :=
  [ js "application/vnd.openxmlformats-officedocument.wordprocessingml.document";
    js "application/vnd.openxmlformats-officedocument.presentationml.presentation";
    js "application/vnd.openxmlformats-officedocument.spreadsheetml.sheet";
    js "application/pdf" ].

(** [supportedTypes.includes (mimeType)] *)
Definition isOfficeDocument (mimeType : jsstring) : bool :=
  existsb (jsstring_eqb mimeType) supportedTypes.

Section Methods.
Variable host : Host.

Definition extractPlainText (file : File) : M TextExtractionResult :=
  try_catch
    (text <- perform Call_file_text (File.text file) ;;
     if jsstring_eqb (File.type file) (js "application/json") then
       try_catch
         (jsonObj <- JSON_parse host text ;;
          formatted <- JSON_stringify host jsonObj ;;
          ret {| text := formatted; error := None |})
         (fun _ => ret {| text := text; error := None |})
     else ret {| text := text; error := None |})
    (fun error =>
       ret {| text := [];
              error := Some (message_or (js "Failed to read text file") error) |}).

Definition extractOfficeDocument (file : File) : M TextExtractionResult :=
  try_catch
    (arrayBuffer <- perform Call_file_arrayBuffer (File.arrayBuffer file) ;;
     buffer <- perform Call_Buffer_from (Buffer_from host arrayBuffer) ;;
     text <- perform Call_officeExtractor_extractText
               (officeExtractor_extractText host buffer) ;;
     ret {| text := text; error := None |})
    (fun error =>
       ret {| text := [];
              error := Some (message_or
                               (js "Failed to extract text from office document") error) |}).

(** The body of [extractText], over the two private methods it calls on
    [this]. *)
Definition extractText_with
    (extractPlainText extractOfficeDocument : File -> M TextExtractionResult)
    (file : File) : M TextExtractionResult :=
  try_catch
    (if jsstring_eqb (File.type file) (js "text/plain")
        || jsstring_eqb (File.type file) (js "application/json")
     then
       _ <- perform Call_extractPlainText (Normal tt) ;;
       extractPlainText file
     else if isOfficeDocument (File.type file) then
       _ <- perform Call_extractOfficeDocument (Normal tt) ;;
       extractOfficeDocument file
     else
       ret {| text := [];
              error := Some (js "Unsupported file type: " ++ File.type file) |})
    (fun error =>
       ret {| text := [];
              error := Some (message_or (js "Unknown error occurred") error) |}).

Definition extractText (file : File) : M TextExtractionResult :=
  extractText_with extractPlainText extractOfficeDocument file.

End Methods.
End TextExtractor.

(* ================================================================== *)
(** * fileHandler.ts *)
(* ================================================================== *)

(** ToBoolean on [result.error]: [undefined] and the empty string are
    falsy. *)
Definition truthy (error : option jsstring) : bool :=
  match error with
  | Some (_ :: _) => true
  | _ => false
  end.

(** [new Error (message)] *)
Definition new_Error (message : option jsstring) : thrown :=
  ErrorObject (match message with Some s => s | None => [] end).

Module FileHandler.
Local Open Scope js_scope.

Section Methods.
Variable host : Host.

Definition processFile (file : File) : M jsstring :=
  result <- TextExtractor.extractText host file ;;
  if truthy (error result) then throw (new_Error (error result))
  else ret (text result).

(** [Promise.all (files.map (file => this.processFile (file)))]; the
    per-file promises settle in the order [schedule] gives. *)
Definition processFiles (schedule : list nat) (files : list File)
  : option (completion (list jsstring)) :=
  PromiseAll.all (map (fun file => outcome (processFile file)) files) schedule.

End Methods.
End FileHandler.

(* ================================================================== *)
(** * Notions used in the properties *)
(* ================================================================== *)

(** A result that reports a failure: empty text, and the reason. *)
Definition failure (reason : jsstring) : TextExtractionResult :=
  {| text := []; error := Some reason |}.

(** A result that carries extracted text. *)
Definition success (t : jsstring) : TextExtractionResult :=
  {| text := t; error := None |}.

(** The invariant of the data model: [error] present implies [text]
    empty. *)
Definition well_formed (r : TextExtractionResult) : Prop :=
  error r <> None -> text r = [].

(** The test of the first branch of [extractText]. *)
Definition is_plain (mimeType : jsstring) : bool :=
  jsstring_eqb mimeType (js "text/plain") || jsstring_eqb mimeType (js "application/json").

(** The extraction categories, and the classification rule in the words
    of the specification: first match wins, on the declared media type. *)
Inductive Category : Type := PlainText | OfficeDocument | Unsupported.

Definition classify (mediaType : jsstring) : Category :=
  if jsstring_eqb mediaType (js "text/plain") then PlainText
  else if jsstring_eqb mediaType (js "application/json") then PlainText
  else if existsb (jsstring_eqb mediaType) TextExtractor.supportedTypes then OfficeDocument
  else Unsupported.

(** The branch a run of [extractText] took, read off the calls it made:
    the first call is the private method it dispatched to. *)
Definition branch_taken (calls : list event) : Category :=
  match calls with
  | Call_extractPlainText :: _ => PlainText
  | Call_extractOfficeDocument :: _ => OfficeDocument
  | _ => Unsupported
  end.

(** A per-file extraction succeeds with the text [t]. *)
Definition extracts (host : Host) (file : File) (t : jsstring) : Prop :=
  exists r, outcome (TextExtractor.extractText host file) = Normal r
            /\ truthy (error r) = false /\ text r = t.

(** The promise number [i] of [processFiles] is rejected. *)
Definition rejects (host : Host) (files : list File) (i : nat) : bool :=
  match nth_error files i with
  | Some file =>
      match outcome (FileHandler.processFile host file) with
      | Throw _ => true
      | Normal _ => false
      end
  | None => false
  end.

(** Sample inputs. *)
Definition sample_host : Host :=
  {| Buffer_from := Normal;
     officeExtractor_extractText := fun _ => Normal (js "extracted");
     SyntaxError := fun _ => ErrorObject (js "Unexpected token");
     stack_depth := 1000;
     RangeError := ErrorObject (js "Maximum call stack size exceeded") |}.

(** The sample host with a call stack for values nested [depth] deep. *)
Definition host_with_stack (depth : nat) : Host :=
  {| Buffer_from := Buffer_from sample_host;
     officeExtractor_extractText := officeExtractor_extractText sample_host;
     SyntaxError := SyntaxError sample_host;
     stack_depth := depth;
     RangeError := RangeError sample_host |}.

Definition sample_file (type text : string) : File :=
  {| File.name := js "sample";
     File.type := js type;
     File.text := Normal (js text);
     File.arrayBuffer := Normal [] |}.

(** The text of a JSON string without escapes. *)
Definition quoted (s : string) : jsstring := Char.quote :: js s ++ [Char.quote].

(** A JSON text with an object, an array, a negative zero, a fraction in
    exponent notation, literals and a string. *)
Definition sample_json : jsstring :=
  js "{" ++ quoted "k" ++ js ": [1, -0, 2.5e-3, true, null, " ++ quoted "a"
     ++ js "], " ++ quoted "7" ++ js ": {}}".

Definition sample_json_file : File :=
  {| File.name := js "sample.json";
     File.type := js "application/json";
     File.text := Normal sample_json;
     File.arrayBuffer := Normal [] |}.










(* ================================================================== *)
(** * Further inputs and notions *)
(* ================================================================== *)

(** A file whose content cannot be read. *)
Definition unreadable_file (type : string) (e : thrown) : File :=
  {| File.name := js "unreadable";
     File.type := js type;
     File.text := Throw e;
     File.arrayBuffer := Throw e |}.

(** A host without [Buffer]: [Buffer.from] throws a ReferenceError. *)
Definition host_without_Buffer : Host :=
  {| Buffer_from := fun _ => Throw (ErrorObject (js "Buffer is not defined"));
     officeExtractor_extractText := fun _ => Normal (js "extracted");
     SyntaxError := fun _ => ErrorObject (js "Unexpected token");
     stack_depth := 1000;
     RangeError := ErrorObject (js "Maximum call stack size exceeded") |}.

(** The calls that read the content of the file, and the call of the
    office extractor. *)
Definition is_read (ev : event) : bool :=
  match ev with
  | Call_file_text | Call_file_arrayBuffer => true
  | _ => false
  end.

Definition is_extraction (ev : event) : bool :=
  match ev with
  | Call_officeExtractor_extractText => true
  | _ => false
  end.

(** The six media types [extractText] accepts. *)
Definition accepted_types : list jsstring :=
  js "text/plain" :: js "application/json" :: TextExtractor.supportedTypes.

(** The value with every infinity replaced by [null], which is how
    [JSON.stringify] writes it. *)
Fixpoint nulled (v : JSON.json) : JSON.json :=
  match v with
  | JSON.JNumber x => if JSNumber.is_finite x then v else JSON.JNull
  | JSON.JArray elements => JSON.JArray (map nulled elements)
  | JSON.JObject properties =>
      JSON.JObject (map (fun kv => let '(k, p) := kv in (k, nulled p)) properties)
  | _ => v
  end.

(* ================================================================== *)
(** * MessageInterpreter (the class at the end of ChatInput.tsx) *)
(* ================================================================== *)

(** ** JSON.stringify (value) *)

Section StringifyCompact.
Import JSNumber JSON.

(** SerializeJSONProperty with SerializeJSONObject and SerializeJSONArray
    for the empty gap: no line feed, no indentation, and no space after
    the colon. *)
Fixpoint serialize_compact (v : json) : jsstring :=
  match v with
  | JNull => js "null"
  | JBool true => js "true"
  | JBool false => js "false"
  | JString s => QuoteJSONString s
  | JNumber x => if is_finite x then NumberToString x else js "null"
  | JArray [] => js "[]"
  | JArray elements =>
      Char.lbracket
        :: join [Char.comma] (map serialize_compact elements) ++ [Char.rbracket]
  | JObject [] => js "{}"
  | JObject properties =>
      Char.lbrace
        :: join [Char.comma]
             (map (fun kv => let '(k, p) := kv in
                             QuoteJSONString k ++ Char.colon :: serialize_compact p)
                  properties)
        ++ [Char.rbrace]
  end.

(** The text [JSON.stringify (value)] writes when it returns, see
    [JSON_stringify_compact]. *)
Definition stringify_compact (v : json) : jsstring := serialize_compact v.

End StringifyCompact.

(** [JSON.stringify (value)] as a completion: the text, or the RangeError
    of a call stack that the nesting of the value exhausts. *)
Definition JSON_stringify_compact (host : Host) (value : JSON.json)
  : completion jsstring :=
  if (JSON.depth value <=? stack_depth host)%nat then Normal (stringify_compact value)
  else Throw (RangeError host).

(** The class, over its host and the constant [DONE_UPDATE] that it
    imports.  A message is a value of JSON data; [send] has no handler,
    so what [JSON.stringify] throws reaches its caller; [receive] returns
    what it wrote with [console.log] and its completion. *)
Module MessageInterpreter.
Section Methods.
Variable host : Host.
Variable DONE_UPDATE : JSON.json.

Definition send (message : JSON.json) : completion jsstring :=
  JSON_stringify_compact host message.

Definition receive (serializedMessage : jsstring) : list jsstring * completion JSON.json :=
  match JSON.parse serializedMessage with
  | Some message => ([], Normal message)
  | None =>
      ([js "Received non-JSON message: " ++ serializedMessage],
       Normal (JSON.JObject [(js "type", DONE_UPDATE)]))
  end.

End Methods.
End MessageInterpreter.

(** Two messages that differ in the sign of a zero only. *)
Definition zero_message (neg : bool) : JSON.json :=
  JSON.JObject [(js "delta", JSON.JNumber (JSNumber.Zero neg))].

(** A message with a line feed in a string. *)
Definition multiline_message : JSON.json :=
  JSON.JObject [(js "text", JSON.JString [97%N; Char.line_feed; 98%N])].

(** No control character: a code unit from U+0020 on. *)
Definition printable (c : N) : Prop := (32 <= c)%N.

(* ================================================================== *)
(** * ChatInput.tsx *)
(* ================================================================== *)

Module ChatInput.

(** ** String.prototype.trim *)

(** The code units [trim] removes: WhiteSpace (tab, vertical tab, form
    feed, the byte order mark and the space separators of Unicode) and
    LineTerminator. *)
Definition is_white_space (c : N) : bool :=
  ((9 <=? c) && (c <=? 13) || (c =? 32) || (c =? 160) || (c =? 5760)
   || (8192 <=? c) && (c <=? 8202) || (c =? 8232) || (c =? 8233)
   || (c =? 8239) || (c =? 8287) || (c =? 12288) || (c =? 65279))%N.

Fixpoint trim_start (s : jsstring) : jsstring :=
  match s with
  | [] => []
  | c :: rest => if is_white_space c then trim_start rest else s
  end.

Definition trim_end (s : jsstring) : jsstring := rev (trim_start (rev s)).

Definition trim (s : jsstring) : jsstring := trim_end (trim_start s).

(** ** The component *)

Record Props : Type := {
  disabled : bool;
  showStopButton : bool
}.

(** The three [useState] cells. *)
Record State : Type := {
  text : jsstring;
  files : list File;
  dragActive : bool
}.

Definition initial : State := {| text := []; files := []; dragActive := false |}.

(** What a handler does besides setting the state: the calls on the
    event, the callbacks of the props, and the writes to the DOM. *)
Inductive effect : Type :=
| PreventDefault
| StopPropagation
| OnSendMessage (text : jsstring) (files : list File)
| OnStopTask
| Style_height_auto
| Style_height_px (height : Z)
| FileInput_click.

Record KeyboardEvent : Type := {
  key : jsstring;
  shiftKey : bool;
  isComposing : bool
}.

(** [l.filter ((x, i) => p (x, i))] *)
Fixpoint filter_from {A : Type} (p : A -> nat -> bool) (i : nat) (l : list A) : list A :=
  match l with
  | [] => []
  | x :: tl => if p x i then x :: filter_from p (S i) tl else filter_from p (S i) tl
  end.

Definition Array_filter {A : Type} (p : A -> nat -> bool) (l : list A) : list A :=
  filter_from p O l.

(** [isSendButtonDisabled], and the [disabled] attribute of the Send
    button. *)
Definition isSendButtonDisabled (props : Props) (st : State) : bool :=
  disabled props || jsstring_eqb (trim (text st)) [].

Definition send_button_disabled (props : Props) (st : State) : bool :=
  isSendButtonDisabled props st && (length (files st) =? 0)%nat.

(** [textarea] is the [scrollHeight] of the element of [textareaRef], read
    after the height was set to [auto]; [None] when the ref is empty. *)
Definition handleTextChange (newText : jsstring) (textarea : option Z) (st : State)
  : list effect * State :=
  (match textarea with
   | Some scrollHeight => [Style_height_auto; Style_height_px (Z.min scrollHeight 100)]
   | None => []
   end,
   {| text := newText; files := files st; dragActive := dragActive st |}).

(** The setter handed to [setContent]. *)
Definition setText (newText : jsstring) (st : State) : State :=
  {| text := newText; files := files st; dragActive := dragActive st |}.

Definition handleFiles (fileList : option (list File)) (st : State) : State :=
  match fileList with
  | None => st
  | Some arr =>
      {| text := text st; files := files st ++ arr; dragActive := dragActive st |}
  end.

Definition removeFile (idx : nat) (st : State) : State :=
  {| text := text st;
     files := Array_filter (fun _ i => negb (i =? idx)%nat) (files st);
     dragActive := dragActive st |}.

Definition setDragActive (b : bool) (st : State) : State :=
  {| text := text st; files := files st; dragActive := b |}.

Definition handleDragOver (st : State) : list effect * State :=
  ([PreventDefault], setDragActive true st).

Definition handleDragLeave (st : State) : list effect * State :=
  ([PreventDefault], setDragActive false st).

Definition handleDrop (fileList : option (list File)) (st : State) : list effect * State :=
  ([PreventDefault], handleFiles fileList (setDragActive false st)).

(** [fileInput] tells whether [fileInputRef] holds an element. *)
Definition openFilePicker (fileInput : bool) (st : State) : list effect * State :=
  (if fileInput then [FileInput_click] else [], st).

(** [handleSubmit] as a render created it: [useCallback] keeps the
    function of the render in which [text] or [files] last changed, so
    it tests and sends the [text] and [files] of [closure], the state
    of that render, whatever the cells [st] hold by now; the two
    setters write the cells. *)
Definition handleSubmit_of (closure st : State) : list effect * State :=
  if negb (jsstring_eqb (trim (text closure)) []) || (0 <? length (files closure))%nat
  then
    ([PreventDefault; OnSendMessage (text closure) (files closure)],
     {| text := []; files := []; dragActive := dragActive st |})
  else ([PreventDefault], st).

(** [handleSubmit] called while the cells are as they were rendered. *)
Definition handleSubmit (st : State) : list effect * State := handleSubmit_of st st.

(** [handleKeyDown] calls the [handleSubmit] of its render. *)
Definition handleKeyDown_of (closure : State) (e : KeyboardEvent) (st : State)
  : list effect * State :=
  if jsstring_eqb (key e) (js "Enter") && negb (shiftKey e) && negb (isComposing e) then
    let '(effects, st') := handleSubmit_of closure st in (PreventDefault :: effects, st')
  else ([], st).

Definition handleKeyDown (e : KeyboardEvent) (st : State) : list effect * State :=
  handleKeyDown_of st e st.

(** The component between two events: the cells, and the state of the
    last render, which the handlers in the page closed over.  The cells
    run ahead of the render while an update waits for it. *)
Record Component : Type := {
  cells : State;
  rendered : State
}.

(** What the user and the page can do to the form, and the render by
    which React brings the page up to the cells. *)
Inductive ui_event : Type :=
| Change (newText : jsstring) (textarea : option Z)
| SetContent (newText : jsstring)
| FilesChosen (fileList : option (list File))
| RemoveClicked (idx : nat)
| DragOver
| DragLeave
| Drop (fileList : option (list File))
| AreaClicked (fileInput : bool)
| Submit
| KeyDown (e : KeyboardEvent)
| StopClicked
| Render.

(** A handler that only writes the cells, by a value or by a function of
    the cell. *)
Definition on_cells (handler : State -> list effect * State) (c : Component)
  : list effect * Component :=
  let '(effects, st') := handler (cells c) in
  (effects, {| cells := st'; rendered := rendered c |}).

Definition step (ev : ui_event) (c : Component) : list effect * Component :=
  match ev with
  | Change newText textarea => on_cells (handleTextChange newText textarea) c
  | SetContent newText => on_cells (fun st => ([], setText newText st)) c
  | FilesChosen fileList => on_cells (fun st => ([], handleFiles fileList st)) c
  | RemoveClicked idx => on_cells (fun st => ([StopPropagation], removeFile idx st)) c
  | DragOver => on_cells handleDragOver c
  | DragLeave => on_cells handleDragLeave c
  | Drop fileList => on_cells (handleDrop fileList) c
  | AreaClicked fileInput => on_cells (openFilePicker fileInput) c
  | Submit => on_cells (handleSubmit_of (rendered c)) c
  | KeyDown e => on_cells (handleKeyDown_of (rendered c) e) c
  | StopClicked => on_cells (fun st => ([OnStopTask], st)) c
  | Render => ([], {| cells := cells c; rendered := cells c |})
  end.

Fixpoint dispatch (events : list ui_event) (c : Component) : list effect * Component :=
  match events with
  | [] => ([], c)
  | ev :: rest =>
      let '(effects, c') := step ev c in
      let '(effects', c'') := dispatch rest c' in
      (effects ++ effects', c'')
  end.

(** The events dispatched to the component that has just rendered [st].
    A render happens where the list says so: two events with no [Render]
    between them meet the handlers of the same render. *)
Definition run_events (events : list ui_event) (st : State)
  : list effect * Component :=
  dispatch events {| cells := st; rendered := st |}.

(** The effect that runs when the component mounts: the first resize. *)
Definition mount (textarea : option Z) : list effect :=
  match textarea with
  | Some scrollHeight => [Style_height_auto; Style_height_px (Z.min scrollHeight 100)]
  | None => []
  end.

End ChatInput.

(** A call of [onSendMessage] with something to send: a text that is not
    blank, or a file. *)
Definition sendable (eff : ChatInput.effect) : Prop :=
  match eff with
  | ChatInput.OnSendMessage text files =>
      forallb ChatInput.is_white_space text = false \/ files <> []
  | _ => True
  end.

(** A height written to the text area that is at most 100 pixels. *)
Definition bounded_height (eff : ChatInput.effect) : Prop :=
  match eff with
  | ChatInput.Style_height_px height => (height <= 100)%Z
  | _ => True
  end.

(** The events that submit the form: a submit event, and the Enter key
    without Shift outside a composition. *)
Definition submits (ev : ChatInput.ui_event) : bool :=
  match ev with
  | ChatInput.Submit => true
  | ChatInput.KeyDown e =>
      jsstring_eqb (ChatInput.key e) (js "Enter")
      && negb (ChatInput.shiftKey e) && negb (ChatInput.isComposing e)
  | _ => false
  end.

Definition is_send (eff : ChatInput.effect) : bool :=
  match eff with
  | ChatInput.OnSendMessage _ _ => true
  | _ => false
  end.

(* ================================================================== *)
(** * Facts about the run time *)
(* ================================================================== *)

Lemma jsstring_eqb_spec (a b : jsstring) : reflect (a = b) (jsstring_eqb a b).
Proof.
  revert b; induction a as [|x a IH]; intros [|y b]; simpl;
    try (constructor; congruence).
  destruct (N.eqb_spec x y) as [->|Hxy]; simpl.
  - destruct (IH b) as [->|Hab]; constructor; congruence.
  - constructor; congruence.
Qed.

Lemma jsstring_eqb_refl (a : jsstring) : jsstring_eqb a a = true.
Proof. destruct (jsstring_eqb_spec a a); congruence. Qed.

(** ** Strings: QuoteJSONString and the lexer *)

Section StringFacts.
Import JSON.

Lemma hex_value_hex_digit (d : N) : (d < 16)%N -> hex_value (hex_digit d) = Some d.
Proof.
  intros Hd.
  assert (In d [0; 1; 2; 3; 4; 5; 6; 7; 8; 9; 10; 11; 12; 13; 14; 15]%N) as Hin.
  { simpl. lia. }
  simpl in Hin.
  repeat (destruct Hin as [<-|Hin]; [reflexivity|]). contradiction.
Qed.

Lemma hex4_unicode_escape (c : N) :
  (c < 65536)%N ->
  exists h1 h2 h3 h4,
    unicode_escape c = [Char.backslash; 117%N; h1; h2; h3; h4]
    /\ hex4 h1 h2 h3 h4 = Some c.
Proof.
  intros Hc. unfold unicode_escape. do 4 eexists. split; [reflexivity|].
  unfold hex4.
  rewrite !hex_value_hex_digit by (apply N.mod_lt; discriminate).
  f_equal.
  pose proof (N.div_mod c 16 ltac:(discriminate)).
  pose proof (N.div_mod (c / 16) 16 ltac:(discriminate)).
  pose proof (N.div_mod (c / 16 / 16) 16 ltac:(discriminate)).
  rewrite !N.Div0.div_div in *. simpl (16 * 16)%N in *. simpl (256 * 16)%N in *.
  assert (c / 4096 < 16)%N by (apply N.Div0.div_lt_upper_bound; simpl; lia).
  rewrite (N.mod_small (c / 4096) 16) by assumption.
  lia.
Qed.

Definition lex_cons (c : N) (r : option (jsstring * jsstring)) :=
  match r with
  | Some (str, rest) => Some (c :: str, rest)
  | None => None
  end.

Lemma lex_string_literal (c : N) (tail : jsstring) :
  c <> Char.quote -> c <> Char.backslash -> (32 <= c)%N ->
  lex_string (c :: tail) = lex_cons c (lex_string tail).
Proof.
  intros Hq Hb Hc. simpl.
  destruct (N.eqb_spec c Char.quote); [contradiction|].
  destruct (N.eqb_spec c Char.backslash); [contradiction|].
  destruct (N.ltb_spec c 32); [lia|]. reflexivity.
Qed.

Lemma lex_string_quote_unit (c : N) (tail : jsstring) :
  lex_string (quote_unit c ++ tail) = lex_cons c (lex_string tail).
Proof.
  unfold quote_unit.
  destruct (N.eqb_spec c 8) as [->|H8]; [reflexivity|].
  destruct (N.eqb_spec c 9) as [->|H9]; [reflexivity|].
  destruct (N.eqb_spec c 10) as [->|H10]; [reflexivity|].
  destruct (N.eqb_spec c 12) as [->|H12]; [reflexivity|].
  destruct (N.eqb_spec c 13) as [->|H13]; [reflexivity|].
  destruct (N.eqb_spec c Char.quote) as [->|Hq]; [reflexivity|].
  destruct (N.eqb_spec c Char.backslash) as [->|Hb]; [reflexivity|].
  destruct ((c <? 32)%N || is_high_surrogate c || is_low_surrogate c) eqn:Hesc.
  - assert (c < 65536)%N as Hc.
    { unfold is_high_surrogate, is_low_surrogate in Hesc.
      destruct (N.ltb_spec c 32); [lia|]. simpl in Hesc.
      apply orb_true_iff in Hesc.
      destruct Hesc as [Hesc|Hesc]; apply andb_true_iff in Hesc;
        destruct Hesc as [_ Hesc]; apply N.leb_le in Hesc; lia. }
    destruct (hex4_unicode_escape c Hc) as [h1 [h2 [h3 [h4 [-> Hhex]]]]].
    simpl. rewrite Hhex. reflexivity.
  - apply orb_false_iff in Hesc. destruct Hesc as [Hesc _].
    apply orb_false_iff in Hesc. destruct Hesc as [Hesc _].
    apply N.ltb_ge in Hesc. apply lex_string_literal; assumption.
Qed.

Lemma lex_string_quote_units (s tail : jsstring) :
  lex_string (quote_units s ++ Char.quote :: tail) = Some (s, tail).
Proof.
  remember (length s) as n eqn:Hn.
  revert s Hn. induction n as [n IH] using lt_wf_ind. intros s Hn.
  destruct s as [|c rest]; [reflexivity|]. simpl quote_units.
  assert (lex_string (quote_units rest ++ Char.quote :: tail) = Some (rest, tail)) as Hrest.
  { apply (IH (length rest)); [subst n; simpl; lia|reflexivity]. }
  destruct (is_high_surrogate c) eqn:Hhigh.
  - destruct rest as [|c2 rest2].
    + rewrite lex_string_quote_unit. reflexivity.
    + destruct (is_low_surrogate c2) eqn:Hlow.
      * unfold is_high_surrogate in Hhigh. unfold is_low_surrogate in Hlow.
        apply andb_true_iff in Hhigh. apply andb_true_iff in Hlow.
        destruct Hhigh as [Hh _]. destruct Hlow as [Hl _].
        apply N.leb_le in Hh. apply N.leb_le in Hl.
        simpl app.
        rewrite lex_string_literal by (unfold Char.quote, Char.backslash; lia).
        rewrite lex_string_literal by (unfold Char.quote, Char.backslash; lia).
        rewrite (IH (length rest2)); [reflexivity|subst n; simpl; lia|reflexivity].
      * rewrite <- app_assoc, lex_string_quote_unit, Hrest. reflexivity.
  - rewrite <- app_assoc, lex_string_quote_unit, Hrest. reflexivity.
Qed.

(** The lexer reads back what [QuoteJSONString] wrote. *)
Lemma lex_string_QuoteJSONString (s tail : jsstring) :
  exists body,
    QuoteJSONString s ++ tail = Char.quote :: body
    /\ lex_string body = Some (s, tail).
Proof.
  exists (quote_units s ++ Char.quote :: tail). split.
  - unfold QuoteJSONString. simpl. rewrite <- app_assoc. reflexivity.
  - apply lex_string_quote_units.
Qed.

End StringFacts.

(** ** Rounding to binary64 *)

Section RoundingFacts.
Import JSNumber.

Lemma round_half_even_bounds (a b : Z) :
  0 < b -> a / b <= round_half_even a b <= a / b + 1.
Proof.
  intros Hb. unfold round_half_even.
  destruct (2 * (a mod b) ?= b); [destruct (Z.even (a / b))| |]; lia.
Qed.

Lemma round_half_even_exact (k b : Z) : 0 < b -> round_half_even (k * b) b = k.
Proof.
  intros Hb. unfold round_half_even.
  rewrite Z.mod_mul by lia. rewrite Z.div_mul by lia.
  destruct (Z.compare_spec (2 * 0) b); [lia|reflexivity|lia].
Qed.

Lemma log2_mul_pow2 (m E : Z) : 0 < m -> 0 <= E -> Z.log2 (m * 2 ^ E) = Z.log2 m + E.
Proof. intros Hm HE. rewrite Z.log2_mul_pow2 by assumption. lia. Qed.

Lemma canonical_log2 (m : positive) (e : Z) :
  canonical m e -> Z.max (Z.log2 (Zpos m) + (e + 1074) - 52) 0 = e + 1074.
Proof.
  intros [Hm [He Hn]].
  assert (Z.log2 (Zpos m) < 53) as Hlt by (apply Z.log2_lt_pow2; lia).
  destruct Hn as [Hn| ->].
  - assert (52 <= Z.log2 (Zpos m)) by (apply Z.log2_le_pow2; lia). lia.
  - lia.
Qed.

(** A value that is a canonical binary64 number rounds to itself. *)
Lemma round_pos_exact (neg : bool) (n d m : positive) (e : Z) :
  canonical m e ->
  Zpos n * 2 ^ 1074 = Zpos m * 2 ^ (e + 1074) * Zpos d ->
  round_pos neg n d = Finite neg m e.
Proof.
  intros Hc Heq. pose proof Hc as [Hm [He Hn]]. unfold round_pos. rewrite Heq.
  rewrite Z.div_mul by lia.
  rewrite log2_mul_pow2 by lia.
  rewrite (canonical_log2 m e Hc).
  replace (Zpos m * 2 ^ (e + 1074) * Zpos d) with (Zpos m * (Zpos d * 2 ^ (e + 1074))) by ring.
  assert (0 < 2 ^ (e + 1074)) as Hpow by (apply Z.pow_pos_nonneg; lia).
  rewrite round_half_even_exact by lia.
  destruct (Z.eqb_spec (Zpos m) (2 ^ 53)) as [Hbig|_]; [lia|].
  replace (e + 1074 - 1074) with e by lia.
  destruct (Z.ltb_spec 971 e); [lia|reflexivity].
Qed.

(** Rounding yields canonical numbers. *)
Lemma round_pos_canonical (neg s : bool) (n d m : positive) (e : Z) :
  round_pos neg n d = Finite s m e -> s = neg /\ canonical m e.
Proof.
  unfold round_pos.
  set (n' := Zpos n * 2 ^ 1074).
  set (X := n' / Zpos d).
  set (e' := Z.max (Z.log2 X - 52) 0).
  set (mr := round_half_even n' (Zpos d * 2 ^ e')).
  assert (0 < 2 ^ 1074) as Hscale by (apply Z.pow_pos_nonneg; lia).
  assert (0 <= X) as HX by (apply Z.div_pos; lia).
  assert (0 <= e') as He' by lia.
  assert (0 < 2 ^ e') as Hpow by (apply Z.pow_pos_nonneg; lia).
  assert (n' / (Zpos d * 2 ^ e') = X / 2 ^ e') as HY.
  { unfold X. rewrite Z.div_div by lia. reflexivity. }
  assert (X < 2 ^ (Z.log2 X + 1)) as Hup.
  { destruct (Z.eq_dec X 0) as [->|Hnz]; [reflexivity|].
    replace (Z.log2 X + 1) with (Z.succ (Z.log2 X)) by lia.
    apply Z.log2_spec. lia. }
  assert (X / 2 ^ e' < 2 ^ 53 /\ (0 < e' -> 2 ^ 52 <= X / 2 ^ e')) as [Hlt Hge].
  { destruct (Z.le_gt_cases (Z.log2 X - 52) 0) as [Hsmall|Hbig].
    - replace e' with 0 by lia. rewrite Z.pow_0_r, Z.div_1_r. split; [|lia].
      apply Z.lt_le_trans with (1 := Hup). apply Z.pow_le_mono_r; lia.
    - replace e' with (Z.log2 X - 52) in * by lia. split.
      + apply Z.div_lt_upper_bound; [assumption|].
        rewrite <- Z.pow_add_r by lia.
        replace (Z.log2 X - 52 + 53) with (Z.log2 X + 1) by lia. assumption.
      + intros _. apply Z.div_le_lower_bound; [assumption|].
        rewrite <- Z.pow_add_r by lia.
        replace (Z.log2 X - 52 + 52) with (Z.log2 X) by lia.
        apply Z.log2_spec. destruct (Z.eq_dec X 0) as [HX0|]; [|lia].
        rewrite HX0 in Hbig. simpl in Hbig. lia. }
  pose proof (round_half_even_bounds n' (Zpos d * 2 ^ e') ltac:(lia)) as Hmr.
  fold mr in Hmr. rewrite HY in Hmr.
  destruct (Z.eqb_spec mr (2 ^ 53)) as [Hbig|Hnot].
  - change (2 ^ 52) with (Zpos 4503599627370496).
    destruct (Z.ltb_spec 971 (e' + 1 - 1074)); [discriminate|].
    intros Heq. injection Heq as <- <- <-. split; [reflexivity|].
    unfold canonical. change (2 ^ 53) with 9007199254740992.
    change (2 ^ 52) with 4503599627370496. lia.
  - destruct mr as [|p|p]; try discriminate.
    destruct (Z.ltb_spec 971 (e' - 1074)); [discriminate|].
    intros Heq. injection Heq as <- <- <-. split; [reflexivity|].
    unfold canonical. split; [lia|]. split; [lia|].
    destruct (Z.eq_dec e' 0); [right; lia|left; lia].
Qed.

End RoundingFacts.

(** ** Decimal literals as rationals *)

Section DecimalFacts.
Import JSNumber.

(** The value [M * 10^E] before reduction. *)
Definition dval (M E : Z) : Q := inject_Z M * Qpower (10 # 1) E.

Lemma StringToNumber_Qeq (neg : bool) (M E M' E' : Z) :
  dval M E == dval M' E' -> StringToNumber neg M E = StringToNumber neg M' E'.
Proof.
  intros H. unfold StringToNumber, decimal_to_Q. fold (dval M E) (dval M' E').
  rewrite (Qred_complete _ _ H). reflexivity.
Qed.

Definition with_sign (neg : bool) (x : number) : number :=
  match x with
  | Zero _ => Zero neg
  | Finite _ m e => Finite neg m e
  | Infinity _ => Infinity neg
  end.

Lemma round_pos_sign (neg : bool) (n d : positive) :
  round_pos neg n d = with_sign neg (round_pos false n d).
Proof.
  unfold round_pos.
  destruct (_ =? 2 ^ 53).
  - change (2 ^ 52) with (Zpos 4503599627370496). cbv beta iota zeta.
    destruct (971 <? _); reflexivity.
  - cbv beta iota zeta. destruct (round_half_even _ _); try reflexivity.
    destruct (971 <? _); reflexivity.
Qed.

Lemma StringToNumber_sign (neg : bool) (M E : Z) :
  StringToNumber neg M E = with_sign neg (StringToNumber false M E).
Proof.
  unfold StringToNumber. destruct (Qnum (decimal_to_Q M E)); try reflexivity.
  apply round_pos_sign.
Qed.

Lemma two_power_scale (e : Z) :
  -1074 <= e -> Qpower (2 # 1) e * inject_Z (2 ^ 1074) == inject_Z (2 ^ (e + 1074)).
Proof.
  intros He. rewrite !Zpower_Qpower by lia. change (inject_Z 2) with (2 # 1).
  rewrite Qpower_plus by discriminate. reflexivity.
Qed.

Lemma Q_scaled (q : Q) (m e : Z) :
  -1074 <= e -> q == inject_Z m * Qpower (2 # 1) e ->
  Qnum q * 2 ^ 1074 = m * 2 ^ (e + 1074) * Zpos (Qden q).
Proof.
  intros He Hq.
  assert (q * inject_Z (2 ^ 1074) == inject_Z (m * 2 ^ (e + 1074))) as H.
  { rewrite Hq, <- Qmult_assoc, two_power_scale by assumption.
    rewrite inject_Z_mult. reflexivity. }
  unfold Qeq, Qmult, inject_Z in H. simpl in H. lia.
Qed.

Lemma exact_decimal_value (m : positive) (e : Z) :
  dval (fst (exact_decimal m e)) (snd (exact_decimal m e))
  == inject_Z (Zpos m) * Qpower (2 # 1) e.
Proof.
  unfold exact_decimal, dval. destruct (Z.leb_spec 0 e) as [He|He]; cbn [fst snd].
  - rewrite inject_Z_mult, Zpower_Qpower by assumption.
    change (inject_Z 2) with (2 # 1). rewrite Qpower_0_r. ring.
  - rewrite inject_Z_mult, Zpower_Qpower by lia.
    change (inject_Z 5) with (5 # 1). rewrite Qpower_opp.
    assert ((10 # 1) ^ e == (2 # 1) ^ e * (5 # 1) ^ e) as ->.
    { rewrite <- Qmult_power. reflexivity. }
    assert (0 < (5 # 1) ^ e)%Q as Hpos by (apply Qpower_0_lt; reflexivity).
    field. intros H0. rewrite H0 in Hpos. discriminate.
Qed.

Lemma StringToNumber_exact (m : positive) (e : Z) :
  canonical m e ->
  StringToNumber false (fst (exact_decimal m e)) (snd (exact_decimal m e))
  = Finite false m e.
Proof.
  intros Hc. unfold StringToNumber.
  set (q := decimal_to_Q (fst (exact_decimal m e)) (snd (exact_decimal m e))).
  assert (q == inject_Z (Zpos m) * Qpower (2 # 1) e) as Hq.
  { unfold q, decimal_to_Q. rewrite Qred_correct. apply exact_decimal_value. }
  pose proof Hc as [_ [[He _] _]].
  pose proof (Q_scaled q (Zpos m) e He Hq) as Hs.
  assert (0 < 2 ^ 1074) by (apply Z.pow_pos_nonneg; lia).
  assert (0 < 2 ^ (e + 1074)) by (apply Z.pow_pos_nonneg; lia).
  destruct (Qnum q) as [|n|n] eqn:Hn; [nia| |nia].
  apply round_pos_exact; assumption.
Qed.

Lemma number_eqb_eq (x y : number) : number_eqb x y = true -> x = y.
Proof.
  destruct x as [a|a m e|a], y as [b|b m' e'|b]; simpl; try discriminate.
  - intros H. apply eqb_prop in H. congruence.
  - intros H. apply andb_true_iff in H. destruct H as [H He].
    apply andb_true_iff in H. destruct H as [Ha Hm].
    apply eqb_prop in Ha. apply Pos.eqb_eq in Hm. apply Z.eqb_eq in He. congruence.
  - intros H. apply eqb_prop in H. congruence.
Qed.

Lemma search_shortest_pass (pass : Z * Z -> bool) (Mx p : Z) (L fuel k : nat) (c : Z * Z) :
  search_shortest pass Mx p L fuel k = Some c -> pass c = true.
Proof.
  revert k; induction fuel as [|fuel IH]; intros k; simpl; [discriminate|].
  destruct (find pass (candidates Mx p L k)) eqn:Hfind.
  - intros Heq. injection Heq as <-. apply (find_some _ _ Hfind).
  - apply IH.
Qed.

(** The decimal that Number::toString prints denotes the number. *)
Lemma shortest_decimal_denotes (m : positive) (e : Z) :
  canonical m e ->
  StringToNumber false (fst (shortest_decimal m e)) (snd (shortest_decimal m e))
  = Finite false m e.
Proof.
  intros Hc. unfold shortest_decimal.
  pose proof (StringToNumber_exact m e Hc) as Hexact.
  destruct (exact_decimal m e) as [Mx p]. simpl in Hexact.
  destruct (search_shortest _ _ _ _ _ _) as [c|] eqn:Hs.
  - apply search_shortest_pass in Hs. apply number_eqb_eq. exact Hs.
  - exact Hexact.
Qed.

Lemma dval_pos (M E : Z) : 0 < M -> (0 < dval M E)%Q.
Proof.
  intros HM. unfold dval. apply Qmult_lt_0_compat.
  - unfold Qlt, inject_Z. simpl. lia.
  - apply Qpower_0_lt. reflexivity.
Qed.

(** Only a positive decimal denotes a finite non-zero number. *)
Lemma StringToNumber_Finite_pos (neg s : bool) (M E : Z) (m : positive) (e : Z) :
  StringToNumber neg M E = Finite s m e -> 0 < M.
Proof.
  unfold StringToNumber. destruct (Qnum (decimal_to_Q M E)) as [|n|n] eqn:Hn; try discriminate.
  intros _.
  assert (decimal_to_Q M E == dval M E) as Hq by apply Qred_correct.
  destruct (Z.lt_ge_cases 0 M) as [|HM]; [assumption|exfalso].
  assert (dval M E <= 0)%Q as Hle.
  { unfold dval.
    assert (0 < (10 # 1) ^ E)%Q as Hp by (apply Qpower_0_lt; reflexivity).
    assert (inject_Z M <= 0)%Q as Hm by (unfold Qle, inject_Z; simpl; lia).
    rewrite <- (Qmult_0_l ((10 # 1) ^ E)).
    apply Qmult_le_compat_r; [assumption|apply Qlt_le_weak; assumption]. }
  rewrite <- Hq in Hle. unfold Qle in Hle. rewrite Hn in Hle.
  change (Qnum 0) with 0 in Hle. lia.
Qed.

End DecimalFacts.

(** ** Decimal digits *)

Section DigitFacts.
Import JSNumber JSON.

Definition is_digits (ds : list Z) : Prop := Forall (fun d => 0 <= d <= 9) ds.

Lemma fold_digits (ds : list Z) (acc : Z) :
  fold_left (fun acc d => 10 * acc + d) ds acc
  = acc * 10 ^ Z.of_nat (length ds) + digits_value ds.
Proof.
  unfold digits_value. revert acc. induction ds as [|d ds IH]; intros acc.
  - simpl. lia.
  - cbn [fold_left length]. rewrite IH, (IH (10 * 0 + d)).
    rewrite Nat2Z.inj_succ, Z.pow_succ_r by lia. ring.
Qed.

Lemma digits_value_app (a b : list Z) :
  digits_value (a ++ b) = digits_value a * 10 ^ Z.of_nat (length b) + digits_value b.
Proof. unfold digits_value at 1. rewrite fold_left_app. apply fold_digits. Qed.

Lemma digits_value_zeros (j : nat) : digits_value (repeat 0 j) = 0.
Proof.
  induction j as [|j IH]; [reflexivity|].
  change (repeat 0 (S j)) with ([0] ++ repeat 0 j).
  rewrite digits_value_app, IH. reflexivity.
Qed.

Lemma is_digits_zeros (j : nat) : is_digits (repeat 0 j).
Proof. apply Forall_forall. intros d Hd. apply repeat_spec in Hd. lia. Qed.

Lemma to_digits_aux_spec (fuel : nat) (z : Z) (acc : list Z) :
  (0 < fuel)%nat -> 0 <= z < 2 ^ Z.of_nat fuel ->
  exists d ds,
    to_digits_aux fuel z acc = (d :: ds) ++ acc
    /\ is_digits (d :: ds) /\ digits_value (d :: ds) = z /\ (0 < z -> 0 < d).
Proof.
  revert z acc. induction fuel as [|fuel IH]; intros z acc Hf Hz; [lia|].
  cbn [to_digits_aux]. destruct (Z.ltb_spec z 10) as [Hlt|Hge].
  - exists z, []. split; [reflexivity|]. split; [repeat constructor; lia|].
    split; [unfold digits_value; simpl; lia|auto].
  - rewrite Nat2Z.inj_succ, Z.pow_succ_r in Hz by lia.
    assert (0 < z / 10) as Hq by (apply Z.div_str_pos; lia).
    assert (z / 10 < 2 ^ Z.of_nat fuel) as Hq'
      by (apply Z.div_lt_upper_bound; lia).
    assert (0 < fuel)%nat as Hf'.
    { destruct fuel; [|lia]. simpl in Hq'. lia. }
    destruct (IH (z / 10) (z mod 10 :: acc) Hf' ltac:(lia)) as [d [ds [Heq [Hds [Hv Hd]]]]].
    exists d, (ds ++ [z mod 10]). split; [|split; [|split]].
    + rewrite Heq. simpl. rewrite <- app_assoc. reflexivity.
    + change (d :: ds ++ [z mod 10]) with ((d :: ds) ++ [z mod 10]).
      apply Forall_app. split; [assumption|]. repeat constructor.
      * apply Z.mod_pos_bound. lia.
      * pose proof (Z.mod_pos_bound z 10 ltac:(lia)). lia.
    + change (d :: ds ++ [z mod 10]) with ((d :: ds) ++ [z mod 10]).
      rewrite digits_value_app, Hv. unfold digits_value. simpl.
      pose proof (Z.div_mod z 10 ltac:(lia)). lia.
    + intros _. apply Hd. assumption.
Qed.

Lemma to_digits_spec (z : Z) :
  0 <= z ->
  exists d ds,
    to_digits z = d :: ds
    /\ is_digits (d :: ds) /\ digits_value (d :: ds) = z /\ (0 < z -> 0 < d).
Proof.
  intros Hz. unfold to_digits.
  destruct (to_digits_aux_spec (S (Z.to_nat (Z.log2 z))) z []) as [d [ds [Heq H]]].
  - lia.
  - split; [assumption|]. rewrite Nat2Z.inj_succ, Z2Nat.id by apply Z.log2_nonneg.
    destruct (Z.eq_dec z 0) as [->|Hnz]; [reflexivity|]. apply Z.log2_spec. lia.
  - exists d, ds. rewrite Heq, app_nil_r. auto.
Qed.

Lemma digit_char_spec (d : Z) :
  0 <= d <= 9 -> is_digit (digit_char d) = true /\ digit_value (digit_char d) = d.
Proof.
  intros Hd. unfold is_digit, digit_char, digit_value. split.
  - apply andb_true_iff. split; apply N.leb_le; lia.
  - lia.
Qed.

(** The text after a run of digits does not start with a digit. *)
Definition stops (rest : jsstring) : Prop :=
  match rest with
  | [] => True
  | c :: _ => is_digit c = false
  end.

Lemma span_digits_chars (ds : list Z) (rest : jsstring) :
  is_digits ds -> stops rest ->
  span_digits (map digit_char ds ++ rest) = (ds, rest).
Proof.
  intros Hds Hstop. induction Hds as [|d ds Hd Hds IH]; cbn [map app span_digits].
  - destruct rest as [|c rest]; [reflexivity|]. cbn [span_digits]. simpl in Hstop.
    rewrite Hstop. reflexivity.
  - destruct (digit_char_spec d Hd) as [-> ->]. rewrite IH. reflexivity.
Qed.

(** The text after a number is not a character that continues it. *)
Definition number_end (rest : jsstring) : Prop :=
  match rest with
  | [] => True
  | c :: _ => is_digit c = false /\ c <> Char.dot /\ c <> 101%N /\ c <> 69%N
  end.

Lemma number_end_stops (rest : jsstring) : number_end rest -> stops rest.
Proof. destruct rest; simpl; tauto. Qed.

Lemma lex_fraction_none (rest : jsstring) :
  number_end rest -> lex_fraction rest = Some ([], rest).
Proof.
  destruct rest as [|c rest]; [reflexivity|]. intros [_ [Hdot _]]. unfold lex_fraction.
  destruct (N.eqb_spec c Char.dot); [contradiction|reflexivity].
Qed.

Lemma lex_exponent_none (rest : jsstring) :
  number_end rest -> lex_exponent rest = Some (0, rest).
Proof.
  destruct rest as [|c rest]; [reflexivity|]. intros [_ [_ [He HE]]]. unfold lex_exponent.
  destruct (N.eqb_spec c 101); [contradiction|].
  destruct (N.eqb_spec c 69); [contradiction|reflexivity].
Qed.

Lemma lex_fraction_digits (ds : list Z) (rest : jsstring) :
  is_digits ds -> ds <> [] -> stops rest ->
  lex_fraction (Char.dot :: map digit_char ds ++ rest) = Some (ds, rest).
Proof.
  intros Hds Hne Hstop. unfold lex_fraction. rewrite N.eqb_refl.
  rewrite span_digits_chars by assumption. destruct ds; [contradiction|reflexivity].
Qed.

Definition exponent_part (x : Z) : jsstring :=
  (if 0 <? x then js "e+" else js "e-") ++ decimal_string (Z.abs x).

Lemma exponent_part_head (x : Z) (rest : jsstring) :
  exists tl, exponent_part x ++ rest = 101%N :: tl.
Proof. unfold exponent_part. destruct (0 <? x); eexists; reflexivity. Qed.

Lemma lex_exponent_digits (x : Z) (rest : jsstring) :
  stops rest -> lex_exponent (exponent_part x ++ rest) = Some (x, rest).
Proof.
  intros Hstop. unfold exponent_part, decimal_string.
  destruct (to_digits_spec (Z.abs x) (Z.abs_nonneg x)) as [d [ds [Heq [Hds [Hv _]]]]].
  rewrite Heq, <- app_assoc.
  destruct (Z.ltb_spec 0 x) as [Hpos|Hneg];
    cbn [js list_ascii_of_string map app lex_exponent N_of_ascii N_of_digits];
    simpl N.eqb; cbn [orb lex_sign]; simpl N.eqb; cbv iota;
    change (digit_char d :: map digit_char ds ++ rest)
      with (map digit_char (d :: ds) ++ rest);
    rewrite span_digits_chars by assumption; rewrite Hv; f_equal; f_equal; lia.
Qed.

Lemma lex_fraction_exponent (x : Z) (rest : jsstring) :
  lex_fraction (exponent_part x ++ rest) = Some ([], exponent_part x ++ rest).
Proof. destruct (exponent_part_head x rest) as [tl ->]. reflexivity. Qed.

Lemma stops_exponent (x : Z) (rest : jsstring) : stops (exponent_part x ++ rest).
Proof. destruct (exponent_part_head x rest) as [tl ->]. reflexivity. Qed.

Lemma lex_int_digits (d : Z) (ds : list Z) (rest : jsstring) :
  is_digits (d :: ds) -> 0 < d -> stops rest ->
  lex_int (map digit_char (d :: ds) ++ rest) = Some (d :: ds, rest).
Proof.
  intros Hds Hd Hstop. unfold lex_int. cbn [map app].
  pose proof (Forall_inv Hds) as Hd9. destruct (digit_char_spec d Hd9) as [Hdig _].
  rewrite Hdig.
  destruct (N.eqb_spec (digit_char d) Char.zero) as [Hz|_].
  - unfold digit_char, Char.zero in Hz. lia.
  - change (digit_char d :: map digit_char ds ++ rest)
      with (map digit_char (d :: ds) ++ rest).
    rewrite span_digits_chars by assumption. reflexivity.
Qed.

Lemma dval_shift (V E : Z) (j : nat) :
  dval (V * 10 ^ Z.of_nat j) E == dval V (E + Z.of_nat j).
Proof.
  unfold dval. rewrite inject_Z_mult, Zpower_Qpower by lia.
  change (inject_Z 10) with (10 # 1). rewrite Qpower_plus by discriminate. ring.
Qed.

Lemma zeros_chars (j : nat) : repeat 48%N j = map digit_char (repeat 0 j).
Proof. rewrite map_repeat. reflexivity. Qed.

(** The lexer reads the layout of Number::toString back as a decimal of
    the same value. *)
Lemma lex_decimal_layout (d : Z) (ds : list Z) (n : Z) (rest : jsstring) :
  is_digits (d :: ds) -> 0 < d -> number_end rest ->
  exists M E,
    lex_decimal (layout (map digit_char (d :: ds)) n ++ rest) = Some (M, E, rest)
    /\ dval M E == dval (digits_value (d :: ds)) (n - Z.of_nat (length (d :: ds))).
Proof.
  intros Hds Hd Hend. pose proof (number_end_stops _ Hend) as Hstop.
  unfold layout. rewrite length_map. set (k := Z.of_nat (length (d :: ds))).
  assert (0 < k) as Hk by (unfold k; simpl; lia).
  fold (exponent_part (n - 1)).
  destruct ((k <=? n) && (n <=? 21)) eqn:Hcase1.
  { (* digits followed by zeros *)
    apply andb_true_iff in Hcase1. destruct Hcase1 as [Hkn _]. apply Z.leb_le in Hkn.
    rewrite zeros_chars, <- map_app, <- app_comm_cons.
    unfold lex_decimal. rewrite lex_int_digits; try assumption.
    - rewrite lex_fraction_none, lex_exponent_none by assumption.
      eexists _, _. split; [reflexivity|].
      rewrite app_nil_r, app_comm_cons, digits_value_app, digits_value_zeros.
      rewrite repeat_length, Z.add_0_r, dval_shift. simpl length.
      replace (0 - Z.of_nat 0 + Z.of_nat (Z.to_nat (n - k))) with (n - k) by lia.
      reflexivity.
    - rewrite app_comm_cons. apply Forall_app. split; [assumption|apply is_digits_zeros]. }
  destruct ((0 <? n) && (n <=? 21)) eqn:Hcase2.
  { (* a decimal point inside the digits *)
    apply andb_true_iff in Hcase2. destruct Hcase2 as [Hn Hn21].
    apply Z.ltb_lt in Hn. apply Z.leb_le in Hn21.
    apply andb_false_iff in Hcase1.
    assert (n < k) as Hnk by (destruct Hcase1 as [H|H]; apply Z.leb_gt in H; lia).
    destruct (Z.to_nat n) as [|n'] eqn:Hn'; [lia|].
    rewrite firstn_map, skipn_map. cbn [firstn skipn].
    assert (n' < length ds)%nat as Hlen by (unfold k in Hnk; simpl length in Hnk; lia).
    pose proof (Forall_inv_tail Hds) as Htail.
    rewrite <- (firstn_skipn n' ds) in Htail. apply Forall_app in Htail.
    destruct Htail as [Hfirst Hskip].
    assert (skipn n' ds <> []) as Hne.
    { intros Hnil. apply (f_equal (@length Z)) in Hnil.
      rewrite length_skipn in Hnil. simpl in Hnil. lia. }
    rewrite <- !app_assoc. change (js ".") with [Char.dot]. cbn [app].
    change (digit_char d :: map digit_char (firstn n' ds)
              ++ Char.dot :: map digit_char (skipn n' ds) ++ rest)
      with (map digit_char (d :: firstn n' ds)
              ++ Char.dot :: map digit_char (skipn n' ds) ++ rest).
    unfold lex_decimal.
    rewrite lex_int_digits;
      [|constructor; [exact (Forall_inv Hds)|assumption]|assumption|reflexivity].
    rewrite lex_fraction_digits, lex_exponent_none by assumption.
    eexists _, _. split; [reflexivity|].
    rewrite <- app_comm_cons, firstn_skipn, length_skipn.
    replace (0 - Z.of_nat (length ds - n')) with (n - k)
      by (unfold k; simpl length; lia).
    reflexivity. }
  destruct ((-6 <? n) && (n <=? 0)) eqn:Hcase3.
  { (* zeros between the decimal point and the digits *)
    apply andb_true_iff in Hcase3. destruct Hcase3 as [_ Hn0]. apply Z.leb_le in Hn0.
    rewrite zeros_chars, <- !app_assoc, (app_assoc (map _ _)), <- map_app.
    change (js "0." ++ map digit_char (repeat 0 (Z.to_nat (- n)) ++ d :: ds) ++ rest)
      with (Char.zero :: Char.dot
              :: map digit_char (repeat 0 (Z.to_nat (- n)) ++ d :: ds) ++ rest).
    unfold lex_decimal. cbn [lex_int]. rewrite N.eqb_refl.
    rewrite lex_fraction_digits, lex_exponent_none; try assumption.
    - eexists _, _. split; [reflexivity|].
      rewrite !digits_value_app, digits_value_zeros, length_app, repeat_length.
      replace (0 - Z.of_nat (Z.to_nat (- n) + length (d :: ds))) with (n - k)
        by (unfold k; lia).
      replace (digits_value [0] * _ + (0 * _ + digits_value (d :: ds)))
        with (digits_value (d :: ds)) by (unfold digits_value at 2; simpl; lia).
      reflexivity.
    - apply Forall_app. split; [apply is_digits_zeros|assumption].
    - destruct (repeat 0 (Z.to_nat (- n))); discriminate. }
  (* exponent notation *)
  destruct ds as [|d2 ds2]; cbn [map].
  - change ([digit_char d] ++ exponent_part (n - 1))
      with (map digit_char [d] ++ exponent_part (n - 1)).
    rewrite <- app_assoc. unfold lex_decimal.
    rewrite lex_int_digits; [|assumption|assumption|apply stops_exponent].
    rewrite lex_fraction_exponent, lex_exponent_digits by assumption.
    eexists _, _. split; [reflexivity|].
    replace (n - 1 - Z.of_nat (length (@nil Z))) with (n - k) by (unfold k; simpl; lia).
    reflexivity.
  - change ([digit_char d] ++ js "." ++ (digit_char d2 :: map digit_char ds2)
              ++ exponent_part (n - 1))
      with (map digit_char [d] ++ Char.dot :: map digit_char (d2 :: ds2)
              ++ exponent_part (n - 1)).
    rewrite <- app_assoc, <- app_comm_cons, <- app_assoc. unfold lex_decimal.
    rewrite lex_int_digits;
      [|constructor; [exact (Forall_inv Hds)|constructor]|assumption|reflexivity].
    rewrite lex_fraction_digits;
      [|exact (Forall_inv_tail Hds)|discriminate|apply stops_exponent].
    rewrite lex_exponent_digits by assumption.
    eexists _, _. split; [reflexivity|].
    replace (n - 1 - Z.of_nat (length (d2 :: ds2))) with (n - k)
      by (unfold k; simpl length; lia).
    reflexivity.
Qed.

End DigitFacts.

(** ** Number::toString read back by the lexer *)

Section NumberFacts.
Import JSNumber JSON.

Lemma strip_zeros_spec (fuel : nat) (c p : Z) :
  0 < c ->
  0 < fst (strip_zeros fuel c p)
  /\ dval (fst (strip_zeros fuel c p)) (snd (strip_zeros fuel c p)) == dval c p.
Proof.
  revert c p. induction fuel as [|fuel IH]; intros c p Hc; cbn [strip_zeros].
  - split; [assumption|reflexivity].
  - destruct (Z.eqb_spec (c mod 10) 0) as [Hmod|_]; cbn [andb].
    + destruct (Z.ltb_spec 0 c) as [_|]; [|lia].
      pose proof (Z.div_mod c 10 ltac:(lia)) as Hdiv.
      assert (0 < c / 10) as Hq by lia.
      destruct (IH (c / 10) (p + 1) Hq) as [Hpos Hval]. split; [assumption|].
      rewrite Hval. replace c with (c / 10 * 10 ^ Z.of_nat 1) at 2 by (simpl; lia).
      rewrite dval_shift. reflexivity.
    + split; [assumption|reflexivity].
Qed.

Lemma layout_head (d : Z) (ds : list Z) (n : Z) :
  0 <= d <= 9 ->
  exists c0 tl, layout (map digit_char (d :: ds)) n = c0 :: tl /\ is_digit c0 = true.
Proof.
  intros Hd. destruct (digit_char_spec d Hd) as [Hdig _]. unfold layout.
  rewrite length_map.
  destruct ((Z.of_nat (length (d :: ds)) <=? n) && (n <=? 21)).
  { eexists _, _. split; [reflexivity|assumption]. }
  destruct ((0 <? n) && (n <=? 21)) eqn:Hcase2.
  { apply andb_true_iff in Hcase2. destruct Hcase2 as [Hn _]. apply Z.ltb_lt in Hn.
    destruct (Z.to_nat n) eqn:Hn'; [lia|].
    eexists _, _. split; [reflexivity|assumption]. }
  destruct ((-6 <? n) && (n <=? 0)).
  { eexists _, _. split; reflexivity. }
  destruct ds; eexists _, _; (split; [reflexivity|assumption]).
Qed.

Lemma lex_decimal_NumberToString_pos (m : positive) (e : Z) (rest : jsstring) :
  canonical m e -> number_end rest ->
  exists M E c0 tl,
    lex_decimal (NumberToString_pos m e ++ rest) = Some (M, E, rest)
    /\ (forall neg, StringToNumber neg M E = Finite neg m e)
    /\ NumberToString_pos m e = c0 :: tl /\ is_digit c0 = true.
Proof.
  intros Hc Hend. unfold NumberToString_pos.
  pose proof (shortest_decimal_denotes m e Hc) as Hden.
  destruct (shortest_decimal m e) as [c p]. cbn [fst snd] in Hden.
  pose proof (StringToNumber_Finite_pos _ _ _ _ _ _ Hden) as Hpos.
  destruct (strip_zeros_spec (Z.to_nat (Z.log2 c)) c p Hpos) as [Hs Hval].
  destruct (strip_zeros _ c p) as [s p']. cbn [fst snd] in Hs, Hval.
  unfold decimal_string.
  destruct (to_digits_spec s ltac:(lia)) as [d [ds [Heq [Hds [Hv Hd]]]]].
  rewrite Heq, length_map.
  destruct (lex_decimal_layout d ds (Z.of_nat (length (d :: ds)) + p') rest Hds (Hd Hs) Hend)
    as [M [E [Hlex HME]]].
  destruct (layout_head d ds (Z.of_nat (length (d :: ds)) + p') (Forall_inv Hds))
    as [c0 [tl [Hhead Hdig]]].
  exists M, E, c0, tl. split; [exact Hlex|]. split; [|split; assumption].
  intros neg.
  rewrite (StringToNumber_Qeq neg M E c p).
  - rewrite StringToNumber_sign, Hden. reflexivity.
  - rewrite HME, Hv, <- Hval.
    replace (Z.of_nat (length (d :: ds)) + p' - Z.of_nat (length (d :: ds))) with p' by lia.
    reflexivity.
Qed.

Lemma lex_number_NumberToString (x : number) (rest : jsstring) :
  wf_number x -> is_finite x = true -> number_end rest ->
  lex_number (NumberToString x ++ rest) = Some (unsigned_zero x, rest)
  /\ exists c0 tl, NumberToString x = c0 :: tl
                   /\ ((c0 =? Char.minus)%N || is_digit c0 = true).
Proof.
  intros Hwf Hfin Hend. destruct x as [neg|neg m e|neg]; [| |discriminate].
  - split; [|eexists _, _; split; reflexivity].
    cbn [NumberToString unsigned_zero]. change (js "0" ++ rest) with (Char.zero :: rest).
    unfold lex_number. cbn [N.eqb Char.zero Char.minus Pos.eqb].
    unfold lex_decimal. cbn [lex_int]. rewrite N.eqb_refl.
    rewrite lex_fraction_none, lex_exponent_none by assumption. reflexivity.
  - cbn [NumberToString unsigned_zero]. simpl in Hwf.
    destruct (lex_decimal_NumberToString_pos m e rest Hwf Hend)
      as [M [E [c0 [tl [Hlex [Hnum [Hhead Hdig]]]]]]].
    destruct neg.
    + split; [|eexists _, _; split; reflexivity].
      change (js "-") with [Char.minus]. cbn [app]. unfold lex_number.
      rewrite N.eqb_refl, Hlex, Hnum. reflexivity.
    + cbn [app]. split.
      * unfold lex_number. rewrite Hhead in *. cbn [app] in *.
        destruct (N.eqb_spec c0 Char.minus) as [->|_]; [discriminate|].
        rewrite Hlex, Hnum. reflexivity.
      * exists c0, tl. split; [assumption|]. rewrite Hdig. apply orb_true_r.
Qed.

End NumberFacts.

(** ** The tokenizer never runs out of fuel *)

Section TokenizerFacts.
Import JSNumber JSON.

Lemma lex_string_length (s str r : jsstring) :
  lex_string s = Some (str, r) -> (length r < length s)%nat.
Proof.
  remember (length s) as n eqn:Hn. revert s str r Hn.
  induction n as [n IH] using lt_wf_ind. intros s str r Hn.
  destruct s as [|c rest]; [discriminate|]. cbn [lex_string].
  destruct (c =? Char.quote)%N.
  { intros H. injection H as _ <-. subst n. simpl. lia. }
  destruct (c =? Char.backslash)%N.
  { destruct rest as [|e rest1]; [discriminate|].
    destruct (e =? 117)%N.
    - destruct rest1 as [|h1 [|h2 [|h3 [|h4 rest2]]]]; try discriminate.
      destruct (hex4 h1 h2 h3 h4); [|discriminate].
      destruct (lex_string rest2) as [[str' r']|] eqn:Hrec; [|discriminate].
      intros H. injection H as _ <-.
      apply (IH (length rest2)) in Hrec; [|subst n; simpl; lia|reflexivity].
      subst n. simpl. lia.
    - destruct (simple_escape e); [|discriminate].
      destruct (lex_string rest1) as [[str' r']|] eqn:Hrec; [|discriminate].
      intros H. injection H as _ <-.
      apply (IH (length rest1)) in Hrec; [|subst n; simpl; lia|reflexivity].
      subst n. simpl. lia. }
  destruct (c <? 32)%N; [discriminate|].
  destruct (lex_string rest) as [[str' r']|] eqn:Hrec; [|discriminate].
  intros H. injection H as _ <-.
  apply (IH (length rest)) in Hrec; [|subst n; simpl; lia|reflexivity].
  subst n. simpl. lia.
Qed.

Lemma span_digits_length (s : jsstring) :
  (length (snd (span_digits s)) <= length s)%nat.
Proof.
  induction s as [|c rest IH]; [simpl; lia|]. cbn [span_digits].
  destruct (is_digit c); [|simpl; lia].
  destruct (span_digits rest) as [ds r]. simpl in *. lia.
Qed.

Lemma lex_int_length (s : jsstring) (ip : list Z) (r : jsstring) :
  lex_int s = Some (ip, r) -> (length r < length s)%nat.
Proof.
  unfold lex_int. destruct s as [|c rest]; [discriminate|].
  destruct (c =? Char.zero)%N.
  { intros H. injection H as _ <-. simpl. lia. }
  destruct (is_digit c) eqn:Hc; [|discriminate].
  cbn [span_digits]. rewrite Hc.
  pose proof (span_digits_length rest) as Hlen.
  destruct (span_digits rest) as [ds r']. intros H. injection H as _ <-.
  simpl in *. lia.
Qed.

Lemma lex_fraction_length (s : jsstring) (fp : list Z) (r : jsstring) :
  lex_fraction s = Some (fp, r) -> (length r <= length s)%nat.
Proof.
  unfold lex_fraction. destruct s as [|c rest].
  { intros H. injection H as _ <-. simpl. lia. }
  destruct (c =? Char.dot)%N.
  - pose proof (span_digits_length rest) as Hlen.
    destruct (span_digits rest) as [[|d ds] r']; [discriminate|].
    intros H. injection H as _ <-. simpl in *. lia.
  - intros H. injection H as _ <-. simpl. lia.
Qed.

Lemma lex_exponent_length (s : jsstring) (ex : Z) (r : jsstring) :
  lex_exponent s = Some (ex, r) -> (length r <= length s)%nat.
Proof.
  unfold lex_exponent. destruct s as [|c rest].
  { intros H. injection H as _ <-. simpl. lia. }
  destruct ((c =? 101)%N || (c =? 69)%N).
  - assert (length (snd (lex_sign rest)) <= length rest)%nat as Hsign.
    { unfold lex_sign. destruct rest as [|c' rest']; [simpl; lia|].
      destruct (c' =? Char.minus)%N; [simpl; lia|].
      destruct (c' =? Char.plus)%N; simpl; lia. }
    destruct (lex_sign rest) as [neg rest'].
    pose proof (span_digits_length rest') as Hlen.
    destruct (span_digits rest') as [[|d ds] r']; [discriminate|].
    intros H. injection H as _ <-. simpl in *. lia.
  - intros H. injection H as _ <-. simpl. lia.
Qed.

Lemma lex_decimal_length (s : jsstring) (M E : Z) (r : jsstring) :
  lex_decimal s = Some (M, E, r) -> (length r < length s)%nat.
Proof.
  unfold lex_decimal.
  destruct (lex_int s) as [[ip s2]|] eqn:Hint; [|discriminate].
  destruct (lex_fraction s2) as [[fp s3]|] eqn:Hfrac; [|discriminate].
  destruct (lex_exponent s3) as [[ex s4]|] eqn:Hexp; [|discriminate].
  intros H. injection H as _ _ <-.
  apply lex_int_length in Hint. apply lex_fraction_length in Hfrac.
  apply lex_exponent_length in Hexp. lia.
Qed.

Lemma lex_number_length (s : jsstring) (x : number) (r : jsstring) :
  lex_number s = Some (x, r) -> (length r < length s)%nat.
Proof.
  unfold lex_number. destruct s as [|c rest].
  - destruct (lex_decimal []) as [[[M E] r']|] eqn:Hdec; [|discriminate].
    apply lex_decimal_length in Hdec. simpl in Hdec. lia.
  - destruct (c =? Char.minus)%N.
    + destruct (lex_decimal rest) as [[[M E] r']|] eqn:Hdec; [|discriminate].
      intros H. injection H as _ <-. apply lex_decimal_length in Hdec. simpl. lia.
    + destruct (lex_decimal (c :: rest)) as [[[M E] r']|] eqn:Hdec; [|discriminate].
      intros H. injection H as _ <-. apply lex_decimal_length in Hdec. assumption.
Qed.

Lemma strip_prefix_length (p s r : jsstring) :
  strip_prefix p s = Some r -> length s = (length p + length r)%nat.
Proof.
  revert s. induction p as [|a p IH]; intros s; cbn [strip_prefix].
  - intros H. injection H as <-. reflexivity.
  - destruct s as [|b s]; [discriminate|]. destruct (a =? b)%N; [|discriminate].
    intros H. apply IH in H. simpl. lia.
Qed.

(** Decides the tests the lexer makes on a known character. *)
Ltac char_tests :=
  cbn [is_ws is_digit N.eqb N.leb N.compare Pos.eqb Pos.compare Pos.compare_cont
       orb andb negb Char.tab Char.line_feed Char.carriage_return Char.space
       Char.quote Char.plus Char.comma Char.minus Char.dot Char.slash Char.zero
       Char.colon Char.lbracket Char.backslash Char.rbracket Char.lbrace Char.rbrace].

Lemma tokenize_S (fuel : nat) (c : N) (rest : jsstring) :
  tokenize (S fuel) (c :: rest) =
  if is_ws c then tokenize fuel rest
  else if (c =? Char.lbrace)%N then cons_token TLBrace (tokenize fuel rest)
  else if (c =? Char.rbrace)%N then cons_token TRBrace (tokenize fuel rest)
  else if (c =? Char.lbracket)%N then cons_token TLBracket (tokenize fuel rest)
  else if (c =? Char.rbracket)%N then cons_token TRBracket (tokenize fuel rest)
  else if (c =? Char.comma)%N then cons_token TComma (tokenize fuel rest)
  else if (c =? Char.colon)%N then cons_token TColon (tokenize fuel rest)
  else if (c =? Char.quote)%N then
    match lex_string rest with
    | Some (str, rest') => cons_token (TString str) (tokenize fuel rest')
    | None => None
    end
  else if (c =? Char.minus)%N || is_digit c then
    match lex_number (c :: rest) with
    | Some (x, rest') => cons_token (TNumber x) (tokenize fuel rest')
    | None => None
    end
  else
    match strip_prefix (js "null") (c :: rest), strip_prefix (js "true") (c :: rest),
          strip_prefix (js "false") (c :: rest) with
    | Some rest', _, _ => cons_token TNull (tokenize fuel rest')
    | _, Some rest', _ => cons_token TTrue (tokenize fuel rest')
    | _, _, Some rest' => cons_token TFalse (tokenize fuel rest')
    | _, _, _ => None
    end.
Proof. reflexivity. Qed.

Lemma tokenize_fuel (f1 f2 : nat) (s : jsstring) :
  (length s <= f1)%nat -> (length s <= f2)%nat -> tokenize f1 s = tokenize f2 s.
Proof.
  revert f2 s. induction f1 as [|f1 IH]; intros f2 s H1 H2.
  { destruct s; [|simpl in H1; lia]. destruct f2; reflexivity. }
  destruct s as [|c rest]; [destruct f2; reflexivity|].
  destruct f2 as [|f2]; [simpl in H2; lia|].
  simpl in H1, H2. cbn [tokenize].
  assert (forall r, (length r <= length rest)%nat -> tokenize f1 r = tokenize f2 r) as Hrec
    by (intros r Hr; apply IH; lia).
  destruct (is_ws c); [apply Hrec; lia|].
  repeat (match goal with
          | |- context [if (c =? ?k)%N then cons_token _ _ else _] =>
              destruct (c =? k)%N; [rewrite (Hrec rest) by lia; reflexivity|]
          end).
  destruct (c =? Char.quote)%N.
  { destruct (lex_string rest) as [[str r]|] eqn:Hs; [|reflexivity].
    apply lex_string_length in Hs. rewrite (Hrec r) by lia. reflexivity. }
  destruct ((c =? Char.minus)%N || is_digit c).
  { destruct (lex_number (c :: rest)) as [[x r]|] eqn:Hn; [|reflexivity].
    apply lex_number_length in Hn. simpl in Hn. rewrite (Hrec r) by lia. reflexivity. }
  destruct (strip_prefix (js "null") (c :: rest)) as [r|] eqn:Hnull.
  { apply strip_prefix_length in Hnull. simpl in Hnull.
    rewrite (Hrec r) by lia. reflexivity. }
  destruct (strip_prefix (js "true") (c :: rest)) as [r|] eqn:Htrue.
  { apply strip_prefix_length in Htrue. simpl in Htrue.
    rewrite (Hrec r) by lia. reflexivity. }
  destruct (strip_prefix (js "false") (c :: rest)) as [r|] eqn:Hfalse.
  { apply strip_prefix_length in Hfalse. simpl in Hfalse.
    rewrite (Hrec r) by lia. reflexivity. }
  reflexivity.
Qed.

(** Tokens of a text, with the fuel [JSON.parse] gives the tokenizer. *)
Definition lex (s : jsstring) : option (list token) := tokenize (length s) s.

Lemma tokenize_lex (f : nat) (s : jsstring) :
  (length s <= f)%nat -> tokenize f s = lex s.
Proof. intros H. apply tokenize_fuel; [assumption|reflexivity]. Qed.

Lemma lex_ws (c : N) (rest : jsstring) : is_ws c = true -> lex (c :: rest) = lex rest.
Proof. intros Hc. unfold lex at 1. cbn [length]. rewrite tokenize_S, Hc. reflexivity. Qed.

Lemma lex_whitespace (w rest : jsstring) :
  forallb is_ws w = true -> lex (w ++ rest) = lex rest.
Proof.
  induction w as [|c w IH]; [reflexivity|]. cbn [forallb app]. intros H.
  apply andb_true_iff in H. destruct H as [Hc Hw]. rewrite lex_ws by assumption.
  apply IH. assumption.
Qed.

Lemma lex_punctuator (c : N) (t : token) (rest : jsstring) :
  In (c, t) [(Char.lbrace, TLBrace); (Char.rbrace, TRBrace);
             (Char.lbracket, TLBracket); (Char.rbracket, TRBracket);
             (Char.comma, TComma); (Char.colon, TColon)] ->
  lex (c :: rest) = cons_token t (lex rest).
Proof.
  intros Hin. unfold lex at 1. cbn [length]. rewrite tokenize_S. simpl in Hin.
  repeat (destruct Hin as [Heq|Hin]; [injection Heq as <- <-; reflexivity|]).
  contradiction.
Qed.

Lemma lex_QuoteJSONString (s rest : jsstring) :
  lex (QuoteJSONString s ++ rest) = cons_token (TString s) (lex rest).
Proof.
  destruct (lex_string_QuoteJSONString s rest) as [body [Heq Hlex]].
  rewrite Heq. unfold lex at 1. cbn [length]. rewrite tokenize_S. char_tests.
  rewrite Hlex.
  rewrite tokenize_lex; [reflexivity|]. apply lex_string_length in Hlex. lia.
Qed.

Lemma lex_NumberToString (x : number) (rest : jsstring) :
  wf_number x -> is_finite x = true -> number_end rest ->
  lex (NumberToString x ++ rest) = cons_token (TNumber (unsigned_zero x)) (lex rest).
Proof.
  intros Hwf Hfin Hend.
  destruct (lex_number_NumberToString x rest Hwf Hfin Hend) as [Hlex [c0 [tl [Hhead Hc0]]]].
  unfold lex at 1. rewrite Hhead in *. cbn [app length] in *. rewrite tokenize_S.
  assert (is_ws c0 = false) as ->.
  { apply orb_true_iff in Hc0. destruct Hc0 as [Hm|Hd].
    - apply N.eqb_eq in Hm. subst c0. reflexivity.
    - unfold is_digit in Hd. apply andb_true_iff in Hd. destruct Hd as [Hlo Hhi].
      apply N.leb_le in Hlo. apply N.leb_le in Hhi. unfold is_ws, Char.tab,
        Char.line_feed, Char.carriage_return, Char.space.
      repeat (apply orb_false_iff; split); apply N.eqb_neq; lia. }
  repeat (match goal with
          | |- context [if (c0 =? ?k)%N then cons_token _ _ else _] =>
              let H := fresh in
              destruct (N.eqb_spec c0 k) as [H|_];
              [exfalso; subst c0; revert Hc0; vm_compute; discriminate|]
          end).
  destruct (N.eqb_spec c0 Char.quote) as [H|_];
    [exfalso; subst c0; revert Hc0; vm_compute; discriminate|].
  rewrite Hc0, Hlex.
  rewrite tokenize_lex; [reflexivity|]. apply lex_number_length in Hlex. simpl in Hlex. lia.
Qed.

Lemma strip_prefix_app (p rest : jsstring) : strip_prefix p (p ++ rest) = Some rest.
Proof.
  induction p as [|a p IH]; [reflexivity|]. cbn [app strip_prefix].
  rewrite N.eqb_refl. exact IH.
Qed.

Lemma strip_prefix_differs (p s : jsstring) (a b : N) :
  a <> b -> strip_prefix (a :: p) (b :: s) = None.
Proof. intros H. cbn [strip_prefix]. destruct (N.eqb_spec a b); [contradiction|reflexivity]. Qed.

Lemma tokenize_literal (fuel : nat) (c : N) (rest : jsstring) :
  In c [110; 116; 102]%N ->
  tokenize (S fuel) (c :: rest) =
  match strip_prefix (js "null") (c :: rest), strip_prefix (js "true") (c :: rest),
        strip_prefix (js "false") (c :: rest) with
  | Some rest', _, _ => cons_token TNull (tokenize fuel rest')
  | _, Some rest', _ => cons_token TTrue (tokenize fuel rest')
  | _, _, Some rest' => cons_token TFalse (tokenize fuel rest')
  | _, _, _ => None
  end.
Proof.
  intros Hin. rewrite tokenize_S.
  destruct Hin as [<-|[<-|[<-|[]]]]; reflexivity.
Qed.

Lemma lex_literal (text : string) (t : token) (rest : jsstring) :
  In (text, t) [("null"%string, TNull); ("true"%string, TTrue); ("false"%string, TFalse)] ->
  lex (js text ++ rest) = cons_token t (lex rest).
Proof.
  intros Hin. unfold lex at 1. rewrite length_app.
  destruct Hin as [Heq|[Heq|[Heq|[]]]]; injection Heq as <- <-.
  - change (js "null" ++ rest) with (110%N :: js "ull" ++ rest).
    change (length (js "null") + length rest)%nat with (S (3 + length rest)).
    rewrite tokenize_literal by (simpl; tauto).
    change (110%N :: js "ull" ++ rest) with (js "null" ++ rest).
    rewrite strip_prefix_app. apply f_equal, tokenize_lex. lia.
  - change (js "true" ++ rest) with (116%N :: js "rue" ++ rest).
    change (length (js "true") + length rest)%nat with (S (3 + length rest)).
    rewrite tokenize_literal by (simpl; tauto).
    change (js "null") with (110%N :: js "ull").
    rewrite (strip_prefix_differs (js "ull") (js "rue" ++ rest) 110 116) by discriminate.
    change (116%N :: js "rue" ++ rest) with (js "true" ++ rest).
    rewrite strip_prefix_app. apply f_equal, tokenize_lex. lia.
  - change (js "false" ++ rest) with (102%N :: js "alse" ++ rest).
    change (length (js "false") + length rest)%nat with (S (4 + length rest)).
    rewrite tokenize_literal by (simpl; tauto).
    change (js "null") with (110%N :: js "ull").
    change (js "true") with (116%N :: js "rue").
    rewrite (strip_prefix_differs (js "ull") (js "alse" ++ rest) 110 102) by discriminate.
    rewrite (strip_prefix_differs (js "rue") (js "alse" ++ rest) 116 102) by discriminate.
    change (102%N :: js "alse" ++ rest) with (js "false" ++ rest).
    rewrite strip_prefix_app. apply f_equal, tokenize_lex. lia.
Qed.

End TokenizerFacts.

(** ** Induction on values, and the tokens of a value *)

Section JsonInduction.
Import JSON.
Variable P : json -> Prop.
Hypothesis Hnull : P JNull.
Hypothesis Hbool : forall b, P (JBool b).
Hypothesis Hnumber : forall x, P (JNumber x).
Hypothesis Hstring : forall s, P (JString s).
Hypothesis Harray : forall l, Forall P l -> P (JArray l).
Hypothesis Hobject : forall ps, Forall (fun kv => P (snd kv)) ps -> P (JObject ps).

Fixpoint json_ind (v : json) : P v :=
  match v with
  | JNull => Hnull
  | JBool b => Hbool b
  | JNumber x => Hnumber x
  | JString s => Hstring s
  | JArray l =>
      Harray l ((fix all (l : list json) : Forall P l :=
                   match l with
                   | [] => Forall_nil P
                   | e :: l' => Forall_cons e (json_ind e) (all l')
                   end) l)
  | JObject ps =>
      Hobject ps ((fix all (ps : list (jsstring * json))
                     : Forall (fun kv => P (snd kv)) ps :=
                     match ps with
                     | [] => Forall_nil _
                     | kv :: ps' => Forall_cons kv (json_ind (snd kv)) (all ps')
                     end) ps)
  end.
End JsonInduction.

Section TokensOf.
Import JSNumber JSON.

(** The tokens of the text [JSON.stringify] writes for a value. *)
Fixpoint tokens_of (v : json) : list token :=
  match v with
  | JNull => [TNull]
  | JBool true => [TTrue]
  | JBool false => [TFalse]
  | JNumber x => [TNumber (unsigned_zero x)]
  | JString s => [TString s]
  | JArray [] => [TLBracket; TRBracket]
  | JArray elements => TLBracket :: join [TComma] (map tokens_of elements) ++ [TRBracket]
  | JObject [] => [TLBrace; TRBrace]
  | JObject properties =>
      TLBrace
        :: join [TComma]
             (map (fun kv => let '(k, p) := kv in TString k :: TColon :: tokens_of p)
                  properties)
        ++ [TRBrace]
  end.

End TokensOf.

(** ** The tokens of a serialized value *)

Section SerializeFacts.
Import JSNumber JSON.

Lemma cons_token_app (t : token) (ts : list token) (o : option (list token)) :
  cons_token t (option_map (app ts) o) = option_map (app (t :: ts)) o.
Proof. destruct o; reflexivity. Qed.

Lemma option_map_app_app (a b : list token) (o : option (list token)) :
  option_map (app a) (option_map (app b) o) = option_map (app (a ++ b)) o.
Proof. destruct o; simpl; [rewrite app_assoc|]; reflexivity. Qed.

Lemma cons_token_nil (t : token) (o : option (list token)) :
  cons_token t o = option_map (app [t]) o.
Proof. destruct o; reflexivity. Qed.

Lemma forallb_ws_gap (indent : jsstring) :
  forallb is_ws indent = true -> forallb is_ws (indent ++ gap) = true.
Proof. intros H. rewrite forallb_app, H. reflexivity. Qed.

Lemma number_end_comma (rest : jsstring) : number_end (Char.comma :: rest).
Proof. simpl. repeat split; discriminate. Qed.

Lemma number_end_line_feed (rest : jsstring) : number_end (Char.line_feed :: rest).
Proof. simpl. repeat split; discriminate. Qed.

Lemma join_cons2 {X : Type} (sep p q : list X) (tl : list (list X)) :
  join sep (p :: q :: tl) = p ++ sep ++ join sep (q :: tl).
Proof. reflexivity. Qed.

(** Elements or members, separated by a comma, a line feed and the
    indentation. *)
Lemma lex_join {X : Type} (text : X -> jsstring) (toks : X -> list token)
    (indent : jsstring) (items : list X) (tail : jsstring) :
  forallb is_ws indent = true ->
  Forall (fun x => forall rest, number_end rest ->
                   lex (text x ++ rest) = option_map (app (toks x)) (lex rest)) items ->
  number_end tail ->
  lex (join (Char.comma :: Char.line_feed :: indent) (map text items) ++ tail)
  = option_map (app (join [TComma] (map toks items))) (lex tail).
Proof.
  intros Hws Hitems Htail. induction Hitems as [|x items Hx Hitems IH].
  - simpl. destruct (lex tail); reflexivity.
  - destruct items as [|y items].
    + simpl. apply Hx. assumption.
    + cbn [map] in *. unfold jsstring in *.
      rewrite (join_cons2 (X := N)), (join_cons2 (X := token)).
      rewrite <- !app_assoc, Hx by apply number_end_comma.
      cbn [app]. rewrite (lex_punctuator Char.comma TComma) by (simpl; tauto).
      rewrite lex_ws by reflexivity. rewrite lex_whitespace by assumption.
      rewrite IH, cons_token_app, option_map_app_app. reflexivity.
Qed.

Lemma lex_serialize (v : json) :
  forall indent rest,
    wf v -> all_finite v = true -> forallb is_ws indent = true -> number_end rest ->
    lex (serialize indent v ++ rest) = option_map (app (tokens_of v)) (lex rest).
Proof.
  induction v as [|b|x|s|l IH|ps IH] using json_ind; intros indent rest Hwf Hfin Hws Hend.
  - apply (lex_literal "null" TNull). simpl. tauto.
  - destruct b; [apply (lex_literal "true" TTrue)|apply (lex_literal "false" TFalse)];
      simpl; tauto.
  - cbn [serialize tokens_of]. simpl in Hfin. rewrite Hfin. inversion Hwf; subst.
    rewrite lex_NumberToString by assumption. apply cons_token_nil.
  - cbn [serialize tokens_of]. rewrite lex_QuoteJSONString. apply cons_token_nil.
  - destruct l as [|e l].
    { cbn [serialize tokens_of].
      change (js "[]" ++ rest) with (Char.lbracket :: Char.rbracket :: rest).
      rewrite (lex_punctuator Char.lbracket TLBracket) by (simpl; tauto).
      rewrite (lex_punctuator Char.rbracket TRBracket) by (simpl; tauto).
      destruct (lex rest); reflexivity. }
    cbn [serialize tokens_of].
    pose proof (forallb_ws_gap indent Hws) as Hws'.
    set (indent' := indent ++ gap) in *. cbn [app].
    rewrite (lex_punctuator Char.lbracket TLBracket) by (simpl; tauto).
    rewrite lex_ws by reflexivity.
    rewrite <- !app_assoc, lex_whitespace by assumption.
    inversion Hwf as [| | | |l' Hwfl|]; subst.
    change (forallb all_finite (e :: l) = true) in Hfin.
    rewrite (lex_join (serialize indent') tokens_of).
    + cbn [app]. rewrite lex_ws by reflexivity.
      rewrite <- app_assoc, lex_whitespace by assumption. cbn [app].
      rewrite (lex_punctuator Char.rbracket TRBracket) by (simpl; tauto).
      destruct (lex rest); simpl; [rewrite <- app_assoc|]; reflexivity.
    + assumption.
    + apply Forall_forall. intros x Hx rest' Hrest'.
      apply (proj1 (Forall_forall _ _) IH x Hx).
      * apply (proj1 (Forall_forall _ _) Hwfl x Hx).
      * apply (proj1 (forallb_forall _ _) Hfin x Hx).
      * assumption.
      * assumption.
    + apply number_end_line_feed.
  - destruct ps as [|kv ps].
    { cbn [serialize tokens_of]. change (js "{}" ++ rest) with (Char.lbrace :: Char.rbrace :: rest).
      rewrite (lex_punctuator Char.lbrace TLBrace) by (simpl; tauto).
      rewrite (lex_punctuator Char.rbrace TRBrace) by (simpl; tauto).
      destruct (lex rest); reflexivity. }
    cbn [serialize tokens_of].
    pose proof (forallb_ws_gap indent Hws) as Hws'.
    set (indent' := indent ++ gap) in *. cbn [app].
    rewrite (lex_punctuator Char.lbrace TLBrace) by (simpl; tauto).
    rewrite lex_ws by reflexivity.
    rewrite <- !app_assoc, lex_whitespace by assumption.
    inversion Hwf as [| | | | |ps' Hord Hwfl]; subst.
    change (forallb (fun kv => let '(_, p) := kv in all_finite p) (kv :: ps) = true) in Hfin.
    rewrite (lex_join
               (fun kv => let '(k, p) := kv in
                          QuoteJSONString k ++ Char.colon :: Char.space
                            :: serialize indent' p)
               (fun kv => let '(k, p) := kv in TString k :: TColon :: tokens_of p)).
    + cbn [app]. rewrite lex_ws by reflexivity.
      rewrite <- app_assoc, lex_whitespace by assumption. cbn [app].
      rewrite (lex_punctuator Char.rbrace TRBrace) by (simpl; tauto).
      destruct (lex rest); simpl; [rewrite <- app_assoc|]; reflexivity.
    + assumption.
    + apply Forall_forall. intros [k p] Hx rest' Hrest'.
      rewrite <- app_assoc, lex_QuoteJSONString. cbn [app].
      rewrite (lex_punctuator Char.colon TColon) by (simpl; tauto).
      rewrite lex_ws by reflexivity.
      rewrite (proj1 (Forall_forall _ _) IH (k, p) Hx).
      * rewrite !cons_token_app. reflexivity.
      * apply (proj1 (Forall_forall _ _) Hwfl (k, p) Hx).
      * apply (proj1 (forallb_forall _ _) Hfin (k, p) Hx).
      * assumption.
      * assumption.
    + apply number_end_line_feed.
Qed.

End SerializeFacts.

(** ** Objects keep their order when they are built again *)

Section ObjectFacts.
Import JSNumber JSON.

Lemma comes_before_trans (k k' x : jsstring) :
  comes_before k k' = true -> comes_before x k' = false ->
  x <> k /\ comes_before x k = false.
Proof.
  unfold comes_before.
  destruct (array_index k) as [i|] eqn:Hk; [|discriminate].
  destruct (array_index x) as [ix|] eqn:Hx.
  - destruct (array_index k') as [j|]; [|discriminate].
    intros Hij Hxj. apply Z.ltb_lt in Hij. apply Z.ltb_ge in Hxj. split.
    + intros ->. rewrite Hk in Hx. injection Hx as <-. lia.
    + apply Z.ltb_ge. lia.
  - intros _ _. split; [|reflexivity]. intros ->. congruence.
Qed.

Lemma define_property_keys (k : jsstring) (v : json) (props : list (jsstring * json))
    (kv : jsstring * json) :
  In kv (define_property k v props) -> fst kv = k \/ In (fst kv) (map fst props).
Proof.
  induction props as [|[k' v'] tl IH]; cbn [define_property].
  - intros [<-|[]]. left. reflexivity.
  - destruct (jsstring_eqb k k').
    + intros [<-|Hin]; [left; reflexivity|]. right. right. apply in_map. assumption.
    + destruct (comes_before k k').
      * intros [<-|Hin]; [left; reflexivity|]. right. apply (in_map fst) in Hin. assumption.
      * intros [<-|Hin]; [right; left; reflexivity|].
        destruct (IH Hin) as [H|H]; [left; assumption|right; right; assumption].
Qed.

Lemma ordered_define_property (k : jsstring) (v : json) (props : list (jsstring * json)) :
  ordered props -> ordered (define_property k v props).
Proof.
  unfold ordered. intros Hord. induction Hord as [|[k' v'] tl Htl IH Hhd];
    cbn [define_property].
  - repeat constructor.
  - destruct (jsstring_eqb_spec k k') as [->|Hne].
    { constructor; [assumption|]. exact Hhd. }
    destruct (comes_before k k') eqn:Hcb.
    + constructor; [constructor; assumption|]. constructor.
      * split; [assumption|]. cbn [fst].
        unfold comes_before in *. destruct (array_index k) as [i|]; [|discriminate].
        destruct (array_index k') as [j|]; [|reflexivity].
        apply Z.ltb_lt in Hcb. apply Z.ltb_ge. lia.
      * apply Forall_forall. intros [x vx] Hx.
        pose proof (proj1 (Forall_forall _ _) Hhd (x, vx) Hx) as [_ Hxk']. cbn [fst] in *.
        destruct (comes_before_trans k k' x Hcb Hxk') as [Hne' Hcb'].
        unfold key_order. cbn [fst]. split; [congruence|assumption].
    + constructor; [assumption|]. apply Forall_forall. intros kv Hin.
      destruct (define_property_keys _ _ _ _ Hin) as [Hk|Hk].
      * unfold key_order. cbn [fst]. rewrite Hk. split; [congruence|assumption].
      * apply in_map_iff in Hk. destruct Hk as [kv' [Hfst Hin']].
        pose proof (proj1 (Forall_forall _ _) Hhd kv' Hin') as Hord'.
        unfold key_order in *. rewrite <- Hfst. exact Hord'.
Qed.

Lemma ordered_object_of_members (members : list (jsstring * json)) :
  ordered (object_of_members members).
Proof.
  unfold object_of_members.
  assert (forall props, ordered props ->
            ordered (fold_left (fun props kv => define_property (fst kv) (snd kv) props)
                       members props)) as H.
  { induction members as [|kv members IH]; intros props Hord; simpl; [assumption|].
    apply IH, ordered_define_property. assumption. }
  apply H. constructor.
Qed.

(** Defining a key that is in order after all the others appends it. *)
Lemma define_property_last (k : jsstring) (v : json) (props : list (jsstring * json)) :
  Forall (fun kv => key_order kv (k, v)) props ->
  define_property k v props = props ++ [(k, v)].
Proof.
  intros H. induction H as [|[k' v'] tl [Hne Hcb] Htl IH]; cbn [define_property app].
  - reflexivity.
  - cbn [fst] in *. destruct (jsstring_eqb_spec k k') as [->|_]; [contradiction|].
    rewrite Hcb, IH. reflexivity.
Qed.

Lemma ordered_app_last (props : list (jsstring * json)) (kv : jsstring * json) :
  ordered (props ++ [kv]) -> ordered props /\ Forall (fun x => key_order x kv) props.
Proof.
  unfold ordered. induction props as [|a props IH]; cbn [app]; intros H.
  - split; constructor.
  - inversion H as [|? ? Htl Hhd]; subst. destruct (IH Htl) as [Hord Hall].
    apply Forall_app in Hhd. destruct Hhd as [Hhd Hlast].
    split; constructor; try assumption. exact (Forall_inv Hlast).
Qed.

Lemma object_of_members_ordered (props : list (jsstring * json)) :
  ordered props -> object_of_members props = props.
Proof.
  unfold object_of_members. induction props as [|kv props IH] using rev_ind; intros Hord.
  - reflexivity.
  - apply ordered_app_last in Hord. destruct Hord as [Hord Hall].
    rewrite fold_left_app. cbn [fold_left]. rewrite IH by assumption.
    destruct kv as [k v]. apply define_property_last. assumption.
Qed.

Lemma ordered_map_values (f : json -> json) (props : list (jsstring * json)) :
  ordered props -> ordered (map (fun kv => let '(k, p) := kv in (k, f p)) props).
Proof.
  unfold ordered. intros H. induction H as [|[k v] tl Htl IH Hhd]; cbn [map].
  - constructor.
  - constructor; [assumption|]. apply Forall_forall. intros [k' v'] Hin.
    apply in_map_iff in Hin. destruct Hin as [[k0 v0] [Heq Hin]]. injection Heq as <- <-.
    exact (proj1 (Forall_forall _ _) Hhd (k0, v0) Hin).
Qed.

End ObjectFacts.

(** ** The parser reads the tokens of a value back *)

Section ParserFacts.
Import JSNumber JSON.

Lemma parse_value_array (fuel : nat) (t : token) (r : list token) :
  t <> TRBracket ->
  parse_value (S fuel) (TLBracket :: t :: r) =
  match parse_elements fuel (t :: r) with
  | Some (l, r') => Some (JArray l, r')
  | None => None
  end.
Proof. intros Ht. destruct t; try reflexivity. contradiction. Qed.

Lemma parse_value_object (fuel : nat) (t : token) (r : list token) :
  t <> TRBrace ->
  parse_value (S fuel) (TLBrace :: t :: r) =
  match parse_members fuel (t :: r) with
  | Some (ms, r') => Some (JObject (object_of_members ms), r')
  | None => None
  end.
Proof. intros Ht. destruct t; try reflexivity. contradiction. Qed.

Lemma parse_elements_S (fuel : nat) (ts : list token) :
  parse_elements (S fuel) ts =
  match parse_value fuel ts with
  | Some (v, TComma :: r) =>
      match parse_elements fuel r with
      | Some (l, r') => Some (v :: l, r')
      | None => None
      end
  | Some (v, TRBracket :: r) => Some ([v], r)
  | _ => None
  end.
Proof. reflexivity. Qed.

Lemma parse_members_S (fuel : nat) (k : jsstring) (r : list token) :
  parse_members (S fuel) (TString k :: TColon :: r) =
  match parse_value fuel r with
  | Some (v, TComma :: r') =>
      match parse_members fuel r' with
      | Some (ms, r'') => Some ((k, v) :: ms, r'')
      | None => None
      end
  | Some (v, TRBrace :: r') => Some ([(k, v)], r')
  | _ => None
  end.
Proof. reflexivity. Qed.

(** A value starts with a token that closes nothing. *)
Lemma tokens_of_head (v : json) :
  exists t ts, tokens_of v = t :: ts /\ t <> TRBracket /\ t <> TRBrace.
Proof.
  destruct v as [|[|]|x|s|[|e l]|[|kv ps]]; cbn [tokens_of];
    eexists _, _; (split; [reflexivity|split; discriminate]).
Qed.

Lemma tokens_of_length (v : json) : (1 <= length (tokens_of v))%nat.
Proof. destruct (tokens_of_head v) as [t [ts [-> _]]]. simpl. lia. Qed.

Definition reads_back (v : json) : Prop :=
  forall fuel rest,
    wf v -> (2 * length (tokens_of v) <= fuel)%nat ->
    parse_value fuel (tokens_of v ++ rest) = Some (unsigned_zeros v, rest).

Lemma parse_elements_tokens (l : list json) :
  Forall reads_back l -> Forall wf l -> l <> [] ->
  forall fuel rest,
    (2 * length (join [TComma] (map tokens_of l)) + 1 <= fuel)%nat ->
    parse_elements fuel (join [TComma] (map tokens_of l) ++ TRBracket :: rest)
    = Some (map unsigned_zeros l, rest).
Proof.
  intros Hread Hwf. induction Hread as [|e l He Hl IH]; intros Hne fuel rest Hfuel;
    [contradiction|].
  inversion Hwf as [|? ? Hwfe Hwfl]; subst.
  destruct fuel as [|fuel]; [lia|]. rewrite parse_elements_S.
  destruct l as [|e2 l].
  - cbn [map join] in *. rewrite He by (assumption || lia). reflexivity.
  - cbn [map] in *. rewrite join_cons2 in *. rewrite !length_app in Hfuel.
    cbn [length] in Hfuel. rewrite <- !app_assoc. cbn [app].
    rewrite He by (assumption || lia).
    rewrite IH by (assumption || discriminate || lia). reflexivity.
Qed.

Lemma parse_members_tokens (ps : list (jsstring * json)) :
  Forall (fun kv => reads_back (snd kv)) ps -> Forall (fun kv => wf (snd kv)) ps ->
  ps <> [] ->
  forall fuel rest,
    (2 * length (join [TComma]
                   (map (fun kv => let '(k, p) := kv in
                                   TString k :: TColon :: tokens_of p) ps)) + 1
     <= fuel)%nat ->
    parse_members fuel
      (join [TComma]
         (map (fun kv => let '(k, p) := kv in TString k :: TColon :: tokens_of p) ps)
       ++ TRBrace :: rest)
    = Some (map (fun kv => let '(k, p) := kv in (k, unsigned_zeros p)) ps, rest).
Proof.
  intros Hread Hwf. induction Hread as [|[k p] ps Hp Hps IH]; intros Hne fuel rest Hfuel;
    [contradiction|].
  inversion Hwf as [|? ? Hwfp Hwfps]; subst. cbn [snd] in *.
  destruct fuel as [|fuel]; [lia|].
  destruct ps as [|kv2 ps].
  - cbn [map join app length] in *. rewrite parse_members_S.
    rewrite Hp by (assumption || lia). reflexivity.
  - cbn [map] in *. rewrite join_cons2 in *. rewrite !length_app in Hfuel.
    cbn [length] in Hfuel. rewrite <- !app_assoc. cbn [app]. rewrite parse_members_S.
    rewrite <- ?app_assoc. cbn [app].
    rewrite Hp by (assumption || lia).
    rewrite IH by (assumption || discriminate || lia). reflexivity.
Qed.

Lemma parse_value_tokens (v : json) : reads_back v.
Proof.
  induction v as [|b|x|s|l IH|ps IH] using json_ind; intros fuel rest Hwf Hfuel.
  - destruct fuel; [simpl in Hfuel; lia|]. reflexivity.
  - destruct b; (destruct fuel; [simpl in Hfuel; lia|]); reflexivity.
  - destruct fuel; [simpl in Hfuel; lia|]. reflexivity.
  - destruct fuel; [simpl in Hfuel; lia|]. reflexivity.
  - destruct l as [|e l].
    { destruct fuel; [simpl in Hfuel; lia|]. reflexivity. }
    inversion Hwf as [| | | |l' Hwfl|]; subst.
    cbn [tokens_of] in *. cbn [length] in Hfuel. rewrite length_app in Hfuel.
    cbn [length] in Hfuel.
    destruct fuel as [|fuel]; [lia|].
    destruct (tokens_of_head e) as [t [ts [Ht [Hnb _]]]].
    assert (exists ts', join [TComma] (map tokens_of (e :: l)) = t :: ts') as [ts' Hj].
    { destruct l; cbn [map]; [cbn [join]|rewrite join_cons2]; rewrite Ht;
        eexists; reflexivity. }
    cbn [app]. rewrite <- app_assoc. cbn [app].
    pose proof (parse_elements_tokens (e :: l) IH Hwfl ltac:(discriminate) fuel rest
                  ltac:(lia)) as Hel.
    rewrite Hj in *. cbn [app] in *. rewrite parse_value_array by assumption.
    rewrite Hel. reflexivity.
  - destruct ps as [|kv ps].
    { destruct fuel; [simpl in Hfuel; lia|]. reflexivity. }
    inversion Hwf as [| | | | |ps' Hord Hwfl]; subst.
    cbn [tokens_of] in *. cbn [length] in Hfuel. rewrite length_app in Hfuel.
    cbn [length] in Hfuel.
    destruct fuel as [|fuel]; [lia|].
    pose proof (parse_members_tokens (kv :: ps) IH Hwfl ltac:(discriminate) fuel rest
                  ltac:(lia)) as Hms.
    assert (exists k ts',
              join [TComma]
                (map (fun kv => let '(k, p) := kv in TString k :: TColon :: tokens_of p)
                   (kv :: ps)) = TString k :: ts') as [k [ts' Hj]].
    { destruct kv as [k p]. destruct ps; cbn [map]; [cbn [join]|rewrite join_cons2];
        eexists _, _; reflexivity. }
    cbn [app]. rewrite <- app_assoc. cbn [app].
    rewrite Hj in *. cbn [app] in *. rewrite parse_value_object by discriminate.
    rewrite Hms. cbn [unsigned_zeros].
    rewrite object_of_members_ordered by (apply ordered_map_values; assumption).
    reflexivity.
Qed.

End ParserFacts.

(** ** What [JSON.parse] returns is well formed *)

Section ParseOutputFacts.
Import JSNumber JSON.

Lemma StringToNumber_wf (neg : bool) (M E : Z) : wf_number (StringToNumber neg M E).
Proof.
  unfold StringToNumber. destruct (Qnum (decimal_to_Q M E)) as [|n|n]; try exact I.
  destruct (round_pos neg n (Qden (decimal_to_Q M E))) as [s|s m e|s] eqn:Hr; try exact I.
  apply round_pos_canonical in Hr. apply Hr.
Qed.

Lemma lex_number_wf (s : jsstring) (x : number) (r : jsstring) :
  lex_number s = Some (x, r) -> wf_number x.
Proof.
  unfold lex_number.
  destruct (match s with
            | [] => (false, [])
            | c :: rest => if (c =? Char.minus)%N then (true, rest) else (false, s)
            end) as [neg s1].
  destruct (lex_decimal s1) as [[[M E] r']|]; [|discriminate].
  intros H. injection H as <- _. apply StringToNumber_wf.
Qed.

Definition token_wf (t : token) : Prop :=
  match t with
  | TNumber x => wf_number x
  | _ => True
  end.

Lemma cons_token_wf (t : token) (o : option (list token)) (ts : list token) :
  token_wf t -> (forall ts', o = Some ts' -> Forall token_wf ts') ->
  cons_token t o = Some ts -> Forall token_wf ts.
Proof.
  intros Ht Ho. destruct o as [ts'|]; [|discriminate]. intros H. injection H as <-.
  constructor; [assumption|]. apply Ho. reflexivity.
Qed.

Lemma tokenize_wf (fuel : nat) (s : jsstring) (ts : list token) :
  tokenize fuel s = Some ts -> Forall token_wf ts.
Proof.
  revert s ts. induction fuel as [|fuel IH]; intros s ts.
  { destruct s; [|discriminate]. intros H. injection H as <-. constructor. }
  destruct s as [|c rest]; [intros H; injection H as <-; constructor|].
  rewrite tokenize_S.
  destruct (is_ws c); [apply IH|].
  repeat (match goal with
          | |- context [if (c =? ?k)%N then cons_token _ _ else _] =>
              destruct (c =? k)%N; [apply cons_token_wf; [exact I|apply IH]|]
          end).
  destruct (c =? Char.quote)%N.
  { destruct (lex_string rest) as [[str r]|]; [|discriminate].
    apply cons_token_wf; [exact I|apply IH]. }
  destruct ((c =? Char.minus)%N || is_digit c).
  { destruct (lex_number (c :: rest)) as [[x r]|] eqn:Hn; [|discriminate].
    apply cons_token_wf; [exact (lex_number_wf _ _ _ Hn)|apply IH]. }
  destruct (strip_prefix (js "null") (c :: rest));
    [apply cons_token_wf; [exact I|apply IH]|].
  destruct (strip_prefix (js "true") (c :: rest));
    [apply cons_token_wf; [exact I|apply IH]|].
  destruct (strip_prefix (js "false") (c :: rest));
    [apply cons_token_wf; [exact I|apply IH]|discriminate].
Qed.

Lemma parse_value_object_cases (fuel : nat) (ts : list token) :
  parse_value (S fuel) (TLBrace :: ts) =
  match ts with
  | TRBrace :: r => Some (JObject [], r)
  | _ =>
      match parse_members fuel ts with
      | Some (ms, r') => Some (JObject (object_of_members ms), r')
      | None => None
      end
  end.
Proof. destruct ts as [|[] ts]; reflexivity. Qed.

Lemma parse_value_array_cases (fuel : nat) (ts : list token) :
  parse_value (S fuel) (TLBracket :: ts) =
  match ts with
  | TRBracket :: r => Some (JArray [], r)
  | _ =>
      match parse_elements fuel ts with
      | Some (l, r') => Some (JArray l, r')
      | None => None
      end
  end.
Proof. destruct ts as [|[] ts]; reflexivity. Qed.

Lemma Forall_define_property (P : jsstring * json -> Prop) (k : jsstring) (v : json)
    (props : list (jsstring * json)) :
  P (k, v) -> Forall P props -> Forall P (define_property k v props).
Proof.
  intros Hkv Hprops. induction Hprops as [|[k' v'] tl Hhd Htl IH]; cbn [define_property].
  - constructor; [assumption|constructor].
  - destruct (jsstring_eqb k k'); [constructor; assumption|].
    destruct (comes_before k k'); repeat (constructor; try assumption).
Qed.

Lemma Forall_object_of_members (P : jsstring * json -> Prop)
    (members : list (jsstring * json)) :
  Forall P members -> Forall P (object_of_members members).
Proof.
  unfold object_of_members.
  assert (forall props, Forall P props -> Forall P members ->
            Forall P (fold_left (fun props kv => define_property (fst kv) (snd kv) props)
                        members props)) as H.
  { induction members as [|[k v] members IH]; intros props Hprops Hms; simpl;
      [assumption|].
    apply IH; [|exact (Forall_inv_tail Hms)].
    apply Forall_define_property; [exact (Forall_inv Hms)|assumption]. }
  apply H. constructor.
Qed.

Lemma parse_wf_tokens (fuel : nat) :
  (forall ts v r, parse_value fuel ts = Some (v, r) -> Forall token_wf ts ->
                  wf v /\ Forall token_wf r)
  /\ (forall ts l r, parse_elements fuel ts = Some (l, r) -> Forall token_wf ts ->
                     Forall wf l /\ Forall token_wf r)
  /\ (forall ts ms r, parse_members fuel ts = Some (ms, r) -> Forall token_wf ts ->
                      Forall (fun kv => wf (snd kv)) ms /\ Forall token_wf r).
Proof.
  induction fuel as [|fuel [IHv [IHe IHm]]].
  { repeat split; discriminate. }
  split; [|split].
  - intros ts v r Hp Hts. destruct ts as [|t ts]; [discriminate|].
    pose proof (Forall_inv Hts) as Ht. pose proof (Forall_inv_tail Hts) as Htl.
    destruct t; try discriminate.
    + (* object *)
      rewrite parse_value_object_cases in Hp.
      assert (match parse_members fuel ts with
              | Some (ms, r') => Some (JObject (object_of_members ms), r')
              | None => None
              end = Some (v, r) -> wf v /\ Forall token_wf r) as Hgen.
      { destruct (parse_members fuel ts) as [[ms r']|] eqn:Hms; [|discriminate].
        intros H. injection H as <- <-. destruct (IHm _ _ _ Hms Htl) as [Hwf Hr].
        split; [|assumption]. constructor; [apply ordered_object_of_members|].
        apply Forall_object_of_members. assumption. }
      destruct ts as [|[] ts']; try (apply Hgen; assumption).
      injection Hp as <- <-. split; [repeat constructor|exact (Forall_inv_tail Htl)].
    + (* array *)
      rewrite parse_value_array_cases in Hp.
      assert (match parse_elements fuel ts with
              | Some (l, r') => Some (JArray l, r')
              | None => None
              end = Some (v, r) -> wf v /\ Forall token_wf r) as Hgen.
      { destruct (parse_elements fuel ts) as [[l r']|] eqn:Hel; [|discriminate].
        intros H. injection H as <- <-. destruct (IHe _ _ _ Hel Htl) as [Hwf Hr].
        split; [|assumption]. constructor. assumption. }
      destruct ts as [|[] ts']; try (apply Hgen; assumption).
      injection Hp as <- <-. split; [repeat constructor|exact (Forall_inv_tail Htl)].
    + cbn in Hp. injection Hp as <- <-. split; [constructor|assumption].
    + cbn in Hp. injection Hp as <- <-. split; [constructor|assumption].
    + cbn in Hp. injection Hp as <- <-. split; [constructor|assumption].
    + cbn in Hp. injection Hp as <- <-. split; [constructor|assumption].
    + cbn in Hp. injection Hp as <- <-. split; [constructor; assumption|assumption].
  - intros ts l r Hp Hts. rewrite parse_elements_S in Hp.
    destruct (parse_value fuel ts) as [[v r0]|] eqn:Hv; [|discriminate].
    destruct (IHv _ _ _ Hv Hts) as [Hwf Hr0].
    destruct r0 as [|[] r1]; try discriminate.
    + injection Hp as <- <-. split; [repeat constructor; assumption|].
      exact (Forall_inv_tail Hr0).
    + destruct (parse_elements fuel r1) as [[l' r']|] eqn:Hel; [|discriminate].
      injection Hp as <- <-. destruct (IHe _ _ _ Hel (Forall_inv_tail Hr0)) as [Hl Hr].
      split; [constructor; assumption|assumption].
  - intros ts ms r Hp Hts.
    destruct ts as [|[| | | | | | | | |k|] [|[] ts]]; try discriminate.
    rewrite parse_members_S in Hp.
    pose proof (Forall_inv_tail (Forall_inv_tail Hts)) as Htl.
    destruct (parse_value fuel ts) as [[v r0]|] eqn:Hv; [|discriminate].
    destruct (IHv _ _ _ Hv Htl) as [Hwf Hr0].
    destruct r0 as [|[] r1]; try discriminate.
    + injection Hp as <- <-. split; [repeat constructor; assumption|].
      exact (Forall_inv_tail Hr0).
    + destruct (parse_members fuel r1) as [[ms' r']|] eqn:Hms; [|discriminate].
      injection Hp as <- <-. destruct (IHm _ _ _ Hms (Forall_inv_tail Hr0)) as [Hl Hr].
      split; [constructor; assumption|assumption].
Qed.

(** Every value [JSON.parse] returns is well formed. *)
Lemma parse_wf (text : jsstring) (v : json) : parse text = Some v -> wf v.
Proof.
  unfold parse. destruct (tokenize (length text) text) as [ts|] eqn:Hts; [|discriminate].
  destruct (parse_value (2 * length ts + 1) ts) as [[v' [|t r]]|] eqn:Hv; try discriminate.
  intros H. injection H as <-.
  destruct (parse_wf_tokens (2 * length ts + 1)) as [Hwf _].
  exact (proj1 (Hwf _ _ _ Hv (tokenize_wf _ _ _ Hts))).
Qed.

(** ** The round trip *)



(** Parsing what [JSON.stringify] wrote for a well-formed value without
    infinities gives the value back, up to the sign of zero. *)
Lemma parse_stringify (v : json) :
  wf v -> all_finite v = true -> parse (stringify v) = Some (unsigned_zeros v).
Proof.
  intros Hwf Hfin. unfold parse, stringify.
  pose proof (lex_serialize v [] [] Hwf Hfin eq_refl I) as Hlex.
  rewrite app_nil_r in Hlex. unfold lex in Hlex. rewrite Hlex.
  change (tokenize (length (@nil N)) []) with (Some (@nil token)). cbn [option_map].
  rewrite parse_value_tokens; [reflexivity|assumption|].
  rewrite app_nil_r. lia.
Qed.


End ParseOutputFacts.

(** ** The parser never runs out of fuel *)

Section ParserFuel.
Import JSNumber JSON.
Local Open Scope nat_scope.

(** A parse that succeeds with some fuel consumes at least one token and
    succeeds with twice as much fuel as tokens consumed. *)
Lemma parse_fuel (fuel : nat) :
  (forall ts v r, parse_value fuel ts = Some (v, r) ->
     length r < length ts /\
     forall fuel', 2 * (length ts - length r) <= fuel' ->
                   parse_value fuel' ts = Some (v, r))
  /\ (forall ts l r, parse_elements fuel ts = Some (l, r) ->
        length r < length ts /\
        forall fuel', 2 * (length ts - length r) <= fuel' ->
                      parse_elements fuel' ts = Some (l, r))
  /\ (forall ts ms r, parse_members fuel ts = Some (ms, r) ->
        length r < length ts /\
        forall fuel', 2 * (length ts - length r) <= fuel' ->
                      parse_members fuel' ts = Some (ms, r)).
Proof.
  induction fuel as [|fuel [IHv [IHe IHm]]].
  { repeat split; discriminate. }
  split; [|split].
  - intros ts v r Hp. destruct ts as [|t ts]; [discriminate|].
    destruct t; try discriminate.
    + rewrite parse_value_object_cases in Hp.
      assert (match parse_members fuel ts with
              | Some (ms, r') => Some (JObject (object_of_members ms), r')
              | None => None
              end = Some (v, r) ->
              length r < length ts /\
              forall fuel', 2 * (length ts - length r) + 1 <= fuel' ->
                match parse_members fuel' ts with
                | Some (ms, r') => Some (JObject (object_of_members ms), r')
                | None => None
                end = Some (v, r)) as Hgen.
      { destruct (parse_members fuel ts) as [[ms r']|] eqn:Hms; [|discriminate].
        intros H. injection H as <- <-. destruct (IHm _ _ _ Hms) as [Hlen Hfuel].
        split; [assumption|]. intros fuel' Hf. rewrite Hfuel by lia. reflexivity. }
      destruct ts as [|t' ts'].
      * destruct (Hgen Hp) as [Hlen _]. cbn [length] in Hlen. lia.
      * destruct t';
          try (destruct (Hgen Hp) as [Hlen Hfuel]; split; [cbn [length] in *; lia|];
               intros [|fuel'] Hf; [cbn [length] in *; lia|];
               rewrite parse_value_object_cases; apply Hfuel; cbn [length] in *; lia).
        injection Hp as <- <-. split; [cbn [length]; lia|].
        intros [|fuel'] Hf; [cbn [length] in Hf; lia|reflexivity].
    + rewrite parse_value_array_cases in Hp.
      assert (match parse_elements fuel ts with
              | Some (l, r') => Some (JArray l, r')
              | None => None
              end = Some (v, r) ->
              length r < length ts /\
              forall fuel', 2 * (length ts - length r) + 1 <= fuel' ->
                match parse_elements fuel' ts with
                | Some (l, r') => Some (JArray l, r')
                | None => None
                end = Some (v, r)) as Hgen.
      { destruct (parse_elements fuel ts) as [[l r']|] eqn:Hel; [|discriminate].
        intros H. injection H as <- <-. destruct (IHe _ _ _ Hel) as [Hlen Hfuel].
        split; [assumption|]. intros fuel' Hf. rewrite Hfuel by lia. reflexivity. }
      destruct ts as [|t' ts'].
      * destruct (Hgen Hp) as [Hlen _]. cbn [length] in Hlen. lia.
      * destruct t';
          try (destruct (Hgen Hp) as [Hlen Hfuel]; split; [cbn [length] in *; lia|];
               intros [|fuel'] Hf; [cbn [length] in *; lia|];
               rewrite parse_value_array_cases; apply Hfuel; cbn [length] in *; lia).
        injection Hp as <- <-. split; [cbn [length]; lia|].
        intros [|fuel'] Hf; [cbn [length] in Hf; lia|reflexivity].
    + cbn in Hp. injection Hp as <- <-. split; [cbn [length]; lia|].
      intros [|fuel'] Hf; [cbn [length] in Hf; lia|reflexivity].
    + cbn in Hp. injection Hp as <- <-. split; [cbn [length]; lia|].
      intros [|fuel'] Hf; [cbn [length] in Hf; lia|reflexivity].
    + cbn in Hp. injection Hp as <- <-. split; [cbn [length]; lia|].
      intros [|fuel'] Hf; [cbn [length] in Hf; lia|reflexivity].
    + cbn in Hp. injection Hp as <- <-. split; [cbn [length]; lia|].
      intros [|fuel'] Hf; [cbn [length] in Hf; lia|reflexivity].
    + cbn in Hp. injection Hp as <- <-. split; [cbn [length]; lia|].
      intros [|fuel'] Hf; [cbn [length] in Hf; lia|reflexivity].
  - intros ts l r Hp. rewrite parse_elements_S in Hp.
    destruct (parse_value fuel ts) as [[v r0]|] eqn:Hv; [|discriminate].
    destruct (IHv _ _ _ Hv) as [Hlen Hfuel].
    destruct r0 as [|[] r1]; try discriminate.
    + injection Hp as <- <-. cbn [length] in Hlen. split; [lia|].
      intros [|fuel'] Hf; [lia|]. rewrite parse_elements_S, Hfuel by (cbn [length]; lia).
      reflexivity.
    + destruct (parse_elements fuel r1) as [[l' r']|] eqn:Hel; [|discriminate].
      injection Hp as <- <-. destruct (IHe _ _ _ Hel) as [Hlen' Hfuel'].
      cbn [length] in Hlen. split; [lia|].
      intros [|fuel'] Hf; [lia|].
      rewrite parse_elements_S, Hfuel by (cbn [length]; lia). rewrite Hfuel' by lia.
      reflexivity.
  - intros ts ms r Hp.
    destruct ts as [|[| | | | | | | | |k|] [|[] ts]]; try discriminate.
    rewrite parse_members_S in Hp.
    destruct (parse_value fuel ts) as [[v r0]|] eqn:Hv; [|discriminate].
    destruct (IHv _ _ _ Hv) as [Hlen Hfuel].
    destruct r0 as [|[] r1]; try discriminate.
    + injection Hp as <- <-. cbn [length] in Hlen. split; [cbn [length]; lia|].
      intros [|fuel'] Hf; [cbn [length] in Hf; lia|].
      rewrite parse_members_S, Hfuel by (cbn [length] in *; lia). reflexivity.
    + destruct (parse_members fuel r1) as [[ms' r']|] eqn:Hms; [|discriminate].
      injection Hp as <- <-. destruct (IHm _ _ _ Hms) as [Hlen' Hfuel'].
      cbn [length] in Hlen. split; [cbn [length]; lia|].
      intros [|fuel'] Hf; [cbn [length] in Hf; lia|].
      rewrite parse_members_S, Hfuel by (cbn [length] in *; lia).
      rewrite Hfuel' by (cbn [length] in *; lia). reflexivity.
Qed.

(** The fuel [JSON.parse] gives the parser is enough: a token list that
    parses with any fuel parses with it. *)
Lemma parse_value_fuel_enough (fuel : nat) (ts : list token) (v : json) (r : list token) :
  parse_value fuel ts = Some (v, r) ->
  parse_value (2 * length ts + 1) ts = Some (v, r).
Proof.
  intros Hp. destruct (parse_fuel fuel) as [Hv _].
  destruct (Hv _ _ _ Hp) as [_ Hfuel]. apply Hfuel. lia.
Qed.

Lemma cons_token_more (t : token) (o o' : option (list token)) (ts : list token) :
  (forall ts0, o = Some ts0 -> o' = Some ts0) ->
  cons_token t o = Some ts -> cons_token t o' = Some ts.
Proof.
  intros H. destruct o as [ts0|]; [|discriminate]. rewrite (H ts0 eq_refl). trivial.
Qed.

Lemma tokenize_more_fuel (fuel fuel' : nat) (s : jsstring) (ts : list token) :
  tokenize fuel s = Some ts -> fuel <= fuel' -> tokenize fuel' s = Some ts.
Proof.
  revert fuel' s ts. induction fuel as [|fuel IH]; intros fuel' s ts.
  { destruct s; [|discriminate]. intros H _. destruct fuel'; exact H. }
  destruct s as [|c rest]; [intros H _; destruct fuel'; exact H|].
  destruct fuel' as [|fuel']; [intros _ Hle; lia|]. intros H Hle. revert H.
  assert (forall r ts0, tokenize fuel r = Some ts0 -> tokenize fuel' r = Some ts0) as Hrec
    by (intros r ts0 H; apply (IH fuel' r ts0 H); lia).
  rewrite !tokenize_S.
  destruct (is_ws c); [apply Hrec|].
  repeat (match goal with
          | |- context [if (c =? ?k)%N then cons_token _ _ else _] =>
              destruct (c =? k)%N; [apply cons_token_more, Hrec|]
          end).
  destruct (c =? Char.quote)%N.
  { destruct (lex_string rest) as [[str r]|]; [|discriminate].
    apply cons_token_more, Hrec. }
  destruct ((c =? Char.minus)%N || is_digit c).
  { destruct (lex_number (c :: rest)) as [[x r]|]; [|discriminate].
    apply cons_token_more, Hrec. }
  destruct (strip_prefix (js "null") (c :: rest)); [apply cons_token_more, Hrec|].
  destruct (strip_prefix (js "true") (c :: rest)); [apply cons_token_more, Hrec|].
  destruct (strip_prefix (js "false") (c :: rest)); [apply cons_token_more, Hrec|].
  discriminate.
Qed.

(** [JSON.parse] fails only on a text that is not JSON: a text that the
    tokenizer and the parser accept with any fuel is accepted by
    [parse]. *)
Lemma parse_complete (fuel1 fuel2 : nat) (text : jsstring) (ts : list token) (v : json) :
  tokenize fuel1 text = Some ts -> parse_value fuel2 ts = Some (v, []) ->
  parse text = Some v.
Proof.
  intros Ht Hv. unfold parse.
  rewrite <- (tokenize_fuel (max fuel1 (length text)) (length text) text) by lia.
  rewrite (tokenize_more_fuel _ _ _ _ Ht) by lia.
  rewrite (parse_value_fuel_enough _ _ _ _ Hv). reflexivity.
Qed.

End ParserFuel.

(** ** The model on known values *)

Section KnownValues.
Import JSNumber JSON.

Example NumberToString_tenth :
  NumberToString (StringToNumber false 1 (-1)) = js "0.1".
Proof. vm_compute. reflexivity. Qed.

Example NumberToString_exponent :
  NumberToString (StringToNumber false 1 21) = js "1e+21"
  /\ NumberToString (StringToNumber false 1 (-7)) = js "1e-7"
  /\ NumberToString (StringToNumber true 12345 (-2)) = js "-123.45".
Proof. vm_compute. repeat split. Qed.

Example NumberToString_rounded :
  NumberToString (StringToNumber false 123456789012345678901 0)
  = js "123456789012345680000"
  /\ NumberToString (StringToNumber false 9007199254740993 0) = js "9007199254740992".
Proof. vm_compute. split; reflexivity. Qed.

Example StringToNumber_subnormal :
  StringToNumber false 5 (-324) = Finite false 1 (-1074)
  /\ StringToNumber false 2 (-324) = Zero false
  /\ StringToNumber true 1 (-400) = Zero true.
Proof. vm_compute. repeat split. Qed.

Example parse_overflow : parse (js "1e400") = Some (JNumber (Infinity false)).
Proof. vm_compute. reflexivity. Qed.

Example parse_rejects :
  parse (js "[1,]") = None /\ parse (js "01") = None /\ parse (js "{not json") = None
  /\ parse (js "tru") = None /\ parse (js "1 2") = None /\ parse (js "") = None.
Proof. vm_compute. repeat split. Qed.

(** Array indices come first, in ascending order; a repeated key keeps
    its place. *)
Example parse_key_order :
  option_map (fun v => match v with JObject ps => map fst ps | _ => [] end)
    (parse (js "{" ++ quoted "b" ++ js ":1," ++ quoted "10" ++ js ":2,"
              ++ quoted "a" ++ js ":3," ++ quoted "2" ++ js ":4,"
              ++ quoted "b" ++ js ":5}"))
  = Some [js "2"; js "10"; js "b"; js "a"].
Proof. vm_compute. reflexivity. Qed.

Example stringify_indents :
  option_map stringify (parse (js "[1,[true,{}],[]]"))
  = Some (js "[" ++ Char.line_feed :: js "  1," ++ Char.line_feed
            :: js "  [" ++ Char.line_feed :: js "    true," ++ Char.line_feed
            :: js "    {}" ++ Char.line_feed :: js "  ]," ++ Char.line_feed
            :: js "  []" ++ Char.line_feed :: js "]").
Proof. vm_compute. reflexivity. Qed.

End KnownValues.

(** ** Promise.all *)

Section PromiseAllFacts.
Context {A : Type}.
Implicit Types (st : PromiseAll.state A) (l : list (option A)).

Import PromiseAll.

Lemma nth_error_set_nth l i j x :
  nth_error (set_nth l i x) j =
  if Nat.eqb j i then option_map (fun _ => Some x) (nth_error l j) else nth_error l j.
Proof.
  revert i j; induction l as [|hd tl IH]; intros i j.
  - destruct i, j; simpl; try reflexivity. destruct (Nat.eqb j i); reflexivity.
  - destruct i, j; simpl; try reflexivity. apply IH.
Qed.

(** The slots agree with the fulfilment values [vs] wherever they are
    filled. *)
Definition agree l (vs : list A) : Prop :=
  Forall2 (fun o v => o = None \/ o = Some v) l vs.

Lemma agree_repeat (vs : list A) : agree (repeat None (length vs)) vs.
Proof. induction vs; simpl; constructor; auto. Qed.

Lemma agree_set_nth l vs i x :
  agree l vs -> nth_error vs i = Some x -> agree (set_nth l i x) vs.
Proof.
  intros H; revert i; induction H as [|o v l vs Hov H IH]; intros [|i] Hi;
    simpl in *; try discriminate.
  - injection Hi as ->. constructor; auto.
  - constructor; [assumption|]. apply IH. assumption.
Qed.

Lemma agree_from_values l vs :
  agree l vs -> (forall i, nth_error l i <> Some None) -> from_values l = Some vs.
Proof.
  intros H; induction H as [|o v l vs Hov H IH]; intros Hfull; simpl.
  - reflexivity.
  - destruct Hov as [->| ->].
    + exfalso. apply (Hfull O). reflexivity.
    + rewrite IH; [reflexivity|]. intros i. apply (Hfull (S i)).
Qed.

(** [todo] lists exactly the indices of the promises that have not
    settled yet, and the result promise is pending. *)
Record pending st (todo : list nat) : Prop := {
  pending_holes : forall i, In i todo <-> nth_error (values st) i = Some None;
  pending_count : remainingElementsCount st = length todo;
  pending_result : result st = None;
  pending_nodup : NoDup todo
}.

Lemma pending_start (n : nat) (schedule : list nat) :
  Permutation schedule (seq 0 n) -> n <> O -> pending (start n) schedule.
Proof.
  intros Hperm Hn. split; simpl.
  - intros i. rewrite (Permutation_in' (eq_refl i) Hperm), in_seq. split.
    + intros [_ Hi]. rewrite nth_error_repeat by exact Hi. reflexivity.
    + intros Hi. assert (nth_error (repeat (@None A) n) i <> None) as Hlt by congruence.
      apply nth_error_Some in Hlt. rewrite repeat_length in Hlt. lia.
  - rewrite (Permutation_length Hperm), length_seq. reflexivity.
  - destruct n; congruence.
  - apply (Permutation_NoDup (Permutation_sym Hperm)), seq_NoDup.
Qed.

(** A fulfilment that is not the last one leaves the result pending. *)
Lemma pending_fulfil st i todo x :
  pending st (i :: todo) -> todo <> [] ->
  pending (react st i (Normal x)) todo.
Proof.
  intros [Hholes Hcount Hres Hnd] Hne. unfold react.
  rewrite (proj1 (Hholes i) (or_introl eq_refl)). simpl.
  rewrite Hcount. simpl. destruct todo as [|j todo']; [congruence|]. simpl.
  inversion Hnd as [|? ? Hnotin Hnd']; subst. split; simpl; auto.
  intros k. rewrite nth_error_set_nth. destruct (Nat.eqb_spec k i) as [->|Hk].
  - split; [intros Hin; contradiction|].
    destruct (nth_error (values st) i) as [o|]; simpl; congruence.
  - rewrite <- Hholes. simpl. intuition congruence.
Qed.

(** The last fulfilment resolves the result promise with the values. *)
Lemma pending_fulfil_last st i x vs :
  pending st [i] -> agree (values st) vs -> nth_error vs i = Some x ->
  result (react st i (Normal x)) = Some (Normal vs).
Proof.
  intros [Hholes Hcount Hres Hnd] Hag Hi. unfold react.
  rewrite (proj1 (Hholes i) (or_introl eq_refl)). simpl.
  rewrite Hcount. simpl. unfold settle. simpl. rewrite Hres. simpl.
  rewrite (agree_from_values _ vs); [reflexivity| |].
  - apply agree_set_nth; assumption.
  - intros k. rewrite nth_error_set_nth. destruct (Nat.eqb_spec k i) as [->|Hk].
    + destruct (nth_error (values st) i); simpl; congruence.
    + rewrite <- Hholes. simpl. intuition congruence.
Qed.

(** A settled result promise stays as it is. *)
Lemma react_settled st i (c : completion A) r :
  result st = Some r -> result (react st i c) = Some r.
Proof.
  intros Hres. unfold react, settle. destruct c as [x|e].
  - destruct (nth_error (values st) i) as [[y|]|]; try assumption. simpl.
    destruct (pred (remainingElementsCount st)); simpl; rewrite ?Hres; simpl; auto.
  - rewrite Hres. assumption.
Qed.

Lemma fold_react_settled (outcomes : list (completion A)) schedule st r :
  result st = Some r ->
  result (fold_left
            (fun st index =>
               match nth_error outcomes index with
               | Some c => react st index c
               | None => st
               end) schedule st) = Some r.
Proof.
  revert st; induction schedule as [|i schedule IH]; intros st Hres; simpl.
  - assumption.
  - apply IH. destruct (nth_error outcomes i); [apply react_settled|]; assumption.
Qed.

End PromiseAllFacts.

(** ** Promise.all over a schedule *)

Section PromiseAllRuns.
Context {A : Type}.
Variable outcomes : list (completion A).
Import PromiseAll.

Definition run (schedule : list nat) (st : state A) : state A :=
  fold_left
    (fun st index =>
       match nth_error outcomes index with
       | Some c => react st index c
       | None => st
       end)
    schedule st.

Lemma all_run (schedule : list nat) :
  all outcomes schedule = result (run schedule (start (length outcomes))).
Proof. reflexivity. Qed.

Lemma run_app (s1 s2 : list nat) (st : state A) :
  run (s1 ++ s2) st = run s2 (run s1 st).
Proof. apply fold_left_app. Qed.

Lemma agree_react (st : state A) (vs : list A) (i : nat) (x : A) :
  agree (values st) vs -> nth_error vs i = Some x ->
  agree (values (react st i (Normal x))) vs.
Proof.
  intros Hag Hi. unfold react.
  destruct (nth_error (values st) i) as [[y|]|]; try assumption. simpl.
  destruct (pred (remainingElementsCount st)); simpl.
  - unfold settle; simpl. destruct (result st); simpl; apply agree_set_nth; assumption.
  - apply agree_set_nth; assumption.
Qed.

(** While fulfilments come in and some promise is still to settle, the
    result stays pending. *)
Lemma run_fulfil_pending (before todo : list nat) (st : state A) :
  pending st (before ++ todo) -> todo <> [] ->
  (forall j, In j before -> exists x, nth_error outcomes j = Some (Normal x)) ->
  pending (run before st) todo.
Proof.
  revert st; induction before as [|i before IH]; intros st Hp Hne Hok; simpl.
  - assumption.
  - destruct (Hok i (or_introl eq_refl)) as [x ->].
    apply IH; [|assumption|intros j Hj; apply Hok; right; assumption].
    apply pending_fulfil; [assumption|]. destruct before; simpl; [assumption|discriminate].
Qed.

Lemma run_fulfil_agree (before : list nat) (st : state A) (vs : list A) :
  agree (values st) vs ->
  (forall j, In j before ->
     exists x, nth_error outcomes j = Some (Normal x) /\ nth_error vs j = Some x) ->
  agree (values (run before st)) vs.
Proof.
  revert st; induction before as [|i before IH]; intros st Hag Hok; simpl.
  - assumption.
  - destruct (Hok i (or_introl eq_refl)) as [x [-> Hx]].
    apply IH; [|intros j Hj; apply Hok; right; assumption].
    apply agree_react; assumption.
Qed.

(** All promises fulfil: the result is the list of their values, in the
    order of the input, whatever the order they settle in. *)
Lemma all_fulfilled (vs : list A) (schedule : list nat) :
  outcomes = map Normal vs ->
  Permutation schedule (seq 0 (length outcomes)) ->
  all outcomes schedule = Some (Normal vs).
Proof.
  intros Hout Hperm. rewrite all_run.
  assert (length outcomes = length vs) as Hlen by (rewrite Hout; apply length_map).
  assert (forall j, In j schedule ->
            exists x, nth_error outcomes j = Some (Normal x) /\ nth_error vs j = Some x)
    as Hok.
  { intros j Hj. apply (Permutation_in _ Hperm), in_seq in Hj.
    destruct (nth_error vs j) as [x|] eqn:Hx.
    - exists x. split; [|reflexivity]. rewrite Hout. apply map_nth_error. assumption.
    - apply nth_error_None in Hx. lia. }
  destruct outcomes as [|c0 outcomes0] eqn:Hout0.
  { apply Permutation_sym, Permutation_nil in Hperm. subst schedule.
    destruct vs; [reflexivity|discriminate]. }
  rewrite <- Hout0 in *.
  assert (length outcomes <> O) as Hn by (rewrite Hout0; discriminate).
  clear Hout0 c0 outcomes0.
  destruct (@exists_last _ schedule) as [before [i Hsplit]].
  { intros ->. apply Permutation_nil in Hperm.
    destruct (length outcomes); [contradiction|discriminate]. }
  subst schedule. rewrite run_app.
  pose proof (pending_start (A := A) _ _ Hperm Hn) as Hp.
  apply run_fulfil_pending in Hp;
    [|discriminate|intros j Hj; destruct (Hok j) as [x [Hx _]];
                   [apply in_or_app; left; assumption|exists x; assumption]].
  destruct (Hok i) as [x [Hi Hx]]; [apply in_or_app; right; left; reflexivity|].
  simpl. rewrite Hi. apply pending_fulfil_last; [assumption| |assumption].
  apply run_fulfil_agree.
  - simpl. rewrite Hlen. apply agree_repeat.
  - intros j Hj. apply Hok, in_or_app. left. assumption.
Qed.

(** Some promise rejects: the result is rejected with the reason of the
    first rejection in settlement order. *)
Lemma all_rejected (before after : list nat) (i : nat) (reason : thrown) :
  Permutation (before ++ i :: after) (seq 0 (length outcomes)) ->
  (forall j, In j before -> exists x, nth_error outcomes j = Some (Normal x)) ->
  nth_error outcomes i = Some (Throw reason) ->
  all outcomes (before ++ i :: after) = Some (Throw reason).
Proof.
  intros Hperm Hok Hi. rewrite all_run, run_app.
  assert (length outcomes <> O) as Hn.
  { intros Hz. rewrite Hz in Hperm. apply Permutation_sym, Permutation_nil in Hperm.
    destruct before; discriminate. }
  pose proof (pending_start (A := A) _ _ Hperm Hn) as Hp.
  apply run_fulfil_pending in Hp; [|discriminate|assumption].
  simpl. rewrite Hi. apply fold_react_settled.
  unfold react, settle. rewrite (pending_result _ _ Hp). reflexivity.
Qed.

End PromiseAllRuns.

(* ================================================================== *)
(** * TextExtractor *)
(* ================================================================== *)

Section TextExtractorFacts.
Variable host : Host.
Import TextExtractor.



Lemma well_formed_failure reason : well_formed (failure reason).
Proof. intros _. reflexivity. Qed.

Lemma well_formed_success t : well_formed (success t).
Proof. intros H. contradiction H. reflexivity. Qed.

(** [try_catch] with a handler that returns never throws. *)
Lemma try_catch_returns {A} (body : M A) (handler : thrown -> A) :
  outcome (try_catch body (fun e => ret (handler e))) =
  Normal match outcome body with
         | Normal a => a
         | Throw e => handler e
         end.
Proof. destruct body as [tr [a|e]]; reflexivity. Qed.

Lemma trace_try_catch_ret {A} (body : M A) (handler : thrown -> A) :
  trace (try_catch body (fun e => ret (handler e))) = trace body.
Proof. destruct body as [tr [a|e]]; simpl; [reflexivity|apply app_nil_r]. Qed.

Lemma extractPlainText_spec (file : File) :
  extractPlainText host file =
  ([Call_file_text],
   Normal
     match File.text file with
     | Throw e => failure (message_or (js "Failed to read text file") e)
     | Normal s =>
         if jsstring_eqb (File.type file) (js "application/json") then
           match JSON.parse s with
           | Some v =>
               if (JSON.depth v <=? stack_depth host)%nat then success (JSON.stringify v)
               else success s
           | None => success s
           end
         else success s
     end).
Proof.
  unfold extractPlainText, JSON_parse, JSON_stringify.
  destruct (File.text file) as [s|e]; simpl; [|reflexivity].
  destruct (jsstring_eqb (File.type file) (js "application/json")); [|reflexivity].
  destruct (JSON.parse s) as [v|]; [|reflexivity]. simpl.
  destruct (JSON.depth v <=? stack_depth host)%nat; reflexivity.
Qed.

Lemma extractOfficeDocument_spec (file : File) :
  exists tr,
    extractOfficeDocument host file =
    (Call_file_arrayBuffer :: tr,
     Normal
       match File.arrayBuffer file with
       | Throw e => failure (message_or (js "Failed to extract text from office document") e)
       | Normal arrayBuffer =>
           match Buffer_from host arrayBuffer with
           | Throw e =>
               failure (message_or (js "Failed to extract text from office document") e)
           | Normal buffer =>
               match officeExtractor_extractText host buffer with
               | Throw e =>
                   failure (message_or (js "Failed to extract text from office document") e)
               | Normal t => success t
               end
           end
       end).
Proof.
  unfold extractOfficeDocument.
  destruct (File.arrayBuffer file) as [arrayBuffer|e]; simpl; [|eexists; reflexivity].
  destruct (Buffer_from host arrayBuffer) as [buffer|e]; simpl; [|eexists; reflexivity].
  destruct (officeExtractor_extractText host buffer) as [t|e]; simpl; eexists; reflexivity.
Qed.


Lemma extractText_plain (file : File) :
  is_plain (File.type file) = true ->
  extractText host file =
  (Call_extractPlainText :: trace (extractPlainText host file),
   outcome (extractPlainText host file)).
Proof.
  unfold is_plain, extractText, extractText_with. intros ->.
  rewrite extractPlainText_spec. reflexivity.
Qed.

Lemma extractText_office (file : File) :
  is_plain (File.type file) = false -> isOfficeDocument (File.type file) = true ->
  extractText host file =
  (Call_extractOfficeDocument :: trace (extractOfficeDocument host file),
   outcome (extractOfficeDocument host file)).
Proof.
  unfold is_plain, extractText, extractText_with. intros -> ->.
  destruct (extractOfficeDocument_spec file) as [tr ->]. reflexivity.
Qed.

Lemma extractText_unsupported (file : File) :
  is_plain (File.type file) = false -> isOfficeDocument (File.type file) = false ->
  extractText host file =
  ([], Normal (failure (js "Unsupported file type: " ++ File.type file))).
Proof.
  unfold is_plain, extractText, extractText_with. intros -> ->. reflexivity.
Qed.

(** Every run of [extractText] returns a result, and the result
    satisfies the invariant. *)
Lemma extractText_returns (file : File) :
  exists r, outcome (extractText host file) = Normal r /\ well_formed r.
Proof.
  destruct (is_plain (File.type file)) eqn:Hplain.
  - rewrite (extractText_plain _ Hplain), extractPlainText_spec. simpl.
    eexists; split; [reflexivity|].
    destruct (File.text file); [|apply well_formed_failure].
    destruct (jsstring_eqb _ _);
      [destruct (JSON.parse _) as [v|]; [destruct (JSON.depth v <=? _)%nat|]|];
      apply well_formed_success.
  - destruct (isOfficeDocument (File.type file)) eqn:Hoffice.
    + rewrite (extractText_office _ Hplain Hoffice).
      destruct (extractOfficeDocument_spec file) as [tr ->]. simpl.
      eexists; split; [reflexivity|].
      destruct (File.arrayBuffer file); [|apply well_formed_failure].
      destruct (Buffer_from host _); [|apply well_formed_failure].
      destruct (officeExtractor_extractText host _);
        [apply well_formed_success|apply well_formed_failure].
    + rewrite (extractText_unsupported _ Hplain Hoffice). simpl.
      eexists; split; [reflexivity|apply well_formed_failure].
Qed.

End TextExtractorFacts.


(** ** Deeply nested arrays *)

Section DeepNesting.
Import JSNumber JSON.








End DeepNesting.


(* ================================================================== *)
(** * Properties of the pipeline *)
(* ================================================================== *)


(** C1: [extractText] never propagates an exception.  For every host and
    file it returns a result, and the result is well formed; and whatever
    the two private methods do, [extractText] returns a result, which is
    well formed when the results the private methods return are, and a
    failure raised by the method it dispatches to is caught by the outer
    handler and returned as the result with empty text and, as error,
    the message of the failure when it is an Error, and
    [Unknown error occurred] when it is not. *)
Theorem extractText_never_throws :
  (forall (host : Host) (file : File),
     exists r,
       outcome (TextExtractor.extractText host file) = Normal r /\ well_formed r)
  /\
  (forall (plain office : File -> M TextExtractionResult) (file : File),
     exists r,
       outcome (TextExtractor.extractText_with plain office file) = Normal r /\
       (forall e,
          (is_plain (File.type file) = true /\ outcome (plain file) = Throw e) \/
          (is_plain (File.type file) = false /\
           TextExtractor.isOfficeDocument (File.type file) = true /\
           outcome (office file) = Throw e) ->
          r = {| text := [];
                 error := Some match e with
                               | ErrorObject message => message
                               | NonError => js "Unknown error occurred"
                               end |}) /\
       ((forall r0, outcome (plain file) = Normal r0 -> well_formed r0) ->
        (forall r0, outcome (office file) = Normal r0 -> well_formed r0) ->
        well_formed r)).
Proof.
  split.
  - intros host file. exact (extractText_returns host file).
  - intros plain office file. unfold TextExtractor.extractText_with, is_plain.
    rewrite try_catch_returns.
    eexists; split; [reflexivity|]. split.
    + intros e [[Hp He]|[Hp [Ho He]]].
      * rewrite Hp. unfold outcome, bind, perform in *. simpl.
        destruct (plain file) as [tr c]. simpl in *. subst c. destruct e; reflexivity.
      * rewrite Hp, Ho. unfold outcome, bind, perform in *. simpl.
        destruct (office file) as [tr c]. simpl in *. subst c. destruct e; reflexivity.
    + intros Hplain Hoffice.
      destruct (jsstring_eqb (File.type file) (js "text/plain")
                || jsstring_eqb (File.type file) (js "application/json")).
      * unfold outcome, bind, perform in *. simpl.
        destruct (plain file) as [tr [r0|e]]; simpl in *;
          [apply Hplain; reflexivity|apply well_formed_failure].
      * destruct (TextExtractor.isOfficeDocument (File.type file)).
        -- unfold outcome, bind, perform in *. simpl.
           destruct (office file) as [tr [r0|e]]; simpl in *;
             [apply Hoffice; reflexivity|apply well_formed_failure].
        -- apply well_formed_failure.
Qed.

Lemma extractText_never_throws_witness :
  outcome (TextExtractor.extractText_with
             (fun _ => throw (ErrorObject (js "disk failure"))) (fun _ => ret (success []))
             (sample_file "text/plain" "abc"))
  = Normal {| text := []; error := Some (js "disk failure") |}
  /\ outcome (TextExtractor.extractText_with
                (fun _ => ret (success [])) (fun _ => throw NonError)
                (sample_file "application/pdf" "abc"))
     = Normal {| text := []; error := Some (js "Unknown error occurred") |}.
Proof.
  split.
  - destruct (proj2 extractText_never_throws
                (fun _ => throw (ErrorObject (js "disk failure")))
                (fun _ => ret (success []))
                (sample_file "text/plain" "abc")) as [r [Hr [Hcaught _]]].
    rewrite Hr. f_equal. apply (Hcaught (ErrorObject (js "disk failure"))).
    left. split; reflexivity.
  - destruct (proj2 extractText_never_throws
                (fun _ => ret (success [])) (fun _ => throw NonError)
                (sample_file "application/pdf" "abc")) as [r [Hr [Hcaught _]]].
    rewrite Hr. f_equal. apply (Hcaught NonError).
    right. split; [reflexivity|]. split; reflexivity.
Defined.

(** C2: in every result [extractText] returns, a present [error] comes
    with an empty [text]. *)
Theorem extractText_error_implies_empty_text :
  forall (host : Host) (file : File) (r : TextExtractionResult),
    outcome (TextExtractor.extractText host file) = Normal r ->
    error r <> None -> text r = [].
Proof.
  intros host file r Hr. destruct (extractText_returns host file) as [r' [Hr' Hwf]].
  rewrite Hr in Hr'. injection Hr' as <-. exact Hwf.
Qed.

Lemma extractText_error_implies_empty_text_witness :
  outcome (TextExtractor.extractText sample_host (sample_file "image/png" "abc"))
  = Normal (failure (js "Unsupported file type: image/png"))
  /\ error (failure (js "Unsupported file type: image/png")) <> None
  /\ text (failure (js "Unsupported file type: image/png")) = [].
Proof.
  split; [reflexivity|]. split; [discriminate|].
  apply (extractText_error_implies_empty_text sample_host (sample_file "image/png" "abc"));
    [reflexivity|discriminate].
Defined.






(** C7: a JSON file whose text does not parse is passed through
    unchanged, with no error. *)
Theorem extractText_malformed_json :
  forall (host : Host) (file : File) (s : jsstring),
    File.type file = js "application/json" ->
    File.text file = Normal s ->
    JSON.parse s = None ->
    outcome (TextExtractor.extractText host file) = Normal {| text := s; error := None |}.
Proof.
  intros host file s Htype Htext Hparse.
  rewrite extractText_plain by (rewrite Htype; reflexivity).
  rewrite extractPlainText_spec. simpl. rewrite Htext, Htype, Hparse. reflexivity.
Qed.

Lemma extractText_malformed_json_witness :
  File.type (sample_file "application/json" "{not json") = js "application/json"
  /\ File.text (sample_file "application/json" "{not json") = Normal (js "{not json")
  /\ JSON.parse (js "{not json") = None
  /\ outcome (TextExtractor.extractText sample_host
                (sample_file "application/json" "{not json"))
     = Normal {| text := js "{not json"; error := None |}.
Proof.
  split; [reflexivity|]. split; [reflexivity|]. split; [vm_compute; reflexivity|].
  apply (extractText_malformed_json sample_host
           (sample_file "application/json" "{not json") (js "{not json"));
    [reflexivity|reflexivity|vm_compute; reflexivity].
Defined.

(** C8: a file whose declared type is neither [text/plain] nor
    [application/json] nor in the office allow-list gets the
    unsupported-type result, and [extractText] makes no call at all: it
    reads nothing from the file. *)
Theorem extractText_unsupported_type :
  forall (host : Host) (file : File),
    File.type file <> js "text/plain" ->
    File.type file <> js "application/json" ->
    ~ In (File.type file) TextExtractor.supportedTypes ->
    TextExtractor.extractText host file =
    ([], Normal {| text := [];
                   error := Some (js "Unsupported file type: " ++ File.type file) |}).
Proof.
  intros host file Hp Hj Ho. apply extractText_unsupported.
  - unfold is_plain.
    destruct (jsstring_eqb_spec (File.type file) (js "text/plain")); [contradiction|].
    destruct (jsstring_eqb_spec (File.type file) (js "application/json"));
      [contradiction|reflexivity].
  - unfold TextExtractor.isOfficeDocument.
    destruct (existsb _ _) eqn:Hex; [|reflexivity].
    apply existsb_exists in Hex. destruct Hex as [t [Hin Heq]].
    destruct (jsstring_eqb_spec (File.type file) t); [|discriminate].
    subst t. contradiction.
Qed.

Lemma extractText_unsupported_type_witness :
  File.type (sample_file "image/png" "abc") <> js "text/plain"
  /\ File.type (sample_file "image/png" "abc") <> js "application/json"
  /\ ~ In (File.type (sample_file "image/png" "abc")) TextExtractor.supportedTypes
  /\ TextExtractor.extractText sample_host (sample_file "image/png" "abc") =
     ([], Normal {| text := [];
                    error := Some (js "Unsupported file type: "
                                     ++ File.type (sample_file "image/png" "abc")) |}).
Proof.
  assert (File.type (sample_file "image/png" "abc") <> js "text/plain") as H1
    by (vm_compute; discriminate).
  assert (File.type (sample_file "image/png" "abc") <> js "application/json") as H2
    by (vm_compute; discriminate).
  assert (~ In (File.type (sample_file "image/png" "abc")) TextExtractor.supportedTypes)
    as H3 by (vm_compute; intuition discriminate).
  split; [exact H1|]. split; [exact H2|]. split; [exact H3|].
  exact (extractText_unsupported_type sample_host (sample_file "image/png" "abc") H1 H2 H3).
Defined.


(** C9: the branch [extractText] takes is a function of the declared
    media type alone: two files with the same declared type take the same
    branch, whatever their contents and whatever the host does, and the
    branch is the one the classification rule names. *)
Theorem classification_depends_on_type_only :
  forall (host1 host2 : Host) (file1 file2 : File),
    File.type file1 = File.type file2 ->
    branch_taken (trace (TextExtractor.extractText host1 file1))
    = branch_taken (trace (TextExtractor.extractText host2 file2))
    /\ branch_taken (trace (TextExtractor.extractText host1 file1))
       = classify (File.type file1).
Proof.
  assert (forall host file,
            branch_taken (trace (TextExtractor.extractText host file))
            = classify (File.type file)) as Hrule.
  { intros host file. unfold classify.
    destruct (is_plain (File.type file)) eqn:Hplain.
    - rewrite (extractText_plain _ _ Hplain). unfold is_plain in Hplain.
      destruct (jsstring_eqb (File.type file) (js "text/plain")); [reflexivity|].
      simpl in Hplain. rewrite Hplain. reflexivity.
    - pose proof Hplain as Hplain'. unfold is_plain in Hplain'.
      apply orb_false_iff in Hplain'. destruct Hplain' as [-> ->].
      fold (TextExtractor.isOfficeDocument (File.type file)).
      destruct (TextExtractor.isOfficeDocument (File.type file)) eqn:Hoffice.
      + rewrite (extractText_office _ _ Hplain Hoffice). reflexivity.
      + rewrite (extractText_unsupported _ _ Hplain Hoffice). reflexivity. }
  intros host1 host2 file1 file2 Htype. split.
  - rewrite !Hrule, Htype. reflexivity.
  - apply Hrule.
Qed.

Lemma classification_depends_on_type_only_witness :
  File.type (sample_file "application/pdf" "one") = File.type (sample_file "application/pdf" "two")
  /\ branch_taken (trace (TextExtractor.extractText sample_host
                            (sample_file "application/pdf" "one")))
     = branch_taken (trace (TextExtractor.extractText sample_host
                              (sample_file "application/pdf" "two")))
  /\ branch_taken (trace (TextExtractor.extractText sample_host
                            (sample_file "application/pdf" "one")))
     = classify (File.type (sample_file "application/pdf" "one")).
Proof.
  split; [reflexivity|].
  apply (classification_depends_on_type_only sample_host sample_host
           (sample_file "application/pdf" "one") (sample_file "application/pdf" "two")).
  reflexivity.
Defined.

(* ================================================================== *)
(** * FileHandler *)
(* ================================================================== *)

Lemma processFile_outcome (host : Host) (file : File) (r : TextExtractionResult) :
  outcome (TextExtractor.extractText host file) = Normal r ->
  outcome (FileHandler.processFile host file) =
  if truthy (error r) then Throw (new_Error (error r)) else Normal (text r).
Proof.
  unfold FileHandler.processFile, outcome, bind.
  destruct (TextExtractor.extractText host file) as [tr c]. simpl. intros ->.
  destruct (truthy (error r)); reflexivity.
Qed.

Lemma truthy_iff (o : option jsstring) :
  truthy o = true <-> exists s, o = Some s /\ s <> [].
Proof.
  destruct o as [[|c s]|]; simpl; split; try discriminate.
  - intros [s [Hs Hne]]. injection Hs as <-. contradiction.
  - intros _. eexists; split; [reflexivity|discriminate].
  - reflexivity.
  - intros [s [Hs _]]. discriminate.
Qed.

(** C3: [processFile] raises exactly when the result of [extractText]
    carries a non-empty error, and then the failure it raises is an Error
    whose message is that error string; otherwise it returns the text of
    the result. *)
Theorem processFile_raises_iff_error :
  forall (host : Host) (file : File),
    exists r,
      outcome (TextExtractor.extractText host file) = Normal r /\
      ((exists e, outcome (FileHandler.processFile host file) = Throw e)
       <-> (exists s, error r = Some s /\ s <> [])) /\
      (forall e, outcome (FileHandler.processFile host file) = Throw e ->
                 exists s, error r = Some s /\ e = ErrorObject s) /\
      ((~ exists s, error r = Some s /\ s <> []) ->
       outcome (FileHandler.processFile host file) = Normal (text r)).
Proof.
  intros host file. destruct (extractText_returns host file) as [r [Hr _]].
  exists r. split; [exact Hr|]. rewrite (processFile_outcome _ _ _ Hr).
  rewrite <- truthy_iff. destruct (truthy (error r)) eqn:Ht.
  - split; [|split].
    + split; [reflexivity|]. intros _. eexists; reflexivity.
    + intros e He. injection He as <-. apply truthy_iff in Ht.
      destruct Ht as [s [Hs _]]. exists s. rewrite Hs. split; reflexivity.
    + intros Hn. contradiction Hn. reflexivity.
  - split; [|split].
    + split; [intros [e He]; discriminate|discriminate].
    + intros e He. discriminate.
    + reflexivity.
Qed.


Lemma extracts_processFile host file t :
  extracts host file t -> outcome (FileHandler.processFile host file) = Normal t.
Proof.
  intros [r [Hr [Ht <-]]]. rewrite (processFile_outcome _ _ _ Hr), Ht. reflexivity.
Qed.

(** C4: when every per-file extraction succeeds, [processFiles] returns
    the extracted texts, one per file and in the order of the input,
    whatever the order [schedule] in which the extractions complete. *)
Theorem processFiles_preserves_order :
  forall (host : Host) (schedule : list nat) (files : list File) (texts : list jsstring),
    Permutation schedule (seq 0 (length files)) ->
    Forall2 (extracts host) files texts ->
    FileHandler.processFiles host schedule files = Some (Normal texts)
    /\ length texts = length files.
Proof.
  intros host schedule files texts Hperm Hall. split.
  - unfold FileHandler.processFiles. apply all_fulfilled.
    + clear Hperm. induction Hall as [|file t files texts Hft Hall IH]; simpl; [reflexivity|].
      rewrite (extracts_processFile _ _ _ Hft). f_equal. apply IH.
    + rewrite length_map. assumption.
  - symmetry. apply (Forall2_length Hall).
Qed.

Lemma processFiles_preserves_order_witness :
  Permutation [2; 0; 1]%nat (seq 0 (length [sample_file "text/plain" "first";
                                             sample_file "application/pdf" "";
                                             sample_file "application/json" "[3]"]))
  /\ FileHandler.processFiles sample_host [2; 0; 1]%nat
       [sample_file "text/plain" "first";
        sample_file "application/pdf" "";
        sample_file "application/json" "[3]"]
     = Some (Normal [js "first"; js "extracted";
                     [91; 10; 32; 32; 51; 10; 93]%N]).
Proof.
  assert (Permutation [2; 0; 1]%nat
            (seq 0 (length [sample_file "text/plain" "first";
                            sample_file "application/pdf" "";
                            sample_file "application/json" "[3]"]))) as Hperm.
  { simpl. apply Permutation_sym. apply perm_trans with [0; 2; 1]%nat.
    - apply perm_skip. apply perm_swap.
    - apply perm_swap. }
  split; [exact Hperm|].
  apply (processFiles_preserves_order sample_host [2; 0; 1]%nat
           [sample_file "text/plain" "first";
            sample_file "application/pdf" "";
            sample_file "application/json" "[3]"]
           [js "first"; js "extracted"; [91; 10; 32; 32; 51; 10; 93]%N] Hperm).
  repeat constructor; eexists; (split; [vm_compute; reflexivity|split; reflexivity]).
Defined.

(** The first index of [schedule] that satisfies [p], with what comes
    before and after it. *)
Lemma split_first (p : nat -> bool) (schedule : list nat) (k : nat) :
  In k schedule -> p k = true ->
  exists before i after,
    schedule = before ++ i :: after /\ p i = true /\
    forall j, In j before -> p j = false.
Proof.
  induction schedule as [|a schedule IH]; intros Hin Hk; [contradiction|].
  destruct (p a) eqn:Ha.
  - exists [], a, schedule. split; [reflexivity|]. split; [assumption|]. intros j [].
  - destruct Hin as [->|Hin]; [congruence|].
    destruct (IH Hin Hk) as [before [i [after [-> [Hi Hbefore]]]]].
    exists (a :: before), i, after. split; [reflexivity|]. split; [assumption|].
    intros j [<-|Hj]; [assumption|apply Hbefore; assumption].
Qed.


(** C5: when some per-file extraction fails, [processFiles] fails as a
    whole: its result is a rejection, never a list of texts, and the
    failure is the Error carrying the error string of the first file, in
    order of completion, whose extraction failed. *)
Theorem processFiles_fails_fast :
  forall (host : Host) (schedule : list nat) (files : list File),
    Permutation schedule (seq 0 (length files)) ->
    Exists (fun file => exists e, outcome (FileHandler.processFile host file) = Throw e)
           files ->
    exists before i after file r s,
      schedule = before ++ i :: after /\
      (forall j, In j before ->
         exists file' t, nth_error files j = Some file' /\
                         outcome (FileHandler.processFile host file') = Normal t) /\
      nth_error files i = Some file /\
      outcome (TextExtractor.extractText host file) = Normal r /\
      error r = Some s /\ s <> [] /\
      FileHandler.processFiles host schedule files = Some (Throw (ErrorObject s)).
Proof.
  intros host schedule files Hperm Hex.
  apply Exists_exists in Hex. destruct Hex as [file0 [Hin0 [e0 He0]]].
  apply In_nth_error in Hin0. destruct Hin0 as [k Hk].
  assert (In k schedule) as Hks.
  { apply (Permutation_in _ (Permutation_sym Hperm)), in_seq.
    assert (nth_error files k <> None) as Hlt by congruence.
    apply nth_error_Some in Hlt. lia. }
  destruct (split_first (rejects host files) schedule k Hks)
    as [before [i [after [Hsplit [Hi Hbefore]]]]].
  { unfold rejects. rewrite Hk, He0. reflexivity. }
  unfold rejects in Hi. destruct (nth_error files i) as [file|] eqn:Hfile; [|discriminate].
  destruct (outcome (FileHandler.processFile host file)) as [t|e] eqn:He; [discriminate|].
  destruct (extractText_returns host file) as [r [Hr _]].
  rewrite (processFile_outcome _ _ _ Hr) in He.
  destruct (truthy (error r)) eqn:Ht; [|discriminate].
  apply truthy_iff in Ht. destruct Ht as [s [Hs Hne]].
  assert (forall j, In j before ->
            exists file' t, nth_error files j = Some file' /\
                            outcome (FileHandler.processFile host file') = Normal t)
    as Hok.
  { intros j Hj. specialize (Hbefore j Hj). unfold rejects in Hbefore.
    destruct (nth_error files j) as [file'|] eqn:Hj'.
    - destruct (outcome (FileHandler.processFile host file')) as [t|e'] eqn:He';
        [|discriminate].
      exists file', t. split; [reflexivity|assumption].
    - exfalso. apply nth_error_None in Hj'.
      assert (In j schedule) as Hjs by (rewrite Hsplit; apply in_or_app; left; assumption).
      apply (Permutation_in _ Hperm), in_seq in Hjs. lia. }
  exists before, i, after, file, r, s.
  repeat (split; [assumption|]).
  unfold FileHandler.processFiles. rewrite Hsplit. apply all_rejected.
  - rewrite length_map, <- Hsplit. assumption.
  - intros j Hj. destruct (Hok j Hj) as [file' [t [Hj' Ht']]].
    exists t. rewrite (map_nth_error _ _ _ Hj'), Ht'. reflexivity.
  - rewrite (map_nth_error _ _ _ Hfile), (processFile_outcome _ _ _ Hr).
    assert (truthy (error r) = true) as -> by (apply truthy_iff; eauto).
    rewrite Hs. reflexivity.
Qed.

Lemma processFiles_fails_fast_witness :
  exists before i after file r s,
    [2; 0; 1]%nat = before ++ i :: after /\
    (forall j, In j before ->
       exists file' t,
         nth_error [sample_file "text/plain" "first";
                    sample_file "image/png" "second";
                    sample_file "text/plain" "third"] j = Some file' /\
         outcome (FileHandler.processFile sample_host file') = Normal t) /\
    nth_error [sample_file "text/plain" "first";
               sample_file "image/png" "second";
               sample_file "text/plain" "third"] i = Some file /\
    outcome (TextExtractor.extractText sample_host file) = Normal r /\
    error r = Some s /\ s <> [] /\
    FileHandler.processFiles sample_host [2; 0; 1]%nat
      [sample_file "text/plain" "first";
       sample_file "image/png" "second";
       sample_file "text/plain" "third"]
    = Some (Throw (ErrorObject s)).
Proof.
  apply (processFiles_fails_fast sample_host [2; 0; 1]%nat
           [sample_file "text/plain" "first";
            sample_file "image/png" "second";
            sample_file "text/plain" "third"]).
  - simpl. apply Permutation_sym. apply perm_trans with [0; 2; 1]%nat.
    + apply perm_skip. apply perm_swap.
    + apply perm_swap.
  - apply Exists_cons_tl, Exists_cons_hd. eexists. vm_compute. reflexivity.
Defined.

(** C10: on the empty list of files [processFiles] succeeds with the
    empty list. *)
Theorem processFiles_empty :
  forall (host : Host) (schedule : list nat),
    FileHandler.processFiles host schedule [] = Some (Normal []).
Proof.
  intros host schedule. unfold FileHandler.processFiles. simpl.
  unfold PromiseAll.all. simpl.
  induction schedule as [|i schedule IH]; simpl; [reflexivity|].
  destruct i; simpl; exact IH.
Qed.

(* ================================================================== *)
(** * Further properties *)
(* ================================================================== *)

(** ** The runs of TextExtractor, stage by stage *)

Section TextExtractorRuns.
Variable host : Host.
Import TextExtractor.

(** The calls and the result of [extractOfficeDocument], stage by
    stage. *)
Lemma extractOfficeDocument_run (file : File) :
  extractOfficeDocument host file =
  match File.arrayBuffer file with
  | Throw e =>
      ([Call_file_arrayBuffer],
       Normal (failure (message_or (js "Failed to extract text from office document") e)))
  | Normal arrayBuffer =>
      match Buffer_from host arrayBuffer with
      | Throw e =>
          ([Call_file_arrayBuffer; Call_Buffer_from],
           Normal (failure
                     (message_or (js "Failed to extract text from office document") e)))
      | Normal buffer =>
          match officeExtractor_extractText host buffer with
          | Throw e =>
              ([Call_file_arrayBuffer; Call_Buffer_from; Call_officeExtractor_extractText],
               Normal (failure
                         (message_or (js "Failed to extract text from office document") e)))
          | Normal t =>
              ([Call_file_arrayBuffer; Call_Buffer_from; Call_officeExtractor_extractText],
               Normal (success t))
          end
      end
  end.
Proof.
  unfold extractOfficeDocument.
  destruct (File.arrayBuffer file) as [arrayBuffer|e]; [|reflexivity]. simpl.
  destruct (Buffer_from host arrayBuffer) as [buffer|e]; [|reflexivity]. simpl.
  destruct (officeExtractor_extractText host buffer) as [t|e]; reflexivity.
Qed.

Lemma supported_not_plain (mimeType : jsstring) :
  In mimeType supportedTypes -> is_plain mimeType = false.
Proof.
  intros Hin. simpl in Hin.
  repeat (destruct Hin as [<-|Hin]; [reflexivity|]). contradiction.
Qed.

Lemma supported_isOfficeDocument (mimeType : jsstring) :
  isOfficeDocument mimeType = true <-> In mimeType supportedTypes.
Proof.
  unfold isOfficeDocument. rewrite existsb_exists. split.
  - intros [t [Hin Heq]]. destruct (jsstring_eqb_spec mimeType t); [|discriminate].
    subst. assumption.
  - intros Hin. exists mimeType. split; [assumption|apply jsstring_eqb_refl].
Qed.

Lemma extractText_office_run (file : File) :
  In (File.type file) supportedTypes ->
  extractText host file =
  (Call_extractOfficeDocument :: trace (extractOfficeDocument host file),
   outcome (extractOfficeDocument host file)).
Proof.
  intros Hin. apply extractText_office.
  - apply supported_not_plain. assumption.
  - apply supported_isOfficeDocument. assumption.
Qed.

End TextExtractorRuns.

(** X1: a [text/plain] file that can be read is returned as it is: the
    result carries the exact text and no error, whatever the text looks
    like, and the run reads the content once, as text. *)
Theorem extractText_plain_text_passthrough :
  forall (host : Host) (file : File) (s : jsstring),
    File.type file = js "text/plain" ->
    File.text file = Normal s ->
    TextExtractor.extractText host file =
    ([Call_extractPlainText; Call_file_text], Normal {| text := s; error := None |}).
Proof.
  intros host file s Htype Htext.
  rewrite extractText_plain by (rewrite Htype; reflexivity).
  rewrite extractPlainText_spec. simpl. rewrite Htext, Htype. reflexivity.
Qed.

Lemma extractText_plain_text_passthrough_witness :
  File.type (sample_file "text/plain" "[1, 2") = js "text/plain"
  /\ File.text (sample_file "text/plain" "[1, 2") = Normal (js "[1, 2")
  /\ TextExtractor.extractText sample_host (sample_file "text/plain" "[1, 2") =
     ([Call_extractPlainText; Call_file_text],
      Normal {| text := js "[1, 2"; error := None |}).
Proof.
  split; [reflexivity|]. split; [reflexivity|].
  exact (extractText_plain_text_passthrough sample_host (sample_file "text/plain" "[1, 2")
           (js "[1, 2") eq_refl eq_refl).
Defined.

(** X2: when reading a [text/plain] or [application/json] file fails, the
    result is the failure with the message of the Error that was thrown,
    or [Failed to read text file] when the thrown value is no Error. *)
Theorem extractText_read_failure :
  forall (host : Host) (file : File) (e : thrown),
    is_plain (File.type file) = true ->
    File.text file = Throw e ->
    TextExtractor.extractText host file =
    ([Call_extractPlainText; Call_file_text],
     Normal {| text := [];
               error := Some (match e with
                              | ErrorObject message => message
                              | NonError => js "Failed to read text file"
                              end) |}).
Proof.
  intros host file e Hplain Htext.
  rewrite (extractText_plain _ _ Hplain), extractPlainText_spec. simpl.
  rewrite Htext. destruct e; reflexivity.
Qed.

Lemma extractText_read_failure_witness :
  is_plain (File.type (unreadable_file "application/json" NonError)) = true
  /\ File.text (unreadable_file "application/json" NonError) = Throw NonError
  /\ TextExtractor.extractText sample_host (unreadable_file "application/json" NonError) =
     ([Call_extractPlainText; Call_file_text],
      Normal {| text := []; error := Some (js "Failed to read text file") |}).
Proof.
  split; [reflexivity|]. split; [reflexivity|].
  exact (extractText_read_failure sample_host (unreadable_file "application/json" NonError)
           NonError eq_refl eq_refl).
Defined.

(** X3: for a file of a supported office type whose bytes can be read,
    the extractor is called on [Buffer.from] of exactly these bytes, and
    the text it resolves with is the result; [file.text ()] is not
    called. *)
Theorem extractText_office_success :
  forall (host : Host) (file : File) (bytes buffer : list Byte.byte) (t : jsstring),
    In (File.type file) TextExtractor.supportedTypes ->
    File.arrayBuffer file = Normal bytes ->
    Buffer_from host bytes = Normal buffer ->
    officeExtractor_extractText host buffer = Normal t ->
    TextExtractor.extractText host file =
    ([Call_extractOfficeDocument; Call_file_arrayBuffer; Call_Buffer_from;
      Call_officeExtractor_extractText],
     Normal {| text := t; error := None |}).
Proof.
  intros host file bytes buffer t Htype Hbytes Hbuffer Ht.
  rewrite (extractText_office_run _ _ Htype), extractOfficeDocument_run.
  rewrite Hbytes, Hbuffer, Ht. reflexivity.
Qed.

Lemma extractText_office_success_witness :
  In (File.type (sample_file "application/pdf" "x")) TextExtractor.supportedTypes
  /\ TextExtractor.extractText sample_host (sample_file "application/pdf" "x") =
     ([Call_extractOfficeDocument; Call_file_arrayBuffer; Call_Buffer_from;
       Call_officeExtractor_extractText],
      Normal {| text := js "extracted"; error := None |}).
Proof.
  assert (In (File.type (sample_file "application/pdf" "x")) TextExtractor.supportedTypes)
    as Hin by (simpl; tauto).
  split; [exact Hin|].
  exact (extractText_office_success sample_host (sample_file "application/pdf" "x")
           [] [] (js "extracted") Hin eq_refl eq_refl eq_refl).
Defined.

(** X4: a failure at any stage of an office extraction (reading the
    bytes, [Buffer.from], the extractor) ends the extraction there: the
    later stages are not called, and the result is the failure with the
    Error's message or [Failed to extract text from office document]. *)
Theorem extractText_office_failure :
  forall (host : Host) (file : File) (e : thrown),
    In (File.type file) TextExtractor.supportedTypes ->
    let reason := message_or (js "Failed to extract text from office document") e in
    (File.arrayBuffer file = Throw e ->
     TextExtractor.extractText host file =
     ([Call_extractOfficeDocument; Call_file_arrayBuffer],
      Normal {| text := []; error := Some reason |}))
    /\ (forall bytes,
          File.arrayBuffer file = Normal bytes -> Buffer_from host bytes = Throw e ->
          TextExtractor.extractText host file =
          ([Call_extractOfficeDocument; Call_file_arrayBuffer; Call_Buffer_from],
           Normal {| text := []; error := Some reason |}))
    /\ (forall bytes buffer,
          File.arrayBuffer file = Normal bytes -> Buffer_from host bytes = Normal buffer ->
          officeExtractor_extractText host buffer = Throw e ->
          TextExtractor.extractText host file =
          ([Call_extractOfficeDocument; Call_file_arrayBuffer; Call_Buffer_from;
            Call_officeExtractor_extractText],
           Normal {| text := []; error := Some reason |})).
Proof.
  intros host file e Htype reason.
  rewrite (extractText_office_run _ _ Htype), extractOfficeDocument_run.
  split; [|split].
  - intros ->. reflexivity.
  - intros bytes -> ->. reflexivity.
  - intros bytes buffer -> -> ->. reflexivity.
Qed.

Lemma extractText_office_failure_witness :
  In (File.type (sample_file "application/pdf" "x")) TextExtractor.supportedTypes
  /\ TextExtractor.extractText host_without_Buffer (sample_file "application/pdf" "x") =
     ([Call_extractOfficeDocument; Call_file_arrayBuffer; Call_Buffer_from],
      Normal {| text := []; error := Some (js "Buffer is not defined") |}).
Proof.
  assert (In (File.type (sample_file "application/pdf" "x")) TextExtractor.supportedTypes)
    as Hin by (simpl; tauto).
  split; [exact Hin|].
  exact (proj1 (proj2 (extractText_office_failure host_without_Buffer
                         (sample_file "application/pdf" "x")
                         (ErrorObject (js "Buffer is not defined")) Hin))
           [] eq_refl eq_refl).
Defined.

(** X5: a run of [extractText] reads the content of the file at most once
    (never both as text and as bytes), reads it as text only for the two
    plain types and as bytes only for a type of the allow-list, and calls
    the office extractor at most once and only for a type of the
    allow-list. *)
Theorem extractText_reads_once :
  forall (host : Host) (file : File),
    let calls := trace (TextExtractor.extractText host file) in
    (length (filter is_read calls) <= 1)%nat
    /\ (In Call_file_text calls -> is_plain (File.type file) = true)
    /\ (In Call_file_arrayBuffer calls -> In (File.type file) TextExtractor.supportedTypes)
    /\ (length (filter is_extraction calls) <= 1)%nat
    /\ (In Call_officeExtractor_extractText calls ->
        In (File.type file) TextExtractor.supportedTypes).
Proof.
  intros host file calls. subst calls.
  destruct (is_plain (File.type file)) eqn:Hplain.
  - rewrite (extractText_plain _ _ Hplain), extractPlainText_spec. simpl.
    repeat split; try lia; intros H; intuition discriminate.
  - destruct (TextExtractor.isOfficeDocument (File.type file)) eqn:Hoffice.
    + pose proof (proj1 (supported_isOfficeDocument _) Hoffice) as Hin.
      rewrite (extractText_office _ _ Hplain Hoffice), extractOfficeDocument_run.
      destruct (File.arrayBuffer file) as [bytes|e]; simpl;
        [destruct (Buffer_from host bytes) as [buffer|e]; simpl;
         [destruct (officeExtractor_extractText host buffer); simpl|]|];
        repeat split; try lia; try (intros _; exact Hin); intros H; intuition discriminate.
    + rewrite (extractText_unsupported _ _ Hplain Hoffice). simpl.
      repeat split; try lia; intros [].
Qed.

Lemma extractText_reads_once_witness :
  let calls := trace (TextExtractor.extractText sample_host
                        (sample_file "application/pdf" "x")) in
  (length (filter is_read calls) <= 1)%nat
  /\ (In Call_file_text calls ->
      is_plain (File.type (sample_file "application/pdf" "x")) = true)
  /\ (In Call_file_arrayBuffer calls ->
      In (File.type (sample_file "application/pdf" "x")) TextExtractor.supportedTypes)
  /\ (length (filter is_extraction calls) <= 1)%nat
  /\ (In Call_officeExtractor_extractText calls ->
      In (File.type (sample_file "application/pdf" "x")) TextExtractor.supportedTypes).
Proof.
  exact (extractText_reads_once sample_host (sample_file "application/pdf" "x")).
Defined.

Lemma accepted_types_spec (mimeType : jsstring) :
  In mimeType accepted_types <->
  is_plain mimeType = true \/ TextExtractor.isOfficeDocument mimeType = true.
Proof.
  unfold accepted_types, is_plain. rewrite supported_isOfficeDocument, orb_true_iff.
  cbn [In].
  destruct (jsstring_eqb_spec mimeType (js "text/plain")) as [H1|H1];
    destruct (jsstring_eqb_spec mimeType (js "application/json")) as [H2|H2];
    split; auto.
  - intros [H|[H|H]]; [congruence|congruence|auto].
  - intros [[H|H]|H]; try discriminate; auto.
Qed.

Lemma extended_type_differs (t t' suffix : jsstring) :
  In t accepted_types -> In t' accepted_types -> suffix <> [] ->
  jsstring_eqb (t ++ suffix) t' = false.
Proof.
  intros Ht Ht' Hne. destruct suffix as [|c suffix]; [congruence|].
  unfold accepted_types, TextExtractor.supportedTypes in Ht, Ht'. cbn [In] in Ht, Ht'.
  repeat (destruct Ht as [<-|Ht]; [|]); try contradiction;
    repeat (destruct Ht' as [<-|Ht']; [|]); try contradiction;
    reflexivity.
Qed.

(** X6: the media type is compared whole, with no prefix matching: an
    accepted type followed by anything, such as a [charset] parameter, is
    not accepted; [extractText] reports it as unsupported and reads
    nothing. *)
Theorem extractText_no_prefix_match :
  forall (host : Host) (file : File) (t suffix : jsstring),
    In t accepted_types -> suffix <> [] -> File.type file = t ++ suffix ->
    TextExtractor.extractText host file =
    ([], Normal {| text := [];
                   error := Some (js "Unsupported file type: " ++ t ++ suffix) |}).
Proof.
  intros host file t suffix Ht Hne Htype.
  assert (forall t', In t' accepted_types -> jsstring_eqb (File.type file) t' = false)
    as Hdiff by (intros t' Ht'; rewrite Htype; apply extended_type_differs; assumption).
  rewrite extractText_unsupported, Htype; [reflexivity| |].
  - unfold is_plain. rewrite !Hdiff; [reflexivity| |]; unfold accepted_types; simpl; tauto.
  - unfold TextExtractor.isOfficeDocument.
    apply not_true_is_false. intros H. apply existsb_exists in H.
    destruct H as [t' [Hin Heq]]. rewrite Hdiff in Heq; [discriminate|].
    right; right; assumption.
Qed.

Lemma extractText_no_prefix_match_witness :
  In (js "text/plain") accepted_types
  /\ js "; charset=utf-8" <> []
  /\ TextExtractor.extractText sample_host (sample_file "text/plain; charset=utf-8" "hello") =
     ([], Normal {| text := [];
                    error := Some (js "Unsupported file type: " ++ js "text/plain"
                                     ++ js "; charset=utf-8") |}).
Proof.
  assert (In (js "text/plain") accepted_types) as Hin by (left; reflexivity).
  assert (js "; charset=utf-8" <> []) as Hne by discriminate.
  split; [exact Hin|]. split; [exact Hne|].
  exact (extractText_no_prefix_match sample_host
           (sample_file "text/plain; charset=utf-8" "hello")
           (js "text/plain") (js "; charset=utf-8") Hin Hne eq_refl).
Defined.

(** X7: [processFile] on a file whose type is none of the six accepted
    ones raises the Error [Unsupported file type: <type>] and touches
    neither the file nor the extractor. *)
Theorem processFile_unsupported :
  forall (host : Host) (file : File),
    ~ In (File.type file) accepted_types ->
    FileHandler.processFile host file =
    ([], Throw (ErrorObject (js "Unsupported file type: " ++ File.type file))).
Proof.
  intros host file Hnot. rewrite accepted_types_spec in Hnot.
  unfold FileHandler.processFile. rewrite extractText_unsupported.
  - reflexivity.
  - destruct (is_plain _); [exfalso; auto|reflexivity].
  - destruct (TextExtractor.isOfficeDocument _); [exfalso; auto|reflexivity].
Qed.

Lemma processFile_unsupported_witness :
  ~ In (File.type (sample_file "image/png" "x")) accepted_types
  /\ FileHandler.processFile sample_host (sample_file "image/png" "x") =
     ([], Throw (ErrorObject (js "Unsupported file type: image/png"))).
Proof.
  assert (~ In (File.type (sample_file "image/png" "x")) accepted_types) as Hnot.
  { rewrite accepted_types_spec. intros [H|H]; vm_compute in H; discriminate. }
  split; [exact Hnot|].
  exact (processFile_unsupported sample_host (sample_file "image/png" "x") Hnot).
Defined.

(** X8: [processFile] tests the error string for truthiness, so a failed
    read is reported only when its message is not empty: when reading a
    plain file throws an Error with a non-empty message, [processFile]
    raises an Error with that message; when the message is empty it
    returns the empty string, as for a file that is empty. *)
Theorem processFile_read_failure :
  forall (host : Host) (file : File) (message : jsstring),
    is_plain (File.type file) = true ->
    File.text file = Throw (ErrorObject message) ->
    outcome (FileHandler.processFile host file) =
    match message with
    | [] => Normal []
    | _ :: _ => Throw (ErrorObject message)
    end.
Proof.
  intros host file message Hplain Htext.
  rewrite (processFile_outcome host file (failure message)).
  - destruct message; reflexivity.
  - rewrite (extractText_plain _ _ Hplain), extractPlainText_spec. simpl.
    rewrite Htext. reflexivity.
Qed.

Lemma processFile_read_failure_witness :
  is_plain (File.type (unreadable_file "text/plain" (ErrorObject []))) = true
  /\ File.text (unreadable_file "text/plain" (ErrorObject [])) = Throw (ErrorObject [])
  /\ outcome (FileHandler.processFile sample_host
                (unreadable_file "text/plain" (ErrorObject []))) = Normal [].
Proof.
  split; [reflexivity|]. split; [reflexivity|].
  exact (processFile_read_failure sample_host (unreadable_file "text/plain" (ErrorObject []))
           [] eq_refl eq_refl).
Defined.

(** ** What a settled Promise.all says about its inputs *)

Section PromiseAllSound.
Context {A : Type}.
Variable outcomes : list (completion A).
Import PromiseAll.

(** The number of holes of [values]. *)
Fixpoint holes (l : list (option A)) : nat :=
  match l with
  | [] => O
  | None :: tl => S (holes tl)
  | Some _ :: tl => holes tl
  end.

Lemma holes_repeat (n : nat) : holes (repeat None n) = n.
Proof. induction n; simpl; congruence. Qed.

Lemma holes_set_nth (l : list (option A)) (i : nat) (x : A) :
  nth_error l i = Some None -> S (holes (set_nth l i x)) = holes l.
Proof.
  revert i; induction l as [|hd tl IH]; intros [|i] H; simpl in *; try discriminate.
  - injection H as ->. reflexivity.
  - destruct hd; [apply IH|f_equal; apply IH]; assumption.
Qed.

Lemma holes_zero (l : list (option A)) :
  holes l = O -> exists vs, from_values l = Some vs.
Proof.
  induction l as [|[x|] tl IH]; simpl; intros H; try discriminate.
  - exists []. reflexivity.
  - destruct (IH H) as [vs ->]. exists (x :: vs). reflexivity.
Qed.

Lemma from_values_nth (l : list (option A)) (vs : list A) :
  from_values l = Some vs ->
  length vs = length l /\
  forall i x, nth_error vs i = Some x -> nth_error l i = Some (Some x).
Proof.
  revert vs; induction l as [|[y|] tl IH]; intros vs H; simpl in H; try discriminate.
  - injection H as <-. split; [reflexivity|]. intros [|i] x Hx; discriminate.
  - destruct (from_values tl) as [vs'|]; [|discriminate]. injection H as <-.
    destruct (IH vs' eq_refl) as [Hlen Hnth]. split; [simpl; congruence|].
    intros [|i] x Hx; simpl in *; [congruence|auto].
Qed.

Lemma from_values_holes (l : list (option A)) (vs : list A) :
  from_values l = Some vs -> holes l = O.
Proof.
  revert vs; induction l as [|[y|] tl IH]; intros vs H; simpl in *; try discriminate.
  - reflexivity.
  - destruct (from_values tl) as [vs'|]; [|discriminate]. eauto.
Qed.

Lemma length_set_nth (l : list (option A)) (i : nat) (x : A) :
  length (set_nth l i x) = length l.
Proof. revert i; induction l; intros [|i]; simpl; auto. Qed.

(** What holds of the record after the promises of [done] have settled. *)
Record sound (done : list nat) (st : state A) : Prop := {
  sound_length : length (values st) = length outcomes;
  sound_filled :
    forall i x, nth_error (values st) i = Some (Some x) ->
                In i done /\ nth_error outcomes i = Some (Normal x);
  sound_count : remainingElementsCount st = holes (values st);
  sound_pending : result st = None -> holes (values st) <> O;
  sound_fulfilled :
    forall vs, result st = Some (Normal vs) -> from_values (values st) = Some vs;
  sound_rejected :
    forall reason, result st = Some (Throw reason) ->
                   exists i, In i done /\ nth_error outcomes i = Some (Throw reason)
}.

Lemma sound_start : sound [] (start (length outcomes)).
Proof.
  split; simpl.
  - apply repeat_length.
  - intros i x H. exfalso.
    destruct (Nat.lt_ge_cases i (length outcomes)) as [Hlt|Hge].
    + rewrite nth_error_repeat in H by assumption. discriminate.
    + assert (nth_error (repeat (@None A) (length outcomes)) i = None) as Hnone
        by (apply nth_error_None; rewrite repeat_length; assumption).
      congruence.
  - symmetry. apply holes_repeat.
  - rewrite holes_repeat. destruct (length outcomes); congruence.
  - intros vs. destruct (length outcomes); [|discriminate].
    intros H. injection H as <-. reflexivity.
  - intros reason. destruct (length outcomes); discriminate.
Qed.

Lemma sound_weaken (done : list nat) (i : nat) (st : state A) :
  sound done st -> sound (done ++ [i]) st.
Proof.
  intros [Hlen Hfill Hcount Hpend Hful Hrej]. split; auto.
  - intros j x Hj. destruct (Hfill j x Hj). split; [apply in_or_app|]; auto.
  - intros reason Hr. destruct (Hrej reason Hr) as [j [Hj Hout]].
    exists j. split; [apply in_or_app|]; auto.
Qed.

Lemma sound_react (done : list nat) (i : nat) (c : completion A) (st : state A) :
  sound done st -> nth_error outcomes i = Some c ->
  sound (done ++ [i]) (react st i c).
Proof.
  intros Hs Hi. pose proof (sound_weaken done i st Hs) as Hw.
  destruct Hs as [Hlen Hfill Hcount Hpend Hful Hrej].
  unfold react. destruct c as [x|reason].
  - destruct (nth_error (values st) i) as [[y|]|] eqn:Hslot; try exact Hw.
    pose proof (holes_set_nth _ _ x Hslot) as Hholes.
    assert (forall j y, nth_error (set_nth (values st) i x) j = Some (Some y) ->
                        In j (done ++ [i]) /\ nth_error outcomes j = Some (Normal y))
      as Hfill'.
    { intros j y. rewrite nth_error_set_nth. destruct (Nat.eqb_spec j i) as [->|Hj].
      - rewrite Hslot. simpl. intros H. injection H as <-.
        split; [apply in_or_app; right; left; reflexivity|assumption].
      - intros H. destruct (Hfill j y H). split; [apply in_or_app|]; auto. }
    assert (forall vs, result st = Some (Normal vs) -> False) as Hnotful.
    { intros vs Hvs. specialize (Hful vs Hvs). apply from_values_holes in Hful. lia. }
    cbn [remainingElementsCount values result].
    rewrite Hcount, <- Hholes. cbn [pred].
    destruct (holes (set_nth (values st) i x)) as [|n] eqn:Hn.
    + unfold settle. cbn [result values remainingElementsCount].
      destruct (result st) as [r|] eqn:Hres.
      * split; cbn [values result remainingElementsCount].
        -- rewrite length_set_nth. assumption.
        -- exact Hfill'.
        -- symmetry. assumption.
        -- discriminate.
        -- intros vs Hvs. exfalso. exact (Hnotful vs Hvs).
        -- rewrite <- Hres. exact (sound_rejected _ _ Hw).
      * destruct (holes_zero _ Hn) as [vs Hvs].
        split; cbn [values result remainingElementsCount].
        -- rewrite length_set_nth. assumption.
        -- exact Hfill'.
        -- symmetry. assumption.
        -- rewrite Hvs. discriminate.
        -- rewrite Hvs. simpl. intros vs' H. congruence.
        -- rewrite Hvs. discriminate.
    + split; cbn [values result remainingElementsCount].
      * rewrite length_set_nth. assumption.
      * exact Hfill'.
      * symmetry. assumption.
      * rewrite Hn. discriminate.
      * intros vs Hvs. exfalso. exact (Hnotful vs Hvs).
      * exact (sound_rejected _ _ Hw).
  - unfold settle. destruct (result st) as [r|] eqn:Hres; [exact Hw|].
    split; cbn [values result remainingElementsCount].
    + assumption.
    + exact (sound_filled _ _ Hw).
    + assumption.
    + discriminate.
    + discriminate.
    + intros reason' H. injection H as <-. exists i.
      split; [apply in_or_app; right; left; reflexivity|assumption].
Qed.

Lemma sound_run (schedule : list nat) :
  sound schedule (run outcomes schedule (start (length outcomes))).
Proof.
  induction schedule as [|i schedule IH] using rev_ind.
  - apply sound_start.
  - rewrite run_app. cbn [run fold_left].
    destruct (nth_error outcomes i) as [c|] eqn:Hi.
    + apply sound_react; assumption.
    + apply sound_weaken. assumption.
Qed.

(** A fulfilled result lists the fulfilment values of all the inputs, in
    the order of the inputs, and every input promise has settled. *)
Lemma all_fulfilled_sound (schedule : list nat) (vs : list A) :
  all outcomes schedule = Some (Normal vs) ->
  outcomes = map Normal vs /\ forall i, (i < length outcomes)%nat -> In i schedule.
Proof.
  rewrite all_run. intros Hres.
  destruct (sound_run schedule) as [Hlen Hfill _ _ Hful _].
  specialize (Hful vs Hres). destruct (from_values_nth _ _ Hful) as [Hlen' Hnth].
  split.
  - apply nth_error_ext. intros i. rewrite nth_error_map.
    destruct (nth_error vs i) as [x|] eqn:Hx; simpl.
    + exact (proj2 (Hfill i x (Hnth i x Hx))).
    + apply nth_error_None. apply nth_error_None in Hx. lia.
  - intros i Hi. assert (i < length vs)%nat as Hi' by lia.
    apply nth_error_Some in Hi'. destruct (nth_error vs i) as [x|] eqn:Hx; [|congruence].
    exact (proj1 (Hfill i x (Hnth i x Hx))).
Qed.

(** A rejected result carries the reason of an input promise that has
    settled. *)
Lemma all_rejected_sound (schedule : list nat) (reason : thrown) :
  all outcomes schedule = Some (Throw reason) ->
  exists i, In i schedule /\ nth_error outcomes i = Some (Throw reason).
Proof.
  rewrite all_run. intros Hres.
  exact (sound_rejected _ _ (sound_run schedule) reason Hres).
Qed.

(** While an input promise has not settled and none has been rejected,
    the result is pending. *)
Lemma all_pending (schedule : list nat) (k : nat) :
  (k < length outcomes)%nat -> ~ In k schedule ->
  (forall i reason, In i schedule -> nth_error outcomes i <> Some (Throw reason)) ->
  all outcomes schedule = None.
Proof.
  intros Hk Hnot Hok.
  destruct (all outcomes schedule) as [[vs|reason]|] eqn:Hres; [| |reflexivity].
  - exfalso. apply Hnot. exact (proj2 (all_fulfilled_sound _ _ Hres) k Hk).
  - exfalso. destruct (all_rejected_sound _ _ Hres) as [i [Hi Hout]].
    exact (Hok i reason Hi Hout).
Qed.

(** Once settled, the result does not change. *)
Lemma all_settled_once (s1 s2 : list nat) (r : completion (list A)) :
  all outcomes s1 = Some r -> all outcomes (s1 ++ s2) = Some r.
Proof.
  rewrite !all_run, run_app. apply fold_react_settled.
Qed.

End PromiseAllSound.

(** ** processFiles under any schedule *)

(** X9: when [processFiles] is fulfilled, whatever the order of
    completion, every file of the input was processed successfully and
    the result lists their texts, one per file in the order of the input;
    it is never fulfilled before every per-file promise has settled. *)
Theorem processFiles_fulfilled_sound :
  forall (host : Host) (schedule : list nat) (files : list File) (texts : list jsstring),
    FileHandler.processFiles host schedule files = Some (Normal texts) ->
    Forall2 (fun file t => outcome (FileHandler.processFile host file) = Normal t)
            files texts
    /\ forall i, (i < length files)%nat -> In i schedule.
Proof.
  intros host schedule files texts Hres. unfold FileHandler.processFiles in Hres.
  apply all_fulfilled_sound in Hres. destruct Hres as [Hmap Hall].
  rewrite length_map in Hall. split; [|exact Hall].
  clear Hall. revert texts Hmap.
  induction files as [|file files IH]; intros [|t texts] Hmap; try discriminate.
  - constructor.
  - cbn [map] in Hmap. injection Hmap as Hfile Hfiles.
    constructor; [assumption|]. apply IH. assumption.
Qed.

Lemma processFiles_fulfilled_sound_witness :
  FileHandler.processFiles sample_host [1; 0]%nat
    [sample_file "text/plain" "first"; sample_file "application/pdf" "x"]
  = Some (Normal [js "first"; js "extracted"])
  /\ Forall2 (fun file t => outcome (FileHandler.processFile sample_host file) = Normal t)
       [sample_file "text/plain" "first"; sample_file "application/pdf" "x"]
       [js "first"; js "extracted"]
  /\ forall i,
       (i < length [sample_file "text/plain" "first"; sample_file "application/pdf" "x"])%nat ->
       In i [1; 0]%nat.
Proof.
  assert (FileHandler.processFiles sample_host [1; 0]%nat
            [sample_file "text/plain" "first"; sample_file "application/pdf" "x"]
          = Some (Normal [js "first"; js "extracted"])) as H by (vm_compute; reflexivity).
  split; [exact H|].
  exact (processFiles_fulfilled_sound sample_host [1; 0]%nat
           [sample_file "text/plain" "first"; sample_file "application/pdf" "x"]
           [js "first"; js "extracted"] H).
Defined.

(** X10: [processFiles] is rejected only with the failure of one of its
    files: whatever the order of completion, the reason is an Error whose
    message is the non-empty error string that [extractText] returned for
    a file of the input whose promise has settled. *)
Theorem processFiles_rejected_sound :
  forall (host : Host) (schedule : list nat) (files : list File) (reason : thrown),
    FileHandler.processFiles host schedule files = Some (Throw reason) ->
    exists i file r s,
      In i schedule /\ nth_error files i = Some file /\
      outcome (TextExtractor.extractText host file) = Normal r /\
      error r = Some s /\ s <> [] /\ reason = ErrorObject s.
Proof.
  intros host schedule files reason Hres. unfold FileHandler.processFiles in Hres.
  apply all_rejected_sound in Hres. destruct Hres as [i [Hi Hout]].
  rewrite nth_error_map in Hout.
  destruct (nth_error files i) as [file|] eqn:Hfile; [|discriminate].
  cbn [option_map] in Hout. injection Hout as Hout.
  destruct (extractText_returns host file) as [r [Hr _]].
  rewrite (processFile_outcome _ _ _ Hr) in Hout.
  destruct (truthy (error r)) eqn:Ht; [|discriminate].
  apply truthy_iff in Ht. destruct Ht as [s [Hs Hne]].
  exists i, file, r, s. repeat (split; [assumption|]).
  injection Hout as <-. rewrite Hs. reflexivity.
Qed.

Lemma processFiles_rejected_sound_witness :
  FileHandler.processFiles sample_host [1]%nat
    [sample_file "text/plain" "first"; sample_file "image/png" "x"]
  = Some (Throw (ErrorObject (js "Unsupported file type: image/png")))
  /\ exists i file r s,
       In i [1]%nat /\
       nth_error [sample_file "text/plain" "first"; sample_file "image/png" "x"] i
       = Some file /\
       outcome (TextExtractor.extractText sample_host file) = Normal r /\
       error r = Some s /\ s <> [] /\
       ErrorObject (js "Unsupported file type: image/png") = ErrorObject s.
Proof.
  assert (FileHandler.processFiles sample_host [1]%nat
            [sample_file "text/plain" "first"; sample_file "image/png" "x"]
          = Some (Throw (ErrorObject (js "Unsupported file type: image/png")))) as H
    by (vm_compute; reflexivity).
  split; [exact H|].
  exact (processFiles_rejected_sound sample_host [1]%nat
           [sample_file "text/plain" "first"; sample_file "image/png" "x"]
           (ErrorObject (js "Unsupported file type: image/png")) H).
Defined.

(** X11: [processFiles] stays pending as long as the promise of some
    file has not settled and no file that has settled failed: there is no
    partial result. *)
Theorem processFiles_pending :
  forall (host : Host) (schedule : list nat) (files : list File) (k : nat),
    (k < length files)%nat -> ~ In k schedule ->
    (forall i, In i schedule -> rejects host files i = false) ->
    FileHandler.processFiles host schedule files = None.
Proof.
  intros host schedule files k Hk Hnot Hok. unfold FileHandler.processFiles.
  apply (all_pending _ schedule k).
  - rewrite length_map. assumption.
  - assumption.
  - intros i reason Hi Hout. specialize (Hok i Hi). unfold rejects in Hok.
    rewrite nth_error_map in Hout.
    destruct (nth_error files i) as [file|]; [|discriminate].
    cbn [option_map] in Hout. injection Hout as Hout. rewrite Hout in Hok. discriminate.
Qed.

Lemma processFiles_pending_witness :
  FileHandler.processFiles sample_host [0; 2]%nat
    [sample_file "text/plain" "first"; sample_file "image/png" "x";
     sample_file "text/plain" "third"]
  = None.
Proof.
  apply (processFiles_pending sample_host [0; 2]%nat
           [sample_file "text/plain" "first"; sample_file "image/png" "x";
            sample_file "text/plain" "third"] 1%nat).
  - simpl. lia.
  - simpl. intros [H|[H|[]]]; discriminate.
  - intros i [<-|[<-|[]]]; reflexivity.
Defined.

(** X12: once [processFiles] has settled, the per-file promises that
    settle later change nothing, be they fulfilled or rejected. *)
Theorem processFiles_settles_once :
  forall (host : Host) (s1 s2 : list nat) (files : list File)
         (r : completion (list jsstring)),
    FileHandler.processFiles host s1 files = Some r ->
    FileHandler.processFiles host (s1 ++ s2) files = Some r.
Proof.
  intros host s1 s2 files r. unfold FileHandler.processFiles. apply all_settled_once.
Qed.

Lemma processFiles_settles_once_witness :
  FileHandler.processFiles sample_host [0]%nat
    [sample_file "image/png" "x"; sample_file "image/gif" "x"]
  = Some (Throw (ErrorObject (js "Unsupported file type: image/png")))
  /\ FileHandler.processFiles sample_host ([0] ++ [1])%nat
       [sample_file "image/png" "x"; sample_file "image/gif" "x"]
     = Some (Throw (ErrorObject (js "Unsupported file type: image/png"))).
Proof.
  assert (FileHandler.processFiles sample_host [0]%nat
            [sample_file "image/png" "x"; sample_file "image/gif" "x"]
          = Some (Throw (ErrorObject (js "Unsupported file type: image/png")))) as H
    by (vm_compute; reflexivity).
  split; [exact H|].
  exact (processFiles_settles_once sample_host [0]%nat [1]%nat
           [sample_file "image/png" "x"; sample_file "image/gif" "x"] _ H).
Defined.

(** ** Formatting a formatted JSON text *)

Section Reformat.
Import JSNumber JSON.

Definition same_text (f : json -> json) (v : json) : Prop :=
  forall indent, serialize indent (f v) = serialize indent v.

Lemma serialize_map_array (f : json -> json) (l : list json) (indent : jsstring) :
  Forall (same_text f) l ->
  serialize indent (JArray (map f l)) = serialize indent (JArray l).
Proof.
  intros H. destruct l as [|e l]; [reflexivity|].
  change (map f (e :: l)) with (f e :: map f l). cbn [serialize].
  change (f e :: map f l) with (map f (e :: l)). rewrite map_map.
  rewrite (map_ext_Forall (fun x => serialize (indent ++ gap) (f x))
             (serialize (indent ++ gap))); [reflexivity|].
  apply (Forall_impl _ (fun a Ha => Ha (indent ++ gap)) H).
Qed.

Lemma serialize_map_object (f : json -> json) (ps : list (jsstring * json))
    (indent : jsstring) :
  Forall (fun kv => same_text f (snd kv)) ps ->
  serialize indent (JObject (map (fun kv => let '(k, p) := kv in (k, f p)) ps))
  = serialize indent (JObject ps).
Proof.
  intros H. destruct ps as [|[k p] ps]; [reflexivity|].
  set (g := fun kv : jsstring * json => let '(k, p) := kv in (k, f p)).
  change (map g ((k, p) :: ps)) with ((k, f p) :: map g ps). cbn [serialize].
  change ((k, f p) :: map g ps) with (map g ((k, p) :: ps)). rewrite map_map.
  erewrite map_ext_Forall; [reflexivity|].
  apply Forall_forall. intros [k0 p0] Hin.
  pose proof (proj1 (Forall_forall _ _) H (k0, p0) Hin) as Hp. cbn [snd] in Hp.
  cbn [g]. rewrite (Hp (indent ++ gap)). reflexivity.
Qed.

Lemma serialize_nulled (v : json) : same_text nulled v.
Proof.
  induction v as [|b|x|s|l IH|ps IH] using json_ind; intros indent;
    try reflexivity.
  - cbn [nulled]. destruct (is_finite x) eqn:Hx; cbn [serialize]; rewrite ?Hx; reflexivity.
  - apply serialize_map_array. assumption.
  - apply serialize_map_object. assumption.
Qed.

Lemma serialize_unsigned_zeros (v : json) : same_text unsigned_zeros v.
Proof.
  induction v as [|b|x|s|l IH|ps IH] using json_ind; intros indent;
    try reflexivity.
  - destruct x; reflexivity.
  - apply serialize_map_array. assumption.
  - apply serialize_map_object. assumption.
Qed.

Lemma all_finite_nulled (v : json) : all_finite (nulled v) = true.
Proof.
  induction v as [|b|x|s|l IH|ps IH] using json_ind; cbn [nulled all_finite];
    try reflexivity.
  - destruct (is_finite x) eqn:Hx; [exact Hx|reflexivity].
  - apply forallb_forall. intros e He. apply in_map_iff in He.
    destruct He as [e' [<- He']]. exact (proj1 (Forall_forall _ _) IH e' He').
  - apply forallb_forall. intros [k p] He. apply in_map_iff in He.
    destruct He as [[k' p'] [Heq He']]. injection Heq as <- <-.
    exact (proj1 (Forall_forall _ _) IH (k', p') He').
Qed.

Lemma wf_nulled (v : json) : wf v -> wf (nulled v).
Proof.
  induction v as [|b|x|s|l IH|ps IH] using json_ind; intros Hwf; cbn [nulled];
    try assumption.
  - destruct (is_finite x); [assumption|constructor].
  - inversion Hwf as [| | | |l' Hl|]; subst. constructor.
    apply Forall_forall. intros e He. apply in_map_iff in He.
    destruct He as [e' [<- He']].
    apply (proj1 (Forall_forall _ _) IH e' He'), (proj1 (Forall_forall _ _) Hl e' He').
  - inversion Hwf as [| | | | |ps' Hord Hps]; subst. constructor.
    + apply ordered_map_values. assumption.
    + apply Forall_forall. intros [k p] He. apply in_map_iff in He.
      destruct He as [[k' p'] [Heq He']]. injection Heq as <- <-.
      exact (proj1 (Forall_forall _ _) IH (k', p') He'
               (proj1 (Forall_forall _ _) Hps (k', p') He')).
Qed.

Lemma depth_map_array (f : json -> json) (l : list json) :
  Forall (fun e => depth (f e) = depth e) l -> depth (JArray (map f l)) = depth (JArray l).
Proof.
  intros H. cbn [depth]. rewrite map_map, (map_ext_Forall _ _ H). reflexivity.
Qed.

Lemma depth_map_object (f : json -> json) (ps : list (jsstring * json)) :
  Forall (fun kv => depth (f (snd kv)) = depth (snd kv)) ps ->
  depth (JObject (map (fun kv => let '(k, p) := kv in (k, f p)) ps)) = depth (JObject ps).
Proof.
  intros H. cbn [depth]. rewrite map_map. erewrite map_ext_Forall; [reflexivity|].
  apply Forall_forall. intros [k p] Hin.
  exact (proj1 (Forall_forall _ _) H (k, p) Hin).
Qed.

Lemma depth_nulled (v : json) : depth (nulled v) = depth v.
Proof.
  induction v as [|b|x|s|l IH|ps IH] using json_ind; try reflexivity.
  - cbn [nulled]. destruct (is_finite x); reflexivity.
  - apply depth_map_array. assumption.
  - apply depth_map_object. assumption.
Qed.

Lemma depth_unsigned_zeros (v : json) : depth (unsigned_zeros v) = depth v.
Proof.
  induction v as [|b|x|s|l IH|ps IH] using json_ind; try reflexivity.
  - apply depth_map_array. assumption.
  - apply depth_map_object. assumption.
Qed.

(** What [JSON.stringify] wrote for a parsed value parses, to a value
    nested as deep, and formats to the same text. *)
Lemma stringify_fixpoint (v : json) :
  wf v ->
  exists v',
    parse (stringify v) = Some v' /\ stringify v' = stringify v /\ depth v' = depth v.
Proof.
  intros Hwf. exists (unsigned_zeros (nulled v)). split; [|split].
  - unfold stringify. rewrite <- (serialize_nulled v []).
    apply parse_stringify; [apply wf_nulled; assumption|apply all_finite_nulled].
  - unfold stringify. rewrite serialize_unsigned_zeros. apply serialize_nulled.
  - rewrite depth_unsigned_zeros. apply depth_nulled.
Qed.

End Reformat.

(** X13: formatting is idempotent.  The text [extractText] returns for a
    JSON file that can be read, be it the formatted text or, when the
    content does not parse or is nested too deep for [JSON.stringify],
    the content itself, is returned unchanged when it is extracted again
    as a JSON file, on a host whose call stack is as deep. *)
Theorem extractText_json_idempotent :
  forall (host : Host) (file : File) (s : jsstring),
    File.type file = js "application/json" ->
    File.text file = Normal s ->
    exists t,
      outcome (TextExtractor.extractText host file) = Normal {| text := t; error := None |}
      /\ forall (host' : Host) (file' : File),
           stack_depth host' = stack_depth host ->
           File.type file' = js "application/json" ->
           File.text file' = Normal t ->
           outcome (TextExtractor.extractText host' file')
           = Normal {| text := t; error := None |}.
Proof.
  assert (forall host file s,
            File.type file = js "application/json" -> File.text file = Normal s ->
            outcome (TextExtractor.extractText host file) =
            Normal (success match JSON.parse s with
                            | Some v =>
                                if (JSON.depth v <=? stack_depth host)%nat
                                then JSON.stringify v else s
                            | None => s
                            end)) as Hrun.
  { intros host file s Htype Htext.
    rewrite extractText_plain by (rewrite Htype; reflexivity).
    rewrite extractPlainText_spec. simpl. rewrite Htext, Htype. simpl.
    destruct (JSON.parse s) as [v|]; [|reflexivity].
    destruct (JSON.depth v <=? stack_depth host)%nat; reflexivity. }
  intros host file s Htype Htext. eexists. split; [exact (Hrun host file s Htype Htext)|].
  intros host' file' Hstack Htype' Htext'. rewrite (Hrun host' file' _ Htype' Htext').
  unfold success. do 2 f_equal. rewrite Hstack.
  destruct (JSON.parse s) as [v|] eqn:Hs.
  - destruct (JSON.depth v <=? stack_depth host)%nat eqn:Hdepth.
    + destruct (stringify_fixpoint v (parse_wf _ _ Hs)) as [v' [-> [Hv' ->]]].
      rewrite Hdepth. exact Hv'.
    + rewrite Hs, Hdepth. reflexivity.
  - rewrite Hs. reflexivity.
Qed.

Lemma extractText_json_idempotent_witness :
  File.type sample_json_file = js "application/json"
  /\ File.text sample_json_file = Normal sample_json
  /\ exists t,
       outcome (TextExtractor.extractText sample_host sample_json_file)
       = Normal {| text := t; error := None |}
       /\ forall (host' : Host) (file' : File),
            stack_depth host' = stack_depth sample_host ->
            File.type file' = js "application/json" ->
            File.text file' = Normal t ->
            outcome (TextExtractor.extractText host' file')
            = Normal {| text := t; error := None |}.
Proof.
  split; [reflexivity|]. split; [reflexivity|].
  exact (extractText_json_idempotent sample_host sample_json_file sample_json
           eq_refl eq_refl).
Defined.

(** The call stack matters: the text [[1]] is returned as it is on a host
    whose stack does not let [JSON.stringify] enter an array, and
    formatted on the sample host. *)
Lemma extractText_json_stack_dependent :
  outcome (TextExtractor.extractText (host_with_stack 0)
             (sample_file "application/json" "[1]"))
  = Normal {| text := js "[1]"; error := None |}
  /\ outcome (TextExtractor.extractText sample_host
                (sample_file "application/json" "[1]"))
     = Normal {| text := js "[" ++ Char.line_feed :: js "  1" ++ Char.line_feed :: js "]";
                 error := None |}.
Proof. split; vm_compute; reflexivity. Qed.

(** ** The tokens of a message *)

Section CompactFacts.
Import JSNumber JSON.

Lemma number_end_rbracket (rest : jsstring) : number_end (Char.rbracket :: rest).
Proof. simpl. repeat split; discriminate. Qed.

Lemma number_end_rbrace (rest : jsstring) : number_end (Char.rbrace :: rest).
Proof. simpl. repeat split; discriminate. Qed.

(** Elements or members, separated by a comma. *)
Lemma lex_join_compact {X : Type} (text : X -> jsstring) (toks : X -> list token)
    (items : list X) (tail : jsstring) :
  Forall (fun x => forall rest, number_end rest ->
                   lex (text x ++ rest) = option_map (app (toks x)) (lex rest)) items ->
  number_end tail ->
  lex (join [Char.comma] (map text items) ++ tail)
  = option_map (app (join [TComma] (map toks items))) (lex tail).
Proof.
  intros Hitems Htail. induction Hitems as [|x items Hx Hitems IH].
  - simpl. destruct (lex tail); reflexivity.
  - destruct items as [|y items].
    + simpl. apply Hx. assumption.
    + cbn [map] in *. unfold jsstring in *.
      rewrite (join_cons2 (X := N)), (join_cons2 (X := token)).
      rewrite <- !app_assoc, Hx by apply number_end_comma.
      cbn [app]. rewrite (lex_punctuator Char.comma TComma) by (simpl; tauto).
      rewrite IH, cons_token_app, option_map_app_app. reflexivity.
Qed.

Lemma lex_serialize_compact (v : json) :
  forall rest,
    wf v -> all_finite v = true -> number_end rest ->
    lex (serialize_compact v ++ rest) = option_map (app (tokens_of v)) (lex rest).
Proof.
  induction v as [|b|x|s|l IH|ps IH] using json_ind; intros rest Hwf Hfin Hend.
  - apply (lex_literal "null" TNull). simpl. tauto.
  - destruct b; [apply (lex_literal "true" TTrue)|apply (lex_literal "false" TFalse)];
      simpl; tauto.
  - cbn [serialize_compact tokens_of]. simpl in Hfin. rewrite Hfin.
    inversion Hwf; subst.
    rewrite lex_NumberToString by assumption. apply cons_token_nil.
  - cbn [serialize_compact tokens_of]. rewrite lex_QuoteJSONString.
    apply cons_token_nil.
  - destruct l as [|e l].
    { cbn [serialize_compact tokens_of].
      change (js "[]" ++ rest) with (Char.lbracket :: Char.rbracket :: rest).
      rewrite (lex_punctuator Char.lbracket TLBracket) by (simpl; tauto).
      rewrite (lex_punctuator Char.rbracket TRBracket) by (simpl; tauto).
      destruct (lex rest); reflexivity. }
    cbn [serialize_compact tokens_of]. cbn [app].
    rewrite (lex_punctuator Char.lbracket TLBracket) by (simpl; tauto).
    rewrite <- !app_assoc.
    inversion Hwf as [| | | |l' Hwfl|]; subst.
    change (forallb all_finite (e :: l) = true) in Hfin.
    rewrite (lex_join_compact serialize_compact tokens_of).
    + cbn [app].
      rewrite (lex_punctuator Char.rbracket TRBracket) by (simpl; tauto).
      destruct (lex rest); simpl; [rewrite <- app_assoc|]; reflexivity.
    + apply Forall_forall. intros x Hx rest' Hrest'.
      apply (proj1 (Forall_forall _ _) IH x Hx).
      * apply (proj1 (Forall_forall _ _) Hwfl x Hx).
      * apply (proj1 (forallb_forall _ _) Hfin x Hx).
      * assumption.
    + apply number_end_rbracket.
  - destruct ps as [|kv ps].
    { cbn [serialize_compact tokens_of].
      change (js "{}" ++ rest) with (Char.lbrace :: Char.rbrace :: rest).
      rewrite (lex_punctuator Char.lbrace TLBrace) by (simpl; tauto).
      rewrite (lex_punctuator Char.rbrace TRBrace) by (simpl; tauto).
      destruct (lex rest); reflexivity. }
    cbn [serialize_compact tokens_of]. cbn [app].
    rewrite (lex_punctuator Char.lbrace TLBrace) by (simpl; tauto).
    rewrite <- !app_assoc.
    inversion Hwf as [| | | | |ps' Hord Hwfl]; subst.
    change (forallb (fun kv => let '(_, p) := kv in all_finite p) (kv :: ps) = true) in Hfin.
    rewrite (lex_join_compact
               (fun kv => let '(k, p) := kv in
                          QuoteJSONString k ++ Char.colon :: serialize_compact p)
               (fun kv => let '(k, p) := kv in TString k :: TColon :: tokens_of p)).
    + cbn [app].
      rewrite (lex_punctuator Char.rbrace TRBrace) by (simpl; tauto).
      destruct (lex rest); simpl; [rewrite <- app_assoc|]; reflexivity.
    + apply Forall_forall. intros [k p] Hx rest' Hrest'.
      rewrite <- app_assoc, lex_QuoteJSONString. cbn [app].
      rewrite (lex_punctuator Char.colon TColon) by (simpl; tauto).
      rewrite (proj1 (Forall_forall _ _) IH (k, p) Hx).
      * rewrite !cons_token_app. reflexivity.
      * apply (proj1 (Forall_forall _ _) Hwfl (k, p) Hx).
      * apply (proj1 (forallb_forall _ _) Hfin (k, p) Hx).
      * assumption.
    + apply number_end_rbrace.
Qed.

(** Parsing what [JSON.stringify (value)] wrote for a well-formed value
    without infinities gives the value back, up to the sign of zero. *)
Lemma parse_stringify_compact (v : json) :
  wf v -> all_finite v = true ->
  parse (stringify_compact v) = Some (unsigned_zeros v).
Proof.
  intros Hwf Hfin. unfold parse, stringify_compact.
  pose proof (lex_serialize_compact v [] Hwf Hfin I) as Hlex.
  rewrite app_nil_r in Hlex. unfold lex in Hlex. rewrite Hlex.
  change (tokenize (length (@nil N)) []) with (Some (@nil token)). cbn [option_map].
  rewrite parse_value_tokens; [reflexivity|assumption|].
  rewrite app_nil_r. lia.
Qed.

Lemma serialize_compact_map_array (f : json -> json) (l : list json) :
  Forall (fun e => serialize_compact (f e) = serialize_compact e) l ->
  serialize_compact (JArray (map f l)) = serialize_compact (JArray l).
Proof.
  intros H. destruct l as [|e l]; [reflexivity|].
  change (map f (e :: l)) with (f e :: map f l). cbn [serialize_compact].
  change (f e :: map f l) with (map f (e :: l)). rewrite map_map.
  rewrite (map_ext_Forall _ _ H). reflexivity.
Qed.

Lemma serialize_compact_map_object (f : json -> json) (ps : list (jsstring * json)) :
  Forall (fun kv => serialize_compact (f (snd kv)) = serialize_compact (snd kv)) ps ->
  serialize_compact (JObject (map (fun kv => let '(k, p) := kv in (k, f p)) ps))
  = serialize_compact (JObject ps).
Proof.
  intros H. destruct ps as [|[k p] ps]; [reflexivity|].
  set (g := fun kv : jsstring * json => let '(k, p) := kv in (k, f p)).
  change (map g ((k, p) :: ps)) with ((k, f p) :: map g ps).
  cbn [serialize_compact].
  change ((k, f p) :: map g ps) with (map g ((k, p) :: ps)). rewrite map_map.
  erewrite map_ext_Forall; [reflexivity|].
  apply Forall_forall. intros [k0 p0] Hin.
  pose proof (proj1 (Forall_forall _ _) H (k0, p0) Hin) as Hp. cbn [snd] in Hp.
  cbn [g]. rewrite Hp. reflexivity.
Qed.

Lemma serialize_compact_nulled (v : json) :
  serialize_compact (nulled v) = serialize_compact v.
Proof.
  induction v as [|b|x|s|l IH|ps IH] using json_ind; try reflexivity.
  - cbn [nulled]. destruct (is_finite x) eqn:Hx; cbn [serialize_compact];
      rewrite ?Hx; reflexivity.
  - apply serialize_compact_map_array. assumption.
  - apply serialize_compact_map_object. assumption.
Qed.


End CompactFacts.

Lemma receive_stringify (DONE_UPDATE message : JSON.json) :
  JSON.wf message ->
  MessageInterpreter.receive DONE_UPDATE (stringify_compact message)
  = ([], Normal (JSON.unsigned_zeros (nulled message))).
Proof.
  intros Hwf. unfold MessageInterpreter.receive.
  replace (stringify_compact message) with (stringify_compact (nulled message))
    by apply serialize_compact_nulled.
  rewrite (parse_stringify_compact (nulled message));
    [reflexivity|apply wf_nulled; assumption|apply all_finite_nulled].
Qed.

(** [send] returns exactly for the messages the call stack has room
    for, and then the text [JSON.stringify] writes. *)
Lemma send_returns (host : Host) (message : JSON.json) :
  (JSON.depth message <= stack_depth host)%nat ->
  MessageInterpreter.send host message = Normal (stringify_compact message).
Proof.
  intros H. unfold MessageInterpreter.send, JSON_stringify_compact.
  apply Nat.leb_le in H. rewrite H. reflexivity.
Qed.


Lemma send_returned (host : Host) (message : JSON.json) (serialized : jsstring) :
  MessageInterpreter.send host message = Normal serialized ->
  serialized = stringify_compact message
  /\ (JSON.depth message <= stack_depth host)%nat.
Proof.
  unfold MessageInterpreter.send, JSON_stringify_compact.
  destruct (Nat.leb_spec (JSON.depth message) (stack_depth host)) as [Hle|Hgt];
    [|discriminate].
  intros H. injection H as <-. split; [reflexivity|assumption].
Qed.



(** X15: no two messages are confused on the wire: messages without
    infinities for which [send] returns the same text, be it on hosts
    with different call stacks, are equal, up to the sign of zero. *)
Theorem send_injective :
  forall (host1 host2 : Host) (m1 m2 : JSON.json) (serialized : jsstring),
    JSON.wf m1 -> JSON.wf m2 ->
    JSON.all_finite m1 = true -> JSON.all_finite m2 = true ->
    MessageInterpreter.send host1 m1 = Normal serialized ->
    MessageInterpreter.send host2 m2 = Normal serialized ->
    JSON.unsigned_zeros m1 = JSON.unsigned_zeros m2.
Proof.
  intros host1 host2 m1 m2 serialized Hwf1 Hwf2 Hfin1 Hfin2 Hs1 Hs2.
  apply send_returned in Hs1. apply send_returned in Hs2.
  destruct Hs1 as [Hs1 _]. destruct Hs2 as [Hs2 _].
  pose proof (parse_stringify_compact m1 Hwf1 Hfin1) as H1.
  pose proof (parse_stringify_compact m2 Hwf2 Hfin2) as H2.
  rewrite <- Hs1 in H1. rewrite <- Hs2 in H2. congruence.
Qed.

Lemma wf_zero_message (neg : bool) : JSON.wf (zero_message neg).
Proof.
  constructor.
  - repeat constructor.
  - repeat constructor.
Qed.

Lemma send_injective_witness :
  MessageInterpreter.send sample_host (zero_message true)
  = Normal (js "{" ++ quoted "delta" ++ js ":0}")
  /\ MessageInterpreter.send (host_with_stack 1) (zero_message false)
     = Normal (js "{" ++ quoted "delta" ++ js ":0}")
  /\ JSON.unsigned_zeros (zero_message true) = JSON.unsigned_zeros (zero_message false).
Proof.
  assert (MessageInterpreter.send sample_host (zero_message true)
          = Normal (js "{" ++ quoted "delta" ++ js ":0}")) as H1 by reflexivity.
  assert (MessageInterpreter.send (host_with_stack 1) (zero_message false)
          = Normal (js "{" ++ quoted "delta" ++ js ":0}")) as H2 by reflexivity.
  split; [exact H1|]. split; [exact H2|].
  exact (send_injective sample_host (host_with_stack 1)
           (zero_message true) (zero_message false) _
           (wf_zero_message true) (wf_zero_message false) eq_refl eq_refl H1 H2).
Defined.

(** X16: the value [receive] returns for a text that is not JSON is the
    value it returns for a genuine message [{type: DONE_UPDATE}] as
    [send] writes it (which it does on every host whose call stack lets
    [JSON.stringify] enter one object); only the line on the console
    tells them apart. *)
Theorem receive_fallback_is_done_update :
  forall (host : Host) (d garbage : jsstring),
    JSON.parse garbage = None ->
    let DONE_UPDATE := JSON.JString d in
    let done := JSON.JObject [(js "type", DONE_UPDATE)] in
    MessageInterpreter.receive DONE_UPDATE garbage
    = ([js "Received non-JSON message: " ++ garbage], Normal done)
    /\ ((1 <= stack_depth host)%nat ->
        exists serialized,
          MessageInterpreter.send host done = Normal serialized
          /\ MessageInterpreter.receive DONE_UPDATE serialized = ([], Normal done)).
Proof.
  intros host d garbage Hparse DONE_UPDATE done. split.
  - unfold MessageInterpreter.receive. rewrite Hparse. reflexivity.
  - intros Hstack. exists (stringify_compact done). split.
    + apply send_returns. exact Hstack.
    + assert (JSON.wf done) as Hwf by (constructor; repeat constructor).
      exact (receive_stringify DONE_UPDATE done Hwf).
Qed.

Lemma receive_fallback_is_done_update_witness :
  JSON.parse (js "test") = None
  /\ MessageInterpreter.receive (JSON.JString (js "done")) (js "test")
     = ([js "Received non-JSON message: " ++ js "test"],
        Normal (JSON.JObject [(js "type", JSON.JString (js "done"))]))
  /\ (1 <= stack_depth sample_host)%nat
  /\ exists serialized,
       MessageInterpreter.send sample_host
         (JSON.JObject [(js "type", JSON.JString (js "done"))]) = Normal serialized
       /\ MessageInterpreter.receive (JSON.JString (js "done")) serialized
          = ([], Normal (JSON.JObject [(js "type", JSON.JString (js "done"))])).
Proof.
  assert (JSON.parse (js "test") = None) as Hparse by (vm_compute; reflexivity).
  assert (1 <= stack_depth sample_host)%nat as Hstack by (simpl; lia).
  split; [exact Hparse|].
  split; [exact (proj1 (receive_fallback_is_done_update sample_host (js "done")
                          (js "test") Hparse))|].
  split; [exact Hstack|].
  exact (proj2 (receive_fallback_is_done_update sample_host (js "done") (js "test")
                  Hparse) Hstack).
Defined.

(** ** The code units of a message *)

Section PrintableFacts.
Import JSNumber JSON.
Local Open Scope Z_scope.

Lemma printable_digits (ds : list Z) : is_digits ds -> Forall printable (map digit_char ds).
Proof.
  intros H. induction H as [|d ds Hd Hds IH]; cbn [map]; constructor; [|assumption].
  unfold printable, digit_char. lia.
Qed.

Lemma printable_decimal_string (z : Z) : 0 <= z -> Forall printable (decimal_string z).
Proof.
  intros Hz. unfold decimal_string.
  destruct (to_digits_spec z Hz) as [d [ds [-> [Hds _]]]].
  apply printable_digits. assumption.
Qed.

Lemma printable_js (s : string) :
  forallb (fun c => (32 <=? c)%N) (js s) = true -> Forall printable (js s).
Proof.
  intros H. apply Forall_forall. intros c Hc.
  apply N.leb_le. exact (proj1 (forallb_forall _ _) H c Hc).
Qed.

Lemma printable_layout (ds : list N) (n : Z) :
  Forall printable ds -> Forall printable (layout ds n).
Proof.
  intros Hds. unfold layout.
  assert (Forall printable
            ((if 0 <? n - 1 then js "e+" else js "e-") ++ decimal_string (Z.abs (n - 1))))
    as Hexp.
  { apply Forall_app. split.
    - destruct (0 <? n - 1); apply printable_js; reflexivity.
    - apply printable_decimal_string, Z.abs_nonneg. }
  assert (forall j, Forall printable (repeat 48%N j)) as Hzeros.
  { intros j. apply Forall_forall. intros c Hc. apply repeat_spec in Hc. subst c.
    unfold printable. lia. }
  destruct (_ && _).
  { apply Forall_app. split; [assumption|apply Hzeros]. }
  destruct (_ && _).
  { pose proof Hds as Hsplit. rewrite <- (firstn_skipn (Z.to_nat n) ds) in Hsplit.
    apply Forall_app in Hsplit. destruct Hsplit as [Hfirst Hskip].
    apply Forall_app. split; [assumption|].
    apply Forall_app. split; [apply printable_js; reflexivity|assumption]. }
  destruct (_ && _).
  { apply Forall_app. split; [apply printable_js; reflexivity|].
    apply Forall_app. split; [apply Hzeros|assumption]. }
  destruct ds as [|d [|d' rest]]; [constructor| |].
  - apply Forall_app. split; assumption.
  - inversion Hds; subst. apply Forall_app. split; [repeat constructor; assumption|].
    apply Forall_app. split; [apply printable_js; reflexivity|].
    apply Forall_app. split; assumption.
Qed.

Lemma printable_NumberToString (x : number) :
  wf_number x -> is_finite x = true -> Forall printable (NumberToString x).
Proof.
  intros Hwf Hfin. destruct x as [neg|neg m e|neg]; [| |discriminate].
  - apply printable_js. reflexivity.
  - cbn [NumberToString]. apply Forall_app. split.
    + destruct neg; [apply printable_js; reflexivity|constructor].
    + simpl in Hwf. unfold NumberToString_pos.
      pose proof (shortest_decimal_denotes m e Hwf) as Hden.
      destruct (shortest_decimal m e) as [c p]. cbn [fst snd] in Hden.
      pose proof (StringToNumber_Finite_pos _ _ _ _ _ _ Hden) as Hpos.
      destruct (strip_zeros_spec (Z.to_nat (Z.log2 c)) c p Hpos) as [Hs _].
      destruct (strip_zeros _ c p) as [s p']. cbn [fst] in Hs.
      apply printable_layout, printable_decimal_string. lia.
Qed.

Lemma printable_hex_digit (n : N) : printable (hex_digit n).
Proof. unfold printable, hex_digit. destruct (n <? 10)%N; lia. Qed.

Ltac printable_units :=
  repeat (first [apply Forall_nil | apply Forall_cons]);
  try assumption; try apply printable_hex_digit; unfold printable; lia.

Lemma printable_quote_unit (c : N) : Forall printable (quote_unit c).
Proof.
  assert (printable Char.backslash) as Hb by (unfold printable, Char.backslash; lia).
  assert (printable Char.quote) as Hq by (unfold printable, Char.quote; lia).
  unfold quote_unit, unicode_escape.
  destruct (c =? 8)%N; [printable_units|].
  destruct (c =? 9)%N; [printable_units|].
  destruct (c =? 10)%N; [printable_units|].
  destruct (c =? 12)%N; [printable_units|].
  destruct (c =? 13)%N; [printable_units|].
  destruct (c =? Char.quote)%N; [printable_units|].
  destruct (c =? Char.backslash)%N; [printable_units|].
  destruct (N.ltb_spec c 32) as [Hlt|Hge]; cbn [orb]; [printable_units|].
  destruct (is_high_surrogate c || is_low_surrogate c); printable_units.
Qed.

Lemma printable_quote_units (s : jsstring) : Forall printable (quote_units s).
Proof.
  assert (forall n s, (length s <= n)%nat -> Forall printable (quote_units s)) as H.
  { clear s. induction n as [|n IH]; intros [|c rest] Hlen; simpl in Hlen;
      try constructor; try lia.
    cbn [quote_units].
    assert (Forall printable (quote_unit c ++ quote_units rest)) as Hstep.
    { apply Forall_app. split; [apply printable_quote_unit|apply IH; lia]. }
    destruct (is_high_surrogate c) eqn:Hhi; [|assumption].
    destruct rest as [|c2 rest2]; [apply printable_quote_unit|].
    destruct (is_low_surrogate c2) eqn:Hlo; [|assumption].
    unfold is_high_surrogate in Hhi. unfold is_low_surrogate in Hlo.
    apply andb_true_iff in Hhi. destruct Hhi as [Hhi _]. apply N.leb_le in Hhi.
    apply andb_true_iff in Hlo. destruct Hlo as [Hlo _]. apply N.leb_le in Hlo.
    constructor; [unfold printable; lia|]. constructor; [unfold printable; lia|].
    apply IH. simpl in Hlen. lia. }
  apply (H (length s)). lia.
Qed.

Lemma printable_QuoteJSONString (s : jsstring) : Forall printable (QuoteJSONString s).
Proof.
  unfold QuoteJSONString. constructor; [unfold printable, Char.quote; lia|].
  apply Forall_app. split; [apply printable_quote_units|].
  constructor; [unfold printable, Char.quote; lia|constructor].
Qed.

Lemma printable_join (parts : list jsstring) :
  Forall (Forall printable) parts -> Forall printable (join [Char.comma] parts).
Proof.
  intros H. induction H as [|p parts Hp Hparts IH]; [constructor|].
  destruct parts as [|q parts]; [assumption|].
  rewrite join_cons2. apply Forall_app. split; [assumption|].
  constructor; [unfold printable, Char.comma; lia|assumption].
Qed.

Lemma printable_serialize (v : json) :
  wf v -> Forall printable (serialize_compact v).
Proof.
  induction v as [|b|x|s|l IH|ps IH] using json_ind; intros Hwf.
  - apply printable_js. reflexivity.
  - destruct b; apply printable_js; reflexivity.
  - cbn [serialize_compact]. destruct (is_finite x) eqn:Hfin.
    + inversion Hwf; subst. apply printable_NumberToString; assumption.
    + apply printable_js. reflexivity.
  - apply printable_QuoteJSONString.
  - destruct l as [|e l]; [apply printable_js; reflexivity|].
    cbn [serialize_compact]. inversion Hwf as [| | | |l' Hwfl|]; subst.
    constructor; [unfold printable, Char.lbracket; lia|].
    apply Forall_app. split; [|repeat constructor; unfold printable, Char.rbracket; lia].
    apply printable_join. apply Forall_forall. intros t Ht.
    apply in_map_iff in Ht. destruct Ht as [x [<- Hx]].
    apply (proj1 (Forall_forall _ _) IH x Hx), (proj1 (Forall_forall _ _) Hwfl x Hx).
  - destruct ps as [|kv ps]; [apply printable_js; reflexivity|].
    cbn [serialize_compact]. inversion Hwf as [| | | | |ps' Hord Hwfl]; subst.
    constructor; [unfold printable, Char.lbrace; lia|].
    apply Forall_app. split; [|repeat constructor; unfold printable, Char.rbrace; lia].
    apply printable_join. apply Forall_forall. intros t Ht.
    apply in_map_iff in Ht. destruct Ht as [[k p] [<- Hx]].
    apply Forall_app. split; [apply printable_QuoteJSONString|].
    constructor; [unfold printable, Char.colon; lia|].
    exact (proj1 (Forall_forall _ _) IH (k, p) Hx
             (proj1 (Forall_forall _ _) Hwfl (k, p) Hx)).
Qed.

End PrintableFacts.

(** X17: a serialized message is one line of text: the text [send]
    returns holds no control character, in particular no line feed and
    no carriage return, whatever the strings of the message hold. *)
Theorem send_single_line :
  forall (host : Host) (message : JSON.json) (serialized : jsstring),
    JSON.wf message ->
    MessageInterpreter.send host message = Normal serialized ->
    Forall printable serialized
    /\ ~ In Char.line_feed serialized
    /\ ~ In Char.carriage_return serialized.
Proof.
  intros host message serialized Hwf Hsend.
  apply send_returned in Hsend. destruct Hsend as [-> _].
  pose proof (printable_serialize message Hwf) as H.
  split; [exact H|].
  split; intros Hin; apply (proj1 (Forall_forall _ _) H) in Hin;
    unfold printable, Char.line_feed, Char.carriage_return in Hin; lia.
Qed.

Lemma send_single_line_witness :
  JSON.wf multiline_message
  /\ MessageInterpreter.send sample_host multiline_message
     = Normal (js "{" ++ quoted "text" ++ js ":" ++ Char.quote :: js "a\nb"
                 ++ Char.quote :: js "}")
  /\ Forall printable (js "{" ++ quoted "text" ++ js ":" ++ Char.quote :: js "a\nb"
                         ++ Char.quote :: js "}")
  /\ ~ In Char.line_feed (js "{" ++ quoted "text" ++ js ":" ++ Char.quote :: js "a\nb"
                            ++ Char.quote :: js "}")
  /\ ~ In Char.carriage_return (js "{" ++ quoted "text" ++ js ":" ++ Char.quote
                                   :: js "a\nb" ++ Char.quote :: js "}").
Proof.
  assert (JSON.wf multiline_message) as Hwf by (constructor; repeat constructor).
  assert (MessageInterpreter.send sample_host multiline_message
          = Normal (js "{" ++ quoted "text" ++ js ":" ++ Char.quote :: js "a\nb"
                      ++ Char.quote :: js "}")) as Hsend by reflexivity.
  split; [exact Hwf|]. split; [exact Hsend|].
  exact (send_single_line sample_host multiline_message _ Hwf Hsend).
Defined.

(** ** Facts about the form *)

Section ChatInputFacts.
Import ChatInput.

Lemma trim_start_nil (s : jsstring) :
  trim_start s = [] <-> forallb is_white_space s = true.
Proof.
  induction s as [|c s IH]; simpl; [tauto|].
  destruct (is_white_space c); simpl; [exact IH|]. split; discriminate.
Qed.

Lemma trim_start_head (s : jsstring) (c : N) (rest : jsstring) :
  trim_start s = c :: rest -> is_white_space c = false.
Proof.
  induction s as [|x s IH]; simpl; [discriminate|].
  destruct (is_white_space x) eqn:Hx; [exact IH|]. intros H. congruence.
Qed.

Lemma forallb_rev {A : Type} (p : A -> bool) (l : list A) :
  forallb p (rev l) = forallb p l.
Proof.
  induction l as [|x l IH]; [reflexivity|]. simpl.
  rewrite forallb_app, IH. simpl. rewrite andb_true_r. apply andb_comm.
Qed.

(** [text.trim ()] is empty exactly when every code unit of the text is
    white space. *)
Lemma trim_nil (s : jsstring) : trim s = [] <-> forallb is_white_space s = true.
Proof.
  unfold trim, trim_end. rewrite <- trim_start_nil. split.
  - intros H. apply (f_equal (@rev N)) in H. rewrite rev_involutive in H. simpl in H.
    apply trim_start_nil in H. rewrite forallb_rev in H.
    destruct (trim_start s) as [|c rest] eqn:Hs; [reflexivity|].
    apply trim_start_head in Hs. simpl in H. rewrite Hs in H. discriminate.
  - intros ->. reflexivity.
Qed.

Lemma trim_eqb (s : jsstring) :
  jsstring_eqb (trim s) [] = forallb is_white_space s.
Proof.
  destruct (jsstring_eqb_spec (trim s) []) as [H|H].
  - symmetry. apply trim_nil. assumption.
  - symmetry. apply not_true_is_false. intros Hw. apply H, trim_nil. assumption.
Qed.

Lemma filter_from_spec {A : Type} (idx i : nat) (l : list A) :
  filter_from (fun _ j => negb (j =? i + idx)%nat) i l = firstn idx l ++ skipn (S idx) l.
Proof.
  revert idx i; induction l as [|x l IH]; intros idx i.
  - destruct idx; reflexivity.
  - cbn [filter_from]. destruct idx as [|idx].
    + rewrite Nat.add_0_r, Nat.eqb_refl. cbn [negb firstn skipn app].
      clear IH. revert i. induction l as [|y l IHl]; intros i; [reflexivity|].
      cbn [filter_from]. replace (S i =? i)%nat with false
        by (symmetry; apply Nat.eqb_neq; lia).
      cbn [negb]. f_equal.
      specialize (IHl (S i)).
      assert (forall k (m : list A), (i < k)%nat ->
                filter_from (fun _ j => negb (j =? i)%nat) k m = m) as Hid.
      { clear. intros k m; revert k; induction m as [|z m IHm]; intros k Hk;
          [reflexivity|].
        cbn [filter_from]. replace (k =? i)%nat with false
          by (symmetry; apply Nat.eqb_neq; lia).
        cbn [negb]. f_equal. apply IHm. lia. }
      apply Hid. lia.
    + replace (i =? i + S idx)%nat with false by (symmetry; apply Nat.eqb_neq; lia).
      cbn [negb firstn skipn app]. f_equal.
      replace (i + S idx)%nat with (S i + idx)%nat by lia. apply IH.
Qed.

Lemma handleSubmit_of_cases (closure st : State) :
  handleSubmit_of closure st =
  if forallb is_white_space (text closure) && (length (files closure) =? 0)%nat
  then ([PreventDefault], st)
  else ([PreventDefault; OnSendMessage (text closure) (files closure)],
        {| text := []; files := []; dragActive := dragActive st |}).
Proof.
  unfold handleSubmit_of. rewrite trim_eqb.
  destruct (forallb is_white_space (text closure)); destruct (files closure); reflexivity.
Qed.

Lemma handleSubmit_cases (st : State) :
  handleSubmit st =
  if forallb is_white_space (text st) && (length (files st) =? 0)%nat
  then ([PreventDefault], st)
  else ([PreventDefault; OnSendMessage (text st) (files st)],
        {| text := []; files := []; dragActive := dragActive st |}).
Proof. apply handleSubmit_of_cases. Qed.

Lemma handleSubmit_sendable (closure st : State) :
  Forall sendable (fst (handleSubmit_of closure st)).
Proof.
  rewrite handleSubmit_of_cases.
  destruct (forallb is_white_space (text closure)) eqn:Hw; cbn [andb].
  - destruct (files closure) as [|f fs] eqn:Hf; cbn [length Nat.eqb fst].
    + repeat constructor.
    + constructor; [exact I|]. constructor; [|constructor]. right. discriminate.
  - cbn [fst]. constructor; [exact I|]. constructor; [|constructor]. left. assumption.
Qed.

(** A property of every effect of every step holds of every effect of a
    run. *)
Lemma dispatch_Forall (P : effect -> Prop) :
  (forall ev c, Forall P (fst (step ev c))) ->
  forall events c, Forall P (fst (dispatch events c)).
Proof.
  intros Hstep. induction events as [|ev events IH]; intros c; cbn [dispatch].
  - constructor.
  - specialize (Hstep ev c). destruct (step ev c) as [effects c']. specialize (IH c').
    destruct (dispatch events c') as [effects' c'']. cbn [fst] in *.
    apply Forall_app. split; assumption.
Qed.

Lemma on_cells_effects (handler : State -> list effect * State) (c : Component) :
  fst (on_cells handler c) = fst (handler (cells c)).
Proof. unfold on_cells. destruct (handler (cells c)); reflexivity. Qed.

Lemma step_sendable (ev : ui_event) (c : Component) : Forall sendable (fst (step ev c)).
Proof.
  destruct ev as [newText textarea'| | | | | | |fileInput| |e| |];
    cbn [step]; rewrite ?on_cells_effects; try (repeat constructor; fail).
  - unfold handleTextChange. destruct textarea'; repeat constructor.
  - unfold openFilePicker. destruct fileInput; repeat constructor.
  - apply handleSubmit_sendable.
  - unfold handleKeyDown_of. destruct (_ && _); [|constructor].
    pose proof (handleSubmit_sendable (rendered c) (cells c)) as H.
    destruct (handleSubmit_of (rendered c) (cells c)) as [effects st']. cbn [fst] in *.
    constructor; [exact I|assumption].
Qed.

Lemma step_bounded_height (ev : ui_event) (c : Component) :
  Forall bounded_height (fst (step ev c)).
Proof.
  destruct ev as [newText textarea'| | | | | | |fileInput| |e| |];
    cbn [step]; rewrite ?on_cells_effects; try (repeat constructor; fail).
  - unfold handleTextChange. destruct textarea'; repeat constructor.
    apply Z.le_min_r.
  - unfold openFilePicker. destruct fileInput; repeat constructor.
  - unfold handleSubmit_of. destruct (_ || _); repeat constructor.
  - unfold handleKeyDown_of, handleSubmit_of.
    destruct (_ && _); [|constructor]. destruct (_ || _); repeat constructor.
Qed.

Lemma step_sends (ev : ui_event) (c : Component) :
  (length (filter is_send (fst (step ev c))) <= if submits ev then 1 else 0)%nat.
Proof.
  destruct ev as [newText textarea'| | | | | | |fileInput| |e| |];
    cbn [step submits]; rewrite ?on_cells_effects; try (cbn; lia).
  - unfold handleTextChange. destruct textarea'; cbn; lia.
  - unfold openFilePicker. destruct fileInput; cbn; lia.
  - unfold handleSubmit_of. destruct (_ || _); cbn; lia.
  - unfold handleKeyDown_of, handleSubmit_of.
    destruct (_ && _); [|cbn; lia]. destruct (_ || _); cbn; lia.
Qed.

Lemma dispatch_sends (events : list ui_event) (c : Component) :
  (length (filter is_send (fst (dispatch events c))) <= length (filter submits events))%nat.
Proof.
  revert c. induction events as [|ev events IH]; intros c; cbn [dispatch filter].
  - cbn. lia.
  - pose proof (step_sends ev c) as Hstep.
    destruct (step ev c) as [effects c']. specialize (IH c').
    destruct (dispatch events c') as [effects' c'']. cbn [fst] in *.
    rewrite filter_app, length_app.
    destruct (submits ev); cbn [length]; lia.
Qed.

End ChatInputFacts.

(** X18: [removeFile idx] removes the file at position [idx] of the
    preview list and nothing else: the files before and after it stay, in
    their order; for a position beyond the end the list is unchanged. *)
Theorem removeFile_removes_one :
  forall (idx : nat) (st : ChatInput.State),
    ChatInput.files (ChatInput.removeFile idx st)
    = firstn idx (ChatInput.files st) ++ skipn (S idx) (ChatInput.files st)
    /\ ChatInput.text (ChatInput.removeFile idx st) = ChatInput.text st
    /\ ((length (ChatInput.files st) <= idx)%nat ->
        ChatInput.removeFile idx st = st).
Proof.
  intros idx st.
  assert (ChatInput.files (ChatInput.removeFile idx st)
          = firstn idx (ChatInput.files st) ++ skipn (S idx) (ChatInput.files st)) as H
    by apply (filter_from_spec idx O).
  split; [exact H|]. split; [reflexivity|].
  intros Hlen. destruct st as [t fs d]. unfold ChatInput.removeFile in *.
  cbn [ChatInput.files ChatInput.text ChatInput.dragActive] in *. rewrite H.
  rewrite firstn_all2 by assumption. rewrite skipn_all2 by lia.
  rewrite app_nil_r. reflexivity.
Qed.

Lemma removeFile_removes_one_witness :
  let st := {| ChatInput.text := js "hello";
               ChatInput.files := [sample_file "text/plain" "a";
                                   sample_file "text/plain" "b";
                                   sample_file "text/plain" "c"];
               ChatInput.dragActive := false |} in
  ChatInput.files (ChatInput.removeFile 1 st)
  = [sample_file "text/plain" "a"; sample_file "text/plain" "c"]
  /\ ChatInput.removeFile 3 st = st.
Proof.
  intros st. split.
  - exact (proj1 (removeFile_removes_one 1 st)).
  - exact (proj2 (proj2 (removeFile_removes_one 3 st)) (le_n 3)).
Defined.

(** X19: the form never sends an empty message: whatever the user does,
    from whatever state, every call of [onSendMessage] carries a text
    with a code unit that is not white space, or at least one file. *)
Theorem no_blank_message_sent :
  forall (events : list ChatInput.ui_event) (st : ChatInput.State),
    Forall sendable (fst (ChatInput.run_events events st)).
Proof.
  intros events st. apply dispatch_Forall. exact step_sendable.
Qed.

(** X20: when the Send button is rendered enabled, submitting the form
    sends the text as typed, untrimmed, with the attached files, and
    clears both; the [disabled] prop does not prevent it when files are
    attached.  When the component is not disabled and the button is
    rendered disabled, submitting sends nothing and changes nothing. *)
Theorem enabled_send_button_sends :
  forall (props : ChatInput.Props) (st : ChatInput.State),
    (ChatInput.send_button_disabled props st = false ->
     ChatInput.handleSubmit st =
     ([ChatInput.PreventDefault;
       ChatInput.OnSendMessage (ChatInput.text st) (ChatInput.files st)],
      {| ChatInput.text := []; ChatInput.files := [];
         ChatInput.dragActive := ChatInput.dragActive st |}))
    /\ (ChatInput.disabled props = false ->
        ChatInput.send_button_disabled props st = true ->
        ChatInput.handleSubmit st = ([ChatInput.PreventDefault], st)).
Proof.
  intros props st. rewrite handleSubmit_cases.
  unfold ChatInput.send_button_disabled, ChatInput.isSendButtonDisabled.
  rewrite trim_eqb. split.
  - intros H. destruct (forallb ChatInput.is_white_space (ChatInput.text st));
      [|reflexivity].
    rewrite orb_true_r in H. cbn [andb] in *. rewrite H. reflexivity.
  - intros -> H. cbn [orb] in H. rewrite H. reflexivity.
Qed.

Lemma enabled_send_button_sends_witness :
  let props := {| ChatInput.disabled := true; ChatInput.showStopButton := false |} in
  let st := {| ChatInput.text := js "  ";
               ChatInput.files := [sample_file "text/plain" "notes"];
               ChatInput.dragActive := false |} in
  ChatInput.send_button_disabled props st = false
  /\ ChatInput.handleSubmit st =
     ([ChatInput.PreventDefault;
       ChatInput.OnSendMessage (js "  ") [sample_file "text/plain" "notes"]],
      {| ChatInput.text := []; ChatInput.files := []; ChatInput.dragActive := false |}).
Proof.
  intros props st. split; [reflexivity|].
  exact (proj1 (enabled_send_button_sends props st) eq_refl).
Defined.

(** X21: a message that was sent is not sent again by a further submit
    once the form has rendered again, for the render shows the cleared
    text and files; a further submit that comes before that render
    meets the handler of the old render and sends the same message a
    second time. *)
Theorem submit_twice :
  forall (st : ChatInput.State),
    let message := ChatInput.OnSendMessage (ChatInput.text st) (ChatInput.files st) in
    sendable message ->
    fst (ChatInput.run_events [ChatInput.Submit; ChatInput.Render; ChatInput.Submit] st)
    = [ChatInput.PreventDefault; message; ChatInput.PreventDefault]
    /\ fst (ChatInput.run_events [ChatInput.Submit; ChatInput.Submit] st)
       = [ChatInput.PreventDefault; message; ChatInput.PreventDefault; message].
Proof.
  intros st message Hsend.
  assert (forallb ChatInput.is_white_space (ChatInput.text st)
          && (length (ChatInput.files st) =? 0)%nat = false) as Hguard.
  { destruct Hsend as [Hw|Hf]; [rewrite Hw; reflexivity|].
    destruct (ChatInput.files st); [contradiction|]. apply andb_false_r. }
  unfold ChatInput.run_events.
  cbn [ChatInput.dispatch ChatInput.step]. unfold ChatInput.on_cells.
  cbn [ChatInput.cells ChatInput.rendered].
  rewrite (handleSubmit_of_cases st st), Hguard.
  cbn [ChatInput.cells ChatInput.rendered].
  rewrite !handleSubmit_of_cases. cbn [ChatInput.text ChatInput.files].
  rewrite Hguard. split; reflexivity.
Qed.

Lemma submit_twice_witness :
  let st := {| ChatInput.text := js "hello"; ChatInput.files := [];
               ChatInput.dragActive := false |} in
  sendable (ChatInput.OnSendMessage (js "hello") [])
  /\ fst (ChatInput.run_events [ChatInput.Submit; ChatInput.Render; ChatInput.Submit] st)
     = [ChatInput.PreventDefault; ChatInput.OnSendMessage (js "hello") [];
        ChatInput.PreventDefault]
  /\ fst (ChatInput.run_events [ChatInput.Submit; ChatInput.Submit] st)
     = [ChatInput.PreventDefault; ChatInput.OnSendMessage (js "hello") [];
        ChatInput.PreventDefault; ChatInput.OnSendMessage (js "hello") []].
Proof.
  intros st.
  assert (sendable (ChatInput.OnSendMessage (js "hello") [])) as Hsend
    by (left; reflexivity).
  split; [exact Hsend|].
  exact (submit_twice st Hsend).
Defined.

(** X22: the text area never grows beyond 100 pixels: every height the
    component writes, when it mounts and at every change of the text, is
    at most 100, however tall the content is. *)
Theorem textarea_height_bounded :
  forall (textarea : option Z) (events : list ChatInput.ui_event) (st : ChatInput.State),
    Forall bounded_height (ChatInput.mount textarea ++ fst (ChatInput.run_events events st)).
Proof.
  intros textarea events st. apply Forall_app. split.
  - destruct textarea as [h|]; simpl; repeat constructor. apply Z.le_min_r.
  - apply dispatch_Forall. exact step_bounded_height.
Qed.

(** X23: messages are sent by submitting only, one at most per submit:
    over every sequence of UI events, the number of calls of
    [onSendMessage] is at most the number of submit events and Enter
    keys without Shift outside a composition; typing, attaching,
    removing and dragging send nothing. *)
Theorem one_message_per_submit :
  forall (events : list ChatInput.ui_event) (st : ChatInput.State),
    (length (filter is_send (fst (ChatInput.run_events events st)))
     <= length (filter submits events))%nat.
Proof.
  intros events st. apply dispatch_sends.
Qed.
